(** * String-sorting engine of SET-9: a shallow embedding of [src/main.cpp]

    The development follows [class StringSortTester]: the five sorting
    procedures behind [run], the comparison counter [comps] they share, and
    the radix helpers [charToIndex] and [charAt].  Around it come
    [averageRun] with the closure [main] hands to it, and the loops of
    [StringGenerator], its random engine and distributions left abstract.

    Conventions of the embedding.
    - [std::size_t] values are integers in [Z] reduced modulo [2^64] wherever
      the source computes with them ([size_add], [size_sub], [incr]);
      [int] values are integers in [Z], a conversion from [std::size_t]
      to [int] is [to_int], and an [int] computation whose result does not
      fit an [int] is the outcome [Fault IntOverflow] ([int_val]).
    - A [std::vector] is a list; [operator[]] outside the vector is undefined
      behaviour in C++ and is the outcome [Fault] here, so that a theorem
      that a procedure reaches [Done] also says that it never leaves its
      vectors.
    - The procedures never inspect a string object except through its
      characters.  Elements are therefore taken from an arbitrary type [A]
      with a projection [key : A -> string]; the program itself is the
      instance [A := string], [key := id].  The extra generality is what
      makes stability statable: two elements with equal keys can still be
      told apart.
    - [while] loops and recursive procedures take a [fuel] argument; every
      caller passes a bound computed from its arguments, and running out of
      it is the outcome [Fault OutOfFuel], which the theorems exclude. *)

From Stdlib Require Import ZArith Lia Ascii String.
From stdpp Require Import base list strings sorting.

Local Open Scope Z_scope.

(** ** Machine integers *)

Definition wrap64 (z : Z) : Z := z mod 2 ^ 64.

Definition size_add (a b : Z) : Z := wrap64 (a + b).
Definition size_sub (a b : Z) : Z := wrap64 (a - b).

(** [++x] on a [std::size_t]. *)
Definition incr (c : Z) : Z := size_add c 1.

(** Conversion of a [std::size_t] to a 32-bit [int] (modular, as C++20
    requires and as every mainstream compiler did before). *)
Definition to_int (z : Z) : Z := (z + 2 ^ 31) mod 2 ^ 32 - 2 ^ 31.

(** The range of [int]. *)
Definition is_int (z : Z) : bool := (- 2 ^ 31 <=? z) && (z <? 2 ^ 31).

(** ** Outcomes *)

Inductive fault : Set :=
| ArrOutOfRange      (* arr[...] outside the sequence *)
| CountOutOfRange    (* count[...] outside the R+2 counters *)
| AuxOutOfRange      (* aux[...] outside the scratch vector *)
| StrOutOfRange      (* s[...] outside a string *)
| IntOverflow        (* an int computation outside the range of int *)
| OutOfFuel.

Inductive outcome (X : Type) : Type :=
| Done (x : X)
| Fault (f : fault).
Arguments Done {X} x.
Arguments Fault {X} f.

Definition bind {X Y : Type} (m : outcome X) (k : X -> outcome Y) : outcome Y :=
  match m with
  | Done x => k x
  | Fault f => Fault f
  end.

Notation "'let!' p ':=' m 'in' k" :=
  (bind m (fun x => match x with p => k end))
  (at level 10, p pattern, m at level 200, k at level 200).

(** The result [z] of an arithmetic operation on [int]s: undefined
    behaviour in C++ when it does not fit. *)
Definition int_val (z : Z) : outcome Z :=
  if is_int z then Done z else Fault IntOverflow.

(** ** Vectors *)

Section Vector.
Context {X : Type}.

(** [v[i]], read. *)
Definition vget (f : fault) (v : list X) (i : Z) : outcome X :=
  if 0 <=? i then
    match v !! Z.to_nat i with
    | Some x => Done x
    | None => Fault f
    end
  else Fault f.

(** [v[i] = x]. *)
Definition vset (f : fault) (v : list X) (i : Z) (x : X) : outcome (list X) :=
  if (0 <=? i) && (i <? Z.of_nat (length v))
  then Done (<[Z.to_nat i := x]> v)
  else Fault f.

(** [std::swap(v[i], v[j])]. *)
Definition vswap (f : fault) (v : list X) (i j : Z) : outcome (list X) :=
  let! x := vget f v i in
  let! y := vget f v j in
  let! v := vset f v i y in
  vset f v j x.

(** [dst[pos + k] = src[k]] for every [k], in increasing order:
    [std::copy(src.begin(), src.end(), dst.begin() + pos)] and the
    write-back loop of the radix passes. *)
Fixpoint copy_into (f : fault) (src dst : list X) (pos : Z) : outcome (list X) :=
  match src with
  | [] => Done dst
  | x :: src =>
      let! dst := vset f dst pos x in
      copy_into f src dst (pos + 1)
  end.
End Vector.

(** ** Strings and characters *)

Definition size (s : string) : Z := Z.of_nat (String.length s).

(** [s[i]]. *)
Definition sget (s : string) (i : Z) : outcome ascii :=
  if 0 <=? i then
    match String.get (Z.to_nat i) s with
    | Some c => Done c
    | None => Fault StrOutOfRange
    end
  else Fault StrOutOfRange.

(** The value of a plain [char]: whether [char] is signed is left to the
    implementation, so it is a parameter of the comparisons below. *)
Definition char_val (signed_char : bool) (c : ascii) : Z :=
  let n := Z.of_N (N_of_ascii c) in
  if signed_char && (128 <=? n) then n - 256 else n.

Definition R : Z := 74.
Definition cutoff : Z := 15.

Definition alpha : string :=
  "ABCDEFGHIJKLMNOPQRSTUVWXYZabcdefghijklmnopqrstuvwxyz0123456789!@#%:;^&*()-.".

(** [s.find(c)] from position [pos]: the first index holding [c]. *)
Fixpoint find (c : ascii) (s : string) (pos : Z) : option Z :=
  match s with
  | EmptyString => None
  | String x s => if Ascii.eqb x c then Some pos else find c s (pos + 1)
  end.

Definition charToIndex (c : ascii) : Z :=
  match find c alpha 0 with
  | None => -1
  | Some pos => to_int pos
  end.

Definition charAt (s : string) (d : Z) : Z :=
  if d <? size s then
    match String.get (Z.to_nat d) s with
    | Some c => charToIndex c
    | None => -1
    end
  else -1.

(** ** The engine *)

Abbreviation arr_get := (vget ArrOutOfRange).
Abbreviation arr_set := (vset ArrOutOfRange).
Abbreviation arr_swap := (vswap ArrOutOfRange).
Abbreviation count_get := (vget CountOutOfRange).
Abbreviation count_set := (vset CountOutOfRange).
Abbreviation aux_set := (vset AuxOutOfRange).

Inductive Algo : Set :=
| StdQuick | StdMergeLCP | TernaryQuick | MsdRadix | MsdRadixPure.

Record SortResult : Set := { time : Z; comps : Z }.

(** The only member of [StringSortTester] is the counter. *)
Record StringSortTester : Set := { tester_comps : Z }.

Section Engine.
Context {A : Type}.
(** The characters of an element, and the element a default-constructed
    or moved-from [std::string] is (its key is the empty string in the
    program; the procedures never read it). *)
Variable key : A -> string.
Variable dflt : A.
(** Whether plain [char] is signed. *)
Variable signed_char : bool.
(** [std::sort(first, last, comp)] of the C++ library, with a comparator
    that threads the counter. *)
Variable std_sort : (A -> A -> Z -> bool * Z) -> list A -> Z -> list A * Z.

(** *** mergeSortLCP *)

(** [while (i < mid && j < right)]: returns [temp], [i], [j], [comps]. *)
Fixpoint merge_loop (fuel : nat) (arr temp : list A) (i j mid right comps : Z)
  : outcome (list A * Z * Z * Z) :=
  if (i <? mid) && (j <? right) then
    match fuel with
    | O => Fault OutOfFuel
    | S fuel =>
        let comps := incr comps in
        let! ai := arr_get arr i in
        let! aj := arr_get arr j in
        if (key ai <=? key aj)%string
        then merge_loop fuel arr (temp ++ [ai]) (i + 1) j mid right comps
        else merge_loop fuel arr (temp ++ [aj]) i (j + 1) mid right comps
    end
  else Done (temp, i, j, comps).

(** [while (i < stop) temp.push_back(arr[i++])], [n] iterations. *)
Fixpoint copy_loop (n : nat) (arr temp : list A) (i : Z) : outcome (list A) :=
  match n with
  | O => Done temp
  | S n =>
      let! ai := arr_get arr i in
      copy_loop n arr (temp ++ [ai]) (i + 1)
  end.

(** The statements of [mergeSortLCP] after its two recursive calls: the
    merge of [arr[left..mid)] and [arr[mid..right)] through [temp]. *)
Definition merge_halves (arr : list A) (left mid right comps : Z)
  : outcome (list A * Z) :=
  let! (temp, i, j, comps) :=
    merge_loop (Z.to_nat (size_sub right left)) arr [] left mid mid right comps in
  let! temp := copy_loop (Z.to_nat (mid - i)) arr temp i in
  let! temp := copy_loop (Z.to_nat (right - j)) arr temp j in
  let! arr := copy_into ArrOutOfRange temp arr left in
  Done (arr, comps).

Fixpoint mergeSortLCP (fuel : nat) (arr : list A) (left right comps : Z)
  : outcome (list A * Z) :=
  if size_sub right left <=? 1 then Done (arr, comps) else
  match fuel with
  | O => Fault OutOfFuel
  | S fuel =>
      let mid := size_add left right / 2 in
      let! (arr, comps) := mergeSortLCP fuel arr left mid comps in
      let! (arr, comps) := mergeSortLCP fuel arr mid right comps in
      merge_halves arr left mid right comps
  end.

(** *** ternaryQuickSort *)

(** [pivot] is a reference to [arr[lo]]: every test reads the slot as it
    is at that moment.  The cursors [lt], [i] and [gt] are [int]s: [lt++],
    [i++] and [gt--] are evaluated before the call of [std::swap], and
    are undefined when the result does not fit an [int].  Returns [arr],
    [lt], [gt], [comps]. *)
Fixpoint tqs_loop (fuel : nat) (arr : list A) (lo lt i gt comps : Z)
  : outcome (list A * Z * Z * Z) :=
  if i <=? gt then
    match fuel with
    | O => Fault OutOfFuel
    | S fuel =>
        let comps := incr comps in
        let! ai := arr_get arr i in
        let! pivot := arr_get arr lo in
        if (key ai <? key pivot)%string then
          let! lt' := int_val (lt + 1) in
          let! i' := int_val (i + 1) in
          let! arr := arr_swap arr lt i in
          tqs_loop fuel arr lo lt' i' gt comps
        else if (key pivot <? key ai)%string then
          let! gt' := int_val (gt - 1) in
          let! arr := arr_swap arr i gt in
          tqs_loop fuel arr lo lt i gt' comps
        else
          let! i' := int_val (i + 1) in
          tqs_loop fuel arr lo lt i' gt comps
    end
  else Done (arr, lt, gt, comps).

Fixpoint ternaryQuickSort (fuel : nat) (arr : list A) (lo hi comps : Z)
  : outcome (list A * Z) :=
  if lo >=? hi then Done (arr, comps) else
  match fuel with
  | O => Fault OutOfFuel
  | S fuel =>
      let! i := int_val (lo + 1) in
      let! (arr, lt, gt, comps) :=
        tqs_loop (Z.to_nat (hi - lo)) arr lo lo i hi comps in
      let! hi' := int_val (lt - 1) in
      let! (arr, comps) := ternaryQuickSort fuel arr lo hi' comps in
      let! lo' := int_val (gt + 1) in
      ternaryQuickSort fuel arr lo' hi comps
  end.

(** *** suffixLess and ternaryQuickSortSuffix *)

Definition char_lt (x y : ascii) : bool :=
  char_val signed_char x <? char_val signed_char y.

(** [while (i < a.size() && i < b.size())] and the two statements after
    it. *)
Fixpoint suffixLess_loop (fuel : nat) (a b : string) (i comps : Z)
  : outcome (bool * Z) :=
  if (i <? size a) && (i <? size b) then
    match fuel with
    | O => Fault OutOfFuel
    | S fuel =>
        let comps := incr comps in
        let! x := sget a i in
        let! y := sget b i in
        if char_lt x y then Done (true, comps)
        else if char_lt y x then Done (false, comps)
        else suffixLess_loop fuel a b (i + 1) comps
    end
  else Done (size a <? size b, incr comps).

Definition suffixLess (a b : string) (d comps : Z) : outcome (bool * Z) :=
  suffixLess_loop (String.length a) a b d comps.

Fixpoint tqss_loop (fuel : nat) (arr : list A) (lo lt i gt d comps : Z)
  : outcome (list A * Z * Z * Z) :=
  if i <=? gt then
    match fuel with
    | O => Fault OutOfFuel
    | S fuel =>
        let comps := incr comps in
        let! ai := arr_get arr i in
        let! pivot := arr_get arr lo in
        let! (less, comps) := suffixLess (key ai) (key pivot) d comps in
        if less then
          let! lt' := int_val (lt + 1) in
          let! i' := int_val (i + 1) in
          let! arr := arr_swap arr lt i in
          tqss_loop fuel arr lo lt' i' gt d comps
        else
          let! (greater, comps) := suffixLess (key pivot) (key ai) d comps in
          if greater then
            let! gt' := int_val (gt - 1) in
            let! arr := arr_swap arr i gt in
            tqss_loop fuel arr lo lt i gt' d comps
          else
            let! i' := int_val (i + 1) in
            tqss_loop fuel arr lo lt i' gt d comps
    end
  else Done (arr, lt, gt, comps).

Fixpoint ternaryQuickSortSuffix (fuel : nat) (arr : list A) (lo hi d comps : Z)
  : outcome (list A * Z) :=
  if lo >=? hi then Done (arr, comps) else
  match fuel with
  | O => Fault OutOfFuel
  | S fuel =>
      let! i := int_val (lo + 1) in
      let! (arr, lt, gt, comps) :=
        tqss_loop (Z.to_nat (hi - lo)) arr lo lo i hi d comps in
      let! hi' := int_val (lt - 1) in
      let! (arr, comps) := ternaryQuickSortSuffix fuel arr lo hi' d comps in
      let! lo' := int_val (gt + 1) in
      ternaryQuickSortSuffix fuel arr lo' hi d comps
  end.

(** *** msdRadixSort and msdRadixSortPure *)

(** The two procedures run the same statements between the base cases and
    the recursive calls; they are embedded once.  A [for] loop whose bound
    does not change takes its number of iterations. *)

(** [for (i = left; i < right; ++i) { ++count[charAt(arr[i], d) + 2]; ++comps; }] *)
Fixpoint count_loop (n : nat) (arr : list A) (count : list Z) (i d comps : Z)
  : outcome (list Z * Z) :=
  match n with
  | O => Done (count, comps)
  | S n =>
      let! ai := arr_get arr i in
      let k := charAt (key ai) d + 2 in
      let! c := count_get count k in
      let! count := count_set count k (incr c) in
      count_loop n arr count (i + 1) d (incr comps)
  end.

(** [for (r = 0; r < R + 1; ++r) count[r + 1] += count[r];] *)
Fixpoint prefix_loop (n : nat) (count : list Z) (r : Z) : outcome (list Z) :=
  match n with
  | O => Done count
  | S n =>
      let! a := count_get count (r + 1) in
      let! b := count_get count r in
      let! count := count_set count (r + 1) (size_add a b) in
      prefix_loop n count (r + 1)
  end.

(** [for (i = left; i < right; ++i)
       aux[count[charAt(arr[i], d) + 1]++] = std::move(arr[i]);]
    The moved-from slot holds [dflt] afterwards. *)
Fixpoint place_loop (n : nat) (arr aux : list A) (count : list Z) (i d : Z)
  : outcome (list A * list A * list Z) :=
  match n with
  | O => Done (arr, aux, count)
  | S n =>
      let! ai := arr_get arr i in
      let k := charAt (key ai) d + 1 in
      let! p := count_get count k in
      let! count := count_set count k (incr p) in
      let! aux := aux_set aux p ai in
      let! arr := arr_set arr i dflt in
      place_loop n arr aux count (i + 1) d
  end.

(** From the declaration of [count] to the write-back loop. *)
Definition radix_pass (arr : list A) (left right d comps : Z)
  : outcome (list A * list Z * Z) :=
  let count := replicate (Z.to_nat (R + 2)) 0 in
  let! (count, comps) :=
    count_loop (Z.to_nat (right - left)) arr count left d comps in
  let! count := prefix_loop (Z.to_nat (R + 1)) count 0 in
  let aux := replicate (Z.to_nat (size_sub right left)) dflt in
  let! (arr, aux, count) :=
    place_loop (Z.to_nat (right - left)) arr aux count left d in
  let! arr := copy_into ArrOutOfRange aux arr left in
  Done (arr, count, comps).

(** [for (r = 0; r < R; ++r)
       self(arr, left + count[r], left + count[r + 1], d + 1);] *)
Fixpoint bucket_loop (self : list A -> Z -> Z -> Z -> Z -> outcome (list A * Z))
    (n : nat) (arr : list A) (count : list Z) (left r d comps : Z)
  : outcome (list A * Z) :=
  match n with
  | O => Done (arr, comps)
  | S n =>
      let! lo := count_get count r in
      let! hi := count_get count (r + 1) in
      let! (arr, comps) :=
        self arr (size_add left lo) (size_add left hi) (size_add d 1) comps in
      bucket_loop self n arr count left (r + 1) d comps
  end.

Fixpoint msdRadixSort (fuel : nat) (arr : list A) (left right d comps : Z)
  : outcome (list A * Z) :=
  if right <=? size_add left 1 then Done (arr, comps) else
  if size_sub right left <=? cutoff then
    ternaryQuickSortSuffix (Z.to_nat cutoff) arr
      (to_int left) (to_int (size_sub right 1)) d comps
  else
    match fuel with
    | O => Fault OutOfFuel
    | S fuel =>
        let! (arr, count, comps) := radix_pass arr left right d comps in
        bucket_loop (msdRadixSort fuel) (Z.to_nat R) arr count left 0 d comps
    end.

Fixpoint msdRadixSortPure (fuel : nat) (arr : list A) (left right d comps : Z)
  : outcome (list A * Z) :=
  if right <=? size_add left 1 then Done (arr, comps) else
  match fuel with
  | O => Fault OutOfFuel
  | S fuel =>
      let! (arr, count, comps) := radix_pass arr left right d comps in
      bucket_loop (msdRadixSortPure fuel) (Z.to_nat R) arr count left 0 d comps
  end.

(** *** run *)

(** The longest string of the sequence bounds the depth of the radix
    recursion. *)
Definition max_size (arr : list A) : nat :=
  foldr (fun x m => Nat.max (String.length (key x)) m) 0%nat arr.

(** The [switch] of [run]; [n] is [arr.size()]. *)
Definition run_switch (algo : Algo) (arr : list A) (comps : Z)
  : outcome (list A * Z) :=
  let n := Z.of_nat (length arr) in
  match algo with
  | StdQuick =>
      Done (std_sort (fun a b c => ((key a <? key b)%string, incr c)) arr comps)
  | StdMergeLCP => mergeSortLCP (length arr) arr 0 n comps
  | TernaryQuick =>
      ternaryQuickSort (length arr) arr 0 (to_int (size_sub n 1)) comps
  | MsdRadix => msdRadixSort (S (max_size arr)) arr 0 n 0 comps
  | MsdRadixPure => msdRadixSortPure (S (max_size arr)) arr 0 n 0 comps
  end.

(** [start] and [stop] are the two readings of the clock, in
    nanoseconds. *)
Definition run (algo : Algo) (arr : list A) (tester : StringSortTester)
    (start stop : Z) : outcome (SortResult * list A * StringSortTester) :=
  let tester := {| tester_comps := 0 |} in
  let! (arr, comps) := run_switch algo arr (tester_comps tester) in
  Done ({| time := (stop - start) ÷ 1000000; comps := comps |},
        arr, {| tester_comps := comps |}).
End Engine.

(** *** lcp *)

(** [while (i < (int)a.size() && i < (int)b.size() && a[i] == b[i]) ++i;]
    with [i] an [int]. *)
Fixpoint lcp_loop (fuel : nat) (a b : string) (i : Z) : outcome Z :=
  if (i <? to_int (size a)) && (i <? to_int (size b)) then
    let! x := sget a i in
    let! y := sget b i in
    if Ascii.eqb x y then
      match fuel with
      | O => Fault OutOfFuel
      | S fuel => lcp_loop fuel a b (i + 1)
      end
    else Done i
  else Done i.

Definition lcp (a b : string) : outcome Z :=
  lcp_loop (String.length a) a b 0.

(** ** averageRun *)

(** [averageRun] adds to the faults of the calls of [f] the two undefined
    operations of its own [long long] arithmetic. *)
Inductive avg_outcome (X : Type) : Type :=
| Avg (x : X)
| RunFault (f : fault)
| DivisionByZero
| SignedOverflow.
Arguments Avg {X} x.
Arguments RunFault {X} f.
Arguments DivisionByZero {X}.
Arguments SignedOverflow {X}.

Definition is_llong (z : Z) : bool := (- 2 ^ 63 <=? z) && (z <? 2 ^ 63).

(** Conversion of an unsigned 64-bit value to [long long]. *)
Definition to_llong (z : Z) : Z := (z + 2 ^ 63) mod 2 ^ 64 - 2 ^ 63.

(** [a / b] on [long long]: the quotient truncated towards zero. *)
Definition llong_div (a b : Z) : avg_outcome Z :=
  if b =? 0 then DivisionByZero
  else if (a =? - 2 ^ 63) && (b =? -1) then SignedOverflow
  else Avg (a ÷ b).

Section AverageRun.
(** [f] is a closure: [St] is what it captures by reference. *)
Context {St : Type} (f : St -> outcome (SortResult * St)).

(** [for (int i = 0; i < runs; ++i) results.push_back(f());] *)
Fixpoint results_loop (n : nat) (s : St) (results : list SortResult)
  : outcome (list SortResult * St) :=
  match n with
  | O => Done (results, s)
  | S n =>
      let! (r, s) := f s in
      results_loop n s (results ++ [r])
  end.

(** [for (auto& r : results) { totalTime += r.time.count();
    totalComps += r.comps; }]: the first sum is signed, the second one is
    computed on unsigned 64-bit values and converted back to [long long]. *)
Fixpoint totals_loop (results : list SortResult) (totalTime totalComps : Z)
  : avg_outcome (Z * Z) :=
  match results with
  | [] => Avg (totalTime, totalComps)
  | r :: results =>
      if is_llong (totalTime + time r) then
        totals_loop results (totalTime + time r)
          (to_llong (wrap64 (wrap64 totalComps + comps r)))
      else SignedOverflow
  end.

Definition averageRun (runs : Z) (s : St) : avg_outcome (SortResult * St) :=
  match results_loop (Z.to_nat runs) s [] with
  | Fault e => RunFault e
  | Done (results, s) =>
      match totals_loop results 0 0 with
      | Avg (totalTime, totalComps) =>
          match llong_div totalTime runs with
          | Avg t =>
              match llong_div totalComps runs with
              | Avg c => Avg ({| time := t; comps := wrap64 c |}, s)
              | RunFault e => RunFault e
              | DivisionByZero => DivisionByZero
              | SignedOverflow => SignedOverflow
              end
          | RunFault e => RunFault e
          | DivisionByZero => DivisionByZero
          | SignedOverflow => SignedOverflow
          end
      | RunFault e => RunFault e
      | DivisionByZero => DivisionByZero
      | SignedOverflow => SignedOverflow
      end
  end.
End AverageRun.

(** The closure [main] hands to [averageRun]:
    [[&]() { auto arrCopy = sample; return tester.run(algo, arrCopy); }].
    It captures the tester and reads the clock twice a call; [clock k] is
    the [k]-th reading of the clock. *)
Definition measured_run {A : Type} (key : A -> string) (dflt : A)
    (signed_char : bool)
    (std_sort : (A -> A -> Z -> bool * Z) -> list A -> Z -> list A * Z)
    (clock : nat -> Z) (algo : Algo) (sample : list A)
    (s : StringSortTester * nat) : outcome (SortResult * (StringSortTester * nat)) :=
  let '(tester, k) := s in
  let! (r, _, tester) :=
    run key dflt signed_char std_sort algo sample tester (clock k) (clock (S k)) in
  Done (r, (tester, S (S k))).

(** ** StringGenerator *)

(** The loop that disturbs the sorted sample in the constructor:
    [for (size_t i = 0; i + 1 < bigSample.size(); i += 10)
       std::swap(bigSample[i], bigSample[i + 1]);] *)
Fixpoint swap_loop {X : Type} (fuel : nat) (v : list X) (i : Z)
  : outcome (list X) :=
  if size_add i 1 <? Z.of_nat (length v) then
    match fuel with
    | O => Fault OutOfFuel
    | S fuel =>
        let! v := arr_swap v i (size_add i 1) in
        swap_loop fuel v (size_add i 10)
    end
  else Done v.

Definition almost_sorted {X : Type} (v : list X) : outcome (list X) :=
  swap_loop (length v) v 0.

Definition alphabet : string :=
  "ABCDEFGHIJKLMNOPQRSTUVWXYZabcdefghijklmnopqrstuvwxyz0123456789!@#%:;^&*()-.".

Section Generator.
(** [G] is the state of the engine [std::mt19937]; a distribution applied
    to the engine returns a number and advances the engine.  A string
    under construction is the vector of its characters. *)
Context {G : Type} (distLen distChar : G -> Z * G).

(** [for (int j = 0; j < len; ++j) s[j] = alphabet[distChar(gen)];] *)
Fixpoint fill_loop (n : nat) (s : list ascii) (j : Z) (g : G)
  : outcome (list ascii * G) :=
  match n with
  | O => Done (s, g)
  | S n =>
      let '(k, g) := distChar g in
      let! c := sget alphabet k in
      let! s := vset StrOutOfRange s j c in
      fill_loop n s (j + 1) g
  end.

(** The loop of [generateRawSample]; [std::string s(len, ' ')] converts
    [len] to [std::size_t]. *)
Fixpoint sample_loop (n : nat) (res : list string) (g : G)
  : outcome (list string * G) :=
  match n with
  | O => Done (res, g)
  | S n =>
      let '(len, g) := distLen g in
      let s := replicate (Z.to_nat (wrap64 len)) " "%char in
      let! (s, g) := fill_loop (Z.to_nat len) s 0 g in
      sample_loop n (res ++ [string_of_list_ascii s]) g
  end.

Definition generateRawSample (size : Z) (g : G) : outcome (list string * G) :=
  sample_loop (Z.to_nat size) [] g.
End Generator.

(** A reference [std::sort]: insertion sort driven by the comparator. *)
Section StdSort.
Context {A : Type} (comp : A -> A -> Z -> bool * Z).

Fixpoint sort_insert (x : A) (l : list A) (c : Z) : list A * Z :=
  match l with
  | [] => ([x], c)
  | y :: l' =>
      let '(b, c) := comp x y c in
      if b then (x :: y :: l', c)
      else let '(l'', c) := sort_insert x l' c in (y :: l'', c)
  end.

Fixpoint insertion_sort (l : list A) (c : Z) : list A * Z :=
  match l with
  | [] => ([], c)
  | x :: l' =>
      let '(s, c) := insertion_sort l' c in
      match s with
      | [] => ([x], c)
      | _ => sort_insert x s c
      end
  end.
End StdSort.


(** ** Vocabulary of the statements *)

(** The program itself: sequences of strings. *)
Definition run_strings (signed_char : bool)
    (std_sort : (string -> string -> Z -> bool * Z) -> list string -> Z -> list string * Z) :=
  run (A:=string) id EmptyString signed_char std_sort.

(** Non-decreasing lexicographic byte order ([operator<=] of
    [std::string]). *)
Definition nondecreasing (l : list string) : Prop :=
  Sorted (fun a b => (a <=? b)%string = true) l.

(** What the C++ library promises of [std::sort] on at most one element:
    nothing moves and the comparator is not called. *)
Definition std_sort_small {A : Type}
    (std_sort : (A -> A -> Z -> bool * Z) -> list A -> Z -> list A * Z) : Prop :=
  forall comp l c, (length l <= 1)%nat -> std_sort comp l c = (l, c).

(** [operator<=] on the keys. *)
Definition key_le {A : Type} (key : A -> string) : relation A :=
  fun a b => (key a <=? key b)%string = true.

#[global] Instance key_le_dec {A : Type} (key : A -> string) (a b : A) :
  Decision (key_le key a b) :=
  bool_eq_dec (key a <=? key b)%string true.

(** The merge sort of the specification, on lists and with its own count
    of comparisons.  [merge_steps s1 s2] is the number of merge steps that
    compare the current heads of the two halves: one step takes one
    element, and the steps end when a half is exhausted. *)
Fixpoint merge_steps {A : Type} (key : A -> string) (s1 : list A)
  : list A -> nat :=
  fix steps (s2 : list A) : nat :=
    match s1, s2 with
    | x :: s1', y :: s2' =>
        if (key x <=? key y)%string
        then S (merge_steps key s1' s2)
        else S (steps s2')
    | _, _ => O
    end.

(** Split at the midpoint, sort both halves, merge them with [<=]; a
    sequence of at most one element is left as it is.  Returns the sorted
    sequence and the number of comparisons. *)
Fixpoint merge_sort_ref {A : Type} (key : A -> string) (fuel : nat)
    (l : list A) : list A * nat :=
  match fuel with
  | O => (l, O)
  | S fuel =>
      if (length l <=? 1)%nat then (l, O) else
      let h := (length l / 2)%nat in
      let '(a, ka) := merge_sort_ref key fuel (take h l) in
      let '(b, kb) := merge_sort_ref key fuel (drop h l) in
      (list_merge (key_le key) a b, (ka + kb + merge_steps key a b)%nat)
  end.

(** [l'] keeps the elements of [l] with equal keys in the order they have
    in [l]. *)
Definition stable {A : Type} (key : A -> string) (l l' : list A) : Prop :=
  forall k : string,
    filter (fun x => key x = k) l' = filter (fun x => key x = k) l.

(** The bucket of an element at depth [d]: 0 for "no character", rank + 1
    for a character of the table. *)
Definition bucket {A : Type} (key : A -> string) (d : Z) (x : A) : nat :=
  Z.to_nat (charAt (key x) d + 1).

(** The elements of [l] bucket after bucket, each bucket in the order of
    [l]. *)
Definition bucketed {A : Type} (key : A -> string) (d : Z) (n : nat)
    (l : list A) : list A :=
  concat (map (fun b => filter (fun x => bucket key d x = b) l) (seq 0 n)).

(** The counting array holds the values of [f]. *)
Definition holds (count : list Z) (f : nat -> nat) : Prop :=
  length count = Z.to_nat (R + 2) /\
  forall k, (k < Z.to_nat (R + 2))%nat -> count !! k = Some (Z.of_nat (f k)).

(** A run that ends, with the elements of equal keys in their former
    order. *)
Definition stable_run {A : Type} (key : A -> string) (arr : list A)
    (o : outcome (SortResult * list A * StringSortTester)) : Prop :=
  exists r arr' t, o = Done (r, arr', t) /\ stable key arr arr'.

(** No string of [l] contains the full stop. *)
Definition no_full_stop {A : Type} (key : A -> string) (l : list A) : Prop :=
  forall x, x ∈ l -> ~ In "."%char (list_ascii_of_string (key x)).

(** The string from position [n] on. *)
Fixpoint string_drop (n : nat) (s : string) : string :=
  match n, s with
  | O, _ => s
  | S n, String _ s => string_drop n s
  | S _, EmptyString => EmptyString
  end.

(** The number of leading positions at which two strings agree. *)
Fixpoint common_prefix (a b : string) : nat :=
  match a, b with
  | String x a, String y b =>
      if Ascii.eqb x y then S (common_prefix a b) else O
  | _, _ => O
  end.

(** Lexicographic order over an order of characters; a proper prefix comes
    first. *)
Fixpoint lex_lt (lt : ascii -> ascii -> bool) (a b : string) : bool :=
  match a, b with
  | String x a, String y b =>
      if lt x y then true else if lt y x then false else lex_lt lt a b
  | EmptyString, String _ _ => true
  | _, EmptyString => false
  end.

(** The order of the suffixes from offset [d]; past the end of either
    string the code falls back on comparing the two lengths. *)
Definition suffix_lt (signed_char : bool) (a b : string) (d : Z) : bool :=
  if (d <=? size a) && (d <=? size b)
  then lex_lt (char_lt signed_char)
         (string_drop (Z.to_nat d) a) (string_drop (Z.to_nat d) b)
  else size a <? size b.

(** A partitioning loop entered with cursors [i] and [gt] scans
    [gt - i + 1] elements (every iteration moves one of the two cursors by
    one); it charges one increment per scanned element when it ends with
    that many more on the counter. *)
Definition one_increment_per_scanned {A : Type}
    (o : outcome (list A * Z * Z * Z)) (i gt comps : Z) : Prop :=
  exists arr lt' gt',
    o = Done (arr, lt', gt', wrap64 (comps + (gt - i + 1))).

(** The order the radix procedures sort by: the strings are compared by the
    table ranks of their characters, position by position; for the
    comparison a string ends at its end or at its first character that is
    not in the table, and a string that ends first comes first. *)
Fixpoint rank_lex (a b : string) : bool :=
  match a with
  | EmptyString => true
  | String x a =>
      if charToIndex x =? -1 then true else
      match b with
      | EmptyString => false
      | String y b =>
          if charToIndex x <? charToIndex y then true
          else if charToIndex y <? charToIndex x then false
          else rank_lex a b
      end
  end.

(** The same order on the suffixes from position [d] of the keys. *)
Definition rank_le {A : Type} (key : A -> string) (d : Z) (x y : A) : Prop :=
  rank_lex (string_drop (Z.to_nat d) (key x))
           (string_drop (Z.to_nat d) (key y)) = true.

(** All characters of [s] are below 128. *)
Definition seven_bit (s : string) : Prop :=
  forall c, In c (list_ascii_of_string s) -> (N_of_ascii c < 128)%N.

(** [v'] agrees with [v] outside the positions [lo..hi]. *)
Definition untouched {X : Type} (lo hi : Z) (v v' : list X) : Prop :=
  take (Z.to_nat lo) v' = take (Z.to_nat lo) v /\
  drop (Z.to_nat (hi + 1)) v' = drop (Z.to_nat (hi + 1)) v.


(** Where the element at position [p] of a sequence of [n] elements comes
    from after the pairs at positions [10 m], [10 m + 1] have been
    exchanged. *)
Definition swap_index (n p : nat) : nat :=
  if (p mod 10 =? 0)%nat && (p + 1 <? n)%nat then (p + 1)%nat
  else if (p mod 10 =? 1)%nat && (p <? n)%nat then (p - 1)%nat
  else p.

(** The characters of the table. *)
Definition in_table (c : ascii) : Prop := 0 <= charToIndex c <= R.

(** * Properties *)

(** ** Machine integers and vectors *)

(** Linear arithmetic modulo [2^64]. *)
Ltac wrap_lia :=
  unfold incr, size_add, size_sub, wrap64 in *;
  change (2 ^ 64) with 18446744073709551616 in *;
  Z.to_euclidean_division_equations; lia.

(** Side conditions of the loop lemmas. *)
Ltac side := first [assumption | lia | wrap_lia].

Lemma wrap64_small z : 0 <= z < 2 ^ 64 -> wrap64 z = z.
Proof. intros; unfold wrap64; apply Z.mod_small; lia. Qed.

Lemma wrap64_wrap z : wrap64 (wrap64 z) = wrap64 z.
Proof. unfold wrap64. apply Z.mod_mod. discriminate. Qed.

Lemma to_int_small z : - 2 ^ 31 <= z < 2 ^ 31 -> to_int z = z.
Proof. intros; unfold to_int; rewrite Z.mod_small; lia. Qed.

Lemma int_val_small z : - 2 ^ 31 <= z < 2 ^ 31 -> int_val z = Done z.
Proof.
  intros Hz. unfold int_val, is_int.
  destruct (Z.leb_spec (- 2 ^ 31) z); [|lia].
  destruct (Z.ltb_spec z (2 ^ 31)); [reflexivity | lia].
Qed.

Section VectorFacts.
Context {X : Type}.
Implicit Types (v : list X) (i j : Z) (f : fault).

Lemma vget_Done f v i x :
  0 <= i -> v !! Z.to_nat i = Some x -> vget f v i = Done x.
Proof.
  intros Hi Hx. unfold vget. destruct (Z.leb_spec 0 i); [|lia].
  rewrite Hx. reflexivity.
Qed.

Lemma vget_inside f v i :
  0 <= i < Z.of_nat (length v) ->
  exists x, vget f v i = Done x /\ v !! Z.to_nat i = Some x.
Proof.
  intros Hi. destruct (lookup_lt_is_Some_2 v (Z.to_nat i)) as [x Hx]; [lia|].
  exists x. split; [apply vget_Done; [lia | exact Hx] | exact Hx].
Qed.

Lemma vget_inv f v i x :
  vget f v i = Done x -> 0 <= i < Z.of_nat (length v) /\ v !! Z.to_nat i = Some x.
Proof.
  unfold vget. destruct (Z.leb_spec 0 i); [|discriminate].
  destruct (v !! Z.to_nat i) eqn:E; [|discriminate].
  intros [= ->]. apply lookup_lt_Some in E as Hlt. split; [lia | reflexivity].
Qed.

Lemma vset_inside f v i x :
  0 <= i < Z.of_nat (length v) -> vset f v i x = Done (<[Z.to_nat i := x]> v).
Proof.
  intros Hi. unfold vset.
  destruct (Z.leb_spec 0 i); [|lia].
  destruct (Z.ltb_spec i (Z.of_nat (length v))); [reflexivity | lia].
Qed.

Lemma vswap_inside f v i j :
  0 <= i < Z.of_nat (length v) -> 0 <= j < Z.of_nat (length v) ->
  exists v', vswap f v i j = Done v' /\ length v' = length v /\ v' ≡ₚ v.
Proof.
  intros Hi Hj. unfold vswap.
  destruct (vget_inside f v i Hi) as (x & -> & Hx).
  destruct (vget_inside f v j Hj) as (y & -> & Hy). simpl.
  rewrite vset_inside by lia. simpl.
  rewrite vset_inside by (rewrite length_insert; lia).
  eexists; split; [reflexivity|]. split.
  - rewrite !length_insert. reflexivity.
  - destruct (decide (Z.to_nat i = Z.to_nat j)) as [E|N].
    + rewrite E in *. rewrite list_insert_insert_eq.
      assert (x = y) by congruence. subst y.
      rewrite list_insert_id by exact Hy. reflexivity.
    + apply Permutation_insert_swap; assumption.
Qed.

Lemma take_eq_le v v' (n m : nat) :
  take n v' = take n v -> (m <= n)%nat -> take m v' = take m v.
Proof.
  intros E Hm. rewrite <- (Nat.min_l m n Hm), <- !take_take, E. reflexivity.
Qed.

Lemma drop_eq_ge v v' (n m : nat) :
  drop n v' = drop n v -> (n <= m)%nat -> drop m v' = drop m v.
Proof.
  intros E Hm. replace m with (n + (m - n))%nat by lia.
  rewrite <- !drop_drop, E. reflexivity.
Qed.

Lemma untouched_refl lo hi v : untouched lo hi v v.
Proof. split; reflexivity. Qed.

Lemma untouched_trans lo hi v1 v2 v3 :
  untouched lo hi v1 v2 -> untouched lo hi v2 v3 -> untouched lo hi v1 v3.
Proof. intros [H1 H2] [H3 H4]. split; congruence. Qed.

Lemma untouched_wider lo hi lo' hi' v v' :
  lo' <= lo -> hi <= hi' -> untouched lo hi v v' -> untouched lo' hi' v v'.
Proof.
  intros Hlo Hhi [Ht Hd]. split.
  - eapply take_eq_le; [exact Ht | lia].
  - eapply drop_eq_ge; [exact Hd | lia].
Qed.

Lemma vswap_untouched f v i j v' lo hi :
  vswap f v i j = Done v' -> lo <= i <= hi -> lo <= j <= hi ->
  untouched lo hi v v'.
Proof.
  unfold vswap. intros E Hi Hj.
  destruct (vget f v i) as [x|] eqn:Ex; [|discriminate].
  destruct (vget f v j) as [y|] eqn:Ey; [|discriminate]. cbn [bind] in E.
  apply vget_inv in Ex as [Hib _]. apply vget_inv in Ey as [Hjb _].
  rewrite vset_inside in E by lia. cbn [bind] in E.
  rewrite vset_inside in E by (rewrite length_insert; lia).
  injection E as <-. split.
  - rewrite !take_insert_ge by lia. reflexivity.
  - rewrite !drop_insert_lt by lia. reflexivity.
Qed.

(** A vector that agrees with [pre ++ l ++ post] outside the middle and
    is a permutation of it differs by a permutation of the middle. *)
Lemma untouched_middle (pre l post v' : list X) :
  untouched (Z.of_nat (length pre)) (Z.of_nat (length pre + length l) - 1)
    (pre ++ l ++ post) v' ->
  v' ≡ₚ pre ++ l ++ post ->
  exists out, v' = pre ++ out ++ post /\ out ≡ₚ l.
Proof.
  intros [Ht Hd] Hp.
  rewrite Nat2Z.id, take_app_length in Ht.
  replace (Z.to_nat (Z.of_nat (length pre + length l) - 1 + 1))
    with (length (pre ++ l)) in Hd by (rewrite length_app; lia).
  rewrite (app_assoc pre l post), drop_app_length in Hd.
  pose proof (Permutation_length Hp) as Hlen. rewrite !length_app in Hlen.
  exists (take (length l) (drop (length pre) v')).
  assert (E : v' = pre ++ take (length l) (drop (length pre) v') ++ post).
  { rewrite <- (take_drop (length pre) v') at 1. rewrite Ht. f_equal.
    rewrite <- (take_drop (length l) (drop (length pre) v')) at 1. f_equal.
    rewrite drop_drop, <- Hd, length_app. reflexivity. }
  split; [exact E|].
  rewrite E in Hp at 1.
  apply Permutation_app_inv_l in Hp. apply Permutation_app_inv_r in Hp. exact Hp.
Qed.
End VectorFacts.

(** ** The rank of a character *)

Lemma find_None c s pos :
  find c s pos = None <-> ~ In c (list_ascii_of_string s).
Proof.
  revert pos; induction s as [|x s IH]; intros pos; simpl.
  - tauto.
  - destruct (Ascii.eqb_spec x c) as [->|Hne].
    + split; [discriminate | tauto].
    + rewrite IH. tauto.
Qed.

Lemma find_Some c s pos p :
  find c s pos = Some p ->
  pos <= p < pos + size s /\ String.get (Z.to_nat (p - pos)) s = Some c.
Proof.
  unfold size. revert pos; induction s as [|x s IH]; intros pos; simpl; [discriminate|].
  destruct (Ascii.eqb_spec x c) as [->|Hne].
  - intros [= ->]. rewrite Z.sub_diag. split; [lia | reflexivity].
  - intros H. apply IH in H as [Hp Hg]. split; [lia|].
    replace (Z.to_nat (p - pos)) with (S (Z.to_nat (p - (pos + 1)))) by lia.
    exact Hg.
Qed.

Lemma get_past_end s (n : nat) :
  (String.length s <= n)%nat -> String.get n s = None.
Proof.
  revert n; induction s as [|x s IH]; intros [|n]; simpl; intros;
    try reflexivity; try lia.
  apply IH; lia.
Qed.

Lemma get_inside s (n : nat) :
  (n < String.length s)%nat -> exists c, String.get n s = Some c.
Proof.
  revert n; induction s as [|x s IH]; intros [|n]; simpl; intros; try lia.
  - eauto.
  - apply IH; lia.
Qed.

Lemma charToIndex_range c : -1 <= charToIndex c <= 74.
Proof.
  unfold charToIndex. destruct (find c alpha 0) as [p|] eqn:E; [|lia].
  apply find_Some in E as [Hp _]. change (size alpha) with 75 in Hp.
  rewrite to_int_small; lia.
Qed.

Lemma charAt_range s d : -1 <= charAt s d <= 74.
Proof.
  unfold charAt. destruct (d <? size s); [|lia].
  destruct (String.get _ s); [apply charToIndex_range | lia].
Qed.

(** Only the last character of the table, the full stop, has rank [R]. *)
Lemma charToIndex_below_R c : c <> "."%char -> charToIndex c < R.
Proof.
  intros Hne. unfold charToIndex, R.
  destruct (find c alpha 0) as [p|] eqn:E; [|lia].
  apply find_Some in E as [Hp Hg]. change (size alpha) with 75 in Hp.
  rewrite to_int_small by lia. rewrite Z.sub_0_r in Hg.
  destruct (Z.eq_dec p 74) as [->|]; [|lia].
  vm_compute in Hg. congruence.
Qed.

(** C1.  The table [alpha] has 75 characters, not [R] = 74: its last
    character, the full stop, is in the table and [charToIndex] gives it
    rank 74, outside 0..73. *)
Theorem charToIndex_full_stop :
  String.length alpha = 75%nat /\
  In "."%char (list_ascii_of_string alpha) /\
  String.get 74 alpha = Some "."%char /\
  charToIndex "." = 74 /\
  charAt "." 0 = R.
Proof.
  split; [reflexivity|]. split; [vm_compute; tauto|].
  repeat split; reflexivity.
Qed.

(** ** [run] on short sequences, and the counter *)

Lemma insertion_sort_small {A : Type} : std_sort_small (@insertion_sort A).
Proof.
  intros comp [|x [|y l]] c Hlen; simpl in *; try reflexivity; lia.
Qed.

Section RunFacts.
Context {A : Type} (key : A -> string) (dflt : A) (signed_char : bool).
Context (std_sort : (A -> A -> Z -> bool * Z) -> list A -> Z -> list A * Z).

Local Abbreviation run' := (run key dflt signed_char std_sort).

(** C8.  On an empty or one-element sequence every algorithm returns the
    sequence as it was and a count of zero; for [TernaryQuick] on the
    empty sequence the upper index [size() - 1] wraps to [2^64 - 1],
    becomes the [int] -1, and the call returns at once. *)
Theorem run_small (Hstd : std_sort_small std_sort)
    (algo : Algo) (arr : list A) (t : StringSortTester) (start stop : Z) :
  (length arr <= 1)%nat ->
  run' algo arr t start stop =
    Done ({| time := (stop - start) ÷ 1000000; comps := 0 |}, arr,
          {| tester_comps := 0 |}) /\
  (arr = [] -> to_int (size_sub (Z.of_nat (length arr)) 1) = -1).
Proof.
  intros Hlen. split.
  - unfold run, run_switch. destruct algo; simpl tester_comps.
    + rewrite Hstd by exact Hlen. reflexivity.
    + destruct arr as [|x [|y l]]; simpl in Hlen; try lia; reflexivity.
    + destruct arr as [|x [|y l]]; simpl in Hlen; try lia; reflexivity.
    + destruct arr as [|x [|y l]]; simpl in Hlen; try lia; reflexivity.
    + destruct arr as [|x [|y l]]; simpl in Hlen; try lia; reflexivity.
  - intros ->. reflexivity.
Qed.

(** C9.  [run] starts from a counter set to zero whatever the engine held
    before, so the outcome of a call does not depend on the state an
    earlier call left behind; the count of its result is the counter as
    the chosen algorithm, started at zero, left it at the end. *)
Theorem run_counter_scoped (algo : Algo) (arr : list A)
    (t t0 : StringSortTester) (start stop : Z) :
  run' algo arr t start stop = run' algo arr t0 start stop /\
  forall r arr' t',
    run' algo arr t start stop = Done (r, arr', t') <->
    run_switch key dflt signed_char std_sort algo arr 0 = Done (arr', comps r) /\
    time r = (stop - start) ÷ 1000000 /\
    tester_comps t' = comps r.
Proof.
  split; [reflexivity|].
  intros r arr' t'. unfold run. simpl tester_comps.
  destruct (run_switch _ _ _ _ algo arr 0) as [[a c]|f]; simpl.
  - split.
    + intros [= <- <- <-]. auto.
    + intros ([= -> ->] & Ht & Hc). destruct r, t'; simpl in *. subst. reflexivity.
  - split; [discriminate | intros ([=] & _)].
Qed.

End RunFacts.

Lemma run_small_witness :
  run_strings true insertion_sort TernaryQuick [] {| tester_comps := 7 |} 0 0 =
    Done ({| time := 0; comps := 0 |}, [], {| tester_comps := 0 |}) /\
  run_strings true insertion_sort MsdRadix ["a"%string] {| tester_comps := 7 |} 0 0 =
    Done ({| time := 0; comps := 0 |}, ["a"%string], {| tester_comps := 0 |}).
Proof.
  split.
  - exact (proj1 (run_small id EmptyString true insertion_sort
             insertion_sort_small TernaryQuick [] {| tester_comps := 7 |} 0 0
             ltac:(simpl; lia))).
  - exact (proj1 (run_small id EmptyString true insertion_sort
             insertion_sort_small MsdRadix ["a"%string] {| tester_comps := 7 |} 0 0
             ltac:(simpl; lia))).
Defined.

(** ** Inputs on which the code leaves the specification *)

(** C3.  [TernaryQuick] binds its pivot to the slot [arr[lo]] and not to
    the string in it, so the first swap into that slot changes the pivot;
    the radix procedures order characters by their place in [alpha], where
    the letters come before the digits.  On the sequences below the three
    procedures return a sequence that is not in non-decreasing order. *)
Theorem run_leaves_unsorted sc std t start stop :
  (exists r t',
     run_strings sc std TernaryQuick ["banana"; "apple"; "cherry"; "apple"]%string
       t start stop
     = Done (r, ["apple"; "banana"; "apple"; "cherry"]%string, t')) /\
  ~ nondecreasing ["apple"; "banana"; "apple"; "cherry"]%string /\
  (exists r t',
     run_strings sc std MsdRadix ["banana"; "apple"; "cherry"; "apple"]%string
       t start stop
     = Done (r, ["apple"; "banana"; "apple"; "cherry"]%string, t')) /\
  (exists r t',
     run_strings sc std MsdRadixPure ["A"; "0"]%string t start stop
     = Done (r, ["A"; "0"]%string, t')) /\
  ~ nondecreasing ["A"; "0"]%string.
Proof.
  split; [eexists _, _; reflexivity|].
  split. { intros H. inversion H as [|? ? H1 _]; subst.
           inversion H1 as [|? ? _ H2]; subst.
           inversion H2 as [|? ? Hle]; subst. vm_compute in Hle. discriminate. }
  split; [destruct sc; eexists _, _; reflexivity|].
  split; [eexists _, _; reflexivity|].
  intros H. inversion H as [|? ? _ H2]; subst.
  inversion H2 as [|? ? Hle]; subst. vm_compute in Hle. discriminate.
Qed.

(** C4.  On the two strings "A" and "0" the cutoff procedure orders by
    bytes (its fallback compares characters) and the pure procedure by
    place in [alpha]: the two final sequences differ. *)
Theorem radix_cutoff_differs_from_pure sc std t start stop :
  (exists r t',
     run_strings sc std MsdRadix ["A"; "0"]%string t start stop
     = Done (r, ["0"; "A"]%string, t')) /\
  (exists r t',
     run_strings sc std MsdRadixPure ["A"; "0"]%string t start stop
     = Done (r, ["A"; "0"]%string, t')).
Proof.
  split; [destruct sc|]; eexists _, _; reflexivity.
Qed.

(** C2.  The full stop has rank [R], so the counting pass asks for
    [count[R + 2]], one past the [R + 2] counters: [MsdRadixPure] on two
    strings, and [MsdRadix] on a range above the cutoff, leave the counting
    array. *)
Theorem radix_count_out_of_range sc std t start stop :
  run_strings sc std MsdRadixPure ["a"; "."]%string t start stop
    = Fault CountOutOfRange /\
  run_strings sc std MsdRadix
    ["a"; "b"; "c"; "d"; "e"; "f"; "g"; "h"; "i"; "j"; "k"; "l"; "m"; "n"; "o"; "."]%string
    t start stop
    = Fault CountOutOfRange.
Proof. split; reflexivity. Qed.

(** ** suffixLess *)

Lemma string_drop_get s (n : nat) c :
  String.get n s = Some c ->
  string_drop n s = String c (string_drop (S n) s).
Proof.
  revert n; induction s as [|x s IH]; intros [|n]; simpl; try discriminate.
  - intros [= ->]. destruct s; reflexivity.
  - intros H. rewrite (IH _ H). reflexivity.
Qed.

Lemma string_drop_past s (n : nat) :
  (String.length s <= n)%nat -> string_drop n s = EmptyString.
Proof.
  revert n; induction s as [|x s IH]; intros [|n]; simpl; intros;
    try reflexivity; try lia.
  apply IH; lia.
Qed.

Arguments string_drop : simpl never.


Lemma char_val_inj sc x y : char_val sc x = char_val sc y -> x = y.
Proof.
  unfold char_val. intros H.
  assert (Hx : (N_of_ascii x < 256)%N) by apply N_ascii_bounded.
  assert (Hy : (N_of_ascii y < 256)%N) by apply N_ascii_bounded.
  assert (N_of_ascii x = N_of_ascii y) as E.
  { destruct sc; simpl in H;
      repeat match type of H with context [?a <=? ?b] =>
        destruct (Z.leb_spec a b) end; lia. }
  rewrite <- (ascii_N_embedding x), <- (ascii_N_embedding y), E. reflexivity.
Qed.

Lemma char_lt_irrefl_eq sc x y :
  char_lt sc x y = false -> char_lt sc y x = false -> x = y.
Proof.
  unfold char_lt. intros H1 H2. apply (char_val_inj sc).
  apply Z.ltb_ge in H1, H2. lia.
Qed.

Lemma char_lt_neq sc x y : char_lt sc x y = true -> Ascii.eqb x y = false.
Proof.
  unfold char_lt. intros H. apply Ascii.eqb_neq. intros ->.
  rewrite Z.ltb_irrefl in H. discriminate.
Qed.

Section SuffixLess.
Context (signed_char : bool).

Lemma suffixLess_loop_spec (fuel : nat) (a b : string) (i comps : Z) :
  0 <= i -> size a - i <= Z.of_nat fuel ->
  suffixLess_loop signed_char fuel a b i comps =
    Done (suffix_lt signed_char a b i,
          wrap64 (comps + Z.of_nat (common_prefix (string_drop (Z.to_nat i) a)
                                      (string_drop (Z.to_nat i) b)) + 1)).
Proof.
  revert i comps. induction fuel as [|fuel IH]; intros i comps Hi Hfuel.
  - simpl. unfold suffix_lt.
    destruct (Z.ltb_spec i (size a)) as [|Ha]; [lia|]. simpl.
    rewrite (string_drop_past a) by (unfold size in *; lia). simpl.
    rewrite Z.add_0_r. unfold incr, size_add. f_equal. f_equal.
    destruct (Z.leb_spec i (size a)); simpl; [|reflexivity].
    destruct (Z.leb_spec i (size b)); simpl; [|reflexivity].
    assert (i = size a) by lia. subst i.
    destruct (Z.ltb_spec (size a) (size b)) as [Hlt|Hge].
    + unfold size in Hlt.
      destruct (get_inside b (Z.to_nat (size a))) as [y Hy]; [unfold size; lia|].
      rewrite (string_drop_get _ _ _ Hy). reflexivity.
    + rewrite (string_drop_past b) by (unfold size in *; lia). reflexivity.
  - cbn [suffixLess_loop].
    destruct (Z.ltb_spec i (size a)) as [Ha|Ha]; simpl.
    + destruct (Z.ltb_spec i (size b)) as [Hb|Hb]; simpl.
      * destruct (get_inside a (Z.to_nat i)) as [x Hx]; [unfold size in *; lia|].
        destruct (get_inside b (Z.to_nat i)) as [y Hy]; [unfold size in *; lia|].
        unfold sget. destruct (Z.leb_spec 0 i); [|lia].
        rewrite Hx, Hy. simpl.
        unfold suffix_lt.
        destruct (Z.leb_spec i (size a)); [|lia].
        destruct (Z.leb_spec i (size b)); [|lia]. simpl.
        rewrite (string_drop_get _ _ _ Hx), (string_drop_get _ _ _ Hy). simpl.
        destruct (char_lt signed_char x y) eqn:Exy.
        { rewrite (char_lt_neq _ _ _ Exy). simpl. rewrite Z.add_0_r. reflexivity. }
        destruct (char_lt signed_char y x) eqn:Eyx.
        { rewrite Ascii.eqb_sym, (char_lt_neq _ _ _ Eyx). simpl.
          rewrite Z.add_0_r. reflexivity. }
        assert (x = y) by (eapply char_lt_irrefl_eq; eassumption). subst y.
        rewrite Ascii.eqb_refl.
        rewrite IH by lia.
        replace (Z.to_nat (i + 1)) with (S (Z.to_nat i)) by lia.
        unfold suffix_lt.
        destruct (Z.leb_spec (i + 1) (size a)); [|lia].
        destruct (Z.leb_spec (i + 1) (size b)); [|lia]. simpl.
        replace (Z.to_nat (i + 1)) with (S (Z.to_nat i)) by lia.
        f_equal. f_equal. wrap_lia.
      * unfold suffix_lt.
        rewrite (string_drop_past b) by (unfold size in *; lia).
        destruct (Z.leb_spec i (size a)); [|lia]. simpl.
        destruct (Z.leb_spec i (size b)); simpl;
          destruct (Z.ltb_spec (size a) (size b)); try lia;
          destruct (string_drop (Z.to_nat i) a); simpl;
          rewrite Z.add_0_r; reflexivity.
    + unfold suffix_lt.
      rewrite (string_drop_past a) by (unfold size in *; lia). simpl.
      rewrite Z.add_0_r.
      destruct (Z.leb_spec i (size a)); simpl; [|reflexivity].
      assert (i = size a) by lia. subst i.
      destruct (Z.leb_spec (size a) (size b)); simpl; [|reflexivity].
      destruct (Z.ltb_spec (size a) (size b)) as [Hlt|Hge].
      * destruct (get_inside b (Z.to_nat (size a))) as [y Hy]; [unfold size in *; lia|].
        rewrite (string_drop_get _ _ _ Hy). reflexivity.
      * rewrite (string_drop_past b) by (unfold size in *; lia). reflexivity.
Qed.

Lemma suffixLess_spec (a b : string) (d comps : Z) :
  0 <= d ->
  suffixLess signed_char a b d comps =
    Done (suffix_lt signed_char a b d,
          wrap64 (comps + Z.of_nat (common_prefix (string_drop (Z.to_nat d) a)
                                      (string_drop (Z.to_nat d) b)) + 1)).
Proof.
  intros Hd. unfold suffixLess. apply suffixLess_loop_spec; [exact Hd|].
  unfold size. lia.
Qed.
End SuffixLess.

(** ** The partitioning loops *)

Section Partition.
Context {A : Type} (key : A -> string) (dflt : A) (signed_char : bool).

(** The loop of [ternaryQuickSort] stays inside the range it was given,
    moves each cursor towards the other, and ends with one increment per
    scanned element. *)
Lemma tqs_loop_total (fuel : nat) (arr : list A) (lo lt i gt comps : Z) :
  wrap64 comps = comps ->
  0 <= lo <= lt -> lt < i -> i <= gt + 1 -> gt < Z.of_nat (length arr) ->
  gt < 2 ^ 31 - 1 ->
  gt - i + 1 <= Z.of_nat fuel ->
  exists arr' lt' gt',
    tqs_loop key fuel arr lo lt i gt comps
      = Done (arr', lt', gt', wrap64 (comps + (gt - i + 1))) /\
    length arr' = length arr /\ arr' ≡ₚ arr /\
    lt <= lt' <= gt' /\ i - 1 <= gt' <= gt /\
    untouched lo gt arr arr'.
Proof.
  intros Hc. revert arr lt i gt comps Hc.
  induction fuel as [|fuel IH];
    intros arr lt i gt comps Hc Hlo Hlt Hi Hgt Hint Hfuel.
  - simpl. destruct (Z.leb_spec i gt); [lia|].
    exists arr, lt, gt. replace (gt - i + 1) with 0 by lia.
    rewrite Z.add_0_r, Hc.
    repeat split; try reflexivity; lia.
  - cbn [tqs_loop]. destruct (Z.leb_spec i gt) as [Hle|Hgt'].
    + destruct (vget_inside ArrOutOfRange arr i) as (ai & -> & _); [lia|].
      destruct (vget_inside ArrOutOfRange arr lo) as (pivot & -> & _); [lia|].
      cbn [bind].
      destruct (key ai <? key pivot)%string.
      * rewrite !int_val_small by lia. cbn [bind].
        destruct (vswap_inside ArrOutOfRange arr lt i) as (arr1 & E1 & Hlen & Hperm);
          [lia | lia |].
        pose proof (vswap_untouched _ _ _ _ _ lo gt E1 ltac:(lia) ltac:(lia)) as Hu1.
        rewrite E1. cbn [bind].
        destruct (IH arr1 (lt + 1) (i + 1) gt (incr comps))
          as (arr' & lt' & gt' & -> & Hlen' & Hperm' & ? & ? & Hu');
          try lia; [wrap_lia|].
        exists arr', lt', gt'. repeat split; try lia; try congruence.
        -- do 2 f_equal. wrap_lia.
        -- etransitivity; eassumption.
        -- destruct Hu1, Hu'. congruence.
        -- destruct Hu1, Hu'. congruence.
      * destruct (key pivot <? key ai)%string;
          rewrite !int_val_small by lia; cbn [bind].
        -- destruct (vswap_inside ArrOutOfRange arr i gt) as (arr1 & E1 & Hlen & Hperm);
             [lia | lia |].
           pose proof (vswap_untouched _ _ _ _ _ lo gt E1 ltac:(lia) ltac:(lia)) as Hu1.
           rewrite E1. cbn [bind].
           destruct (IH arr1 lt i (gt - 1) (incr comps))
             as (arr' & lt' & gt' & -> & Hlen' & Hperm' & ? & ? & Hu');
             try lia; [wrap_lia|].
           apply (untouched_wider lo (gt - 1) lo gt) in Hu'; [|lia..].
           exists arr', lt', gt'. repeat split; try lia; try congruence.
           ++ do 2 f_equal. wrap_lia.
           ++ etransitivity; eassumption.
           ++ destruct Hu1, Hu'. congruence.
           ++ destruct Hu1, Hu'. congruence.
        -- destruct (IH arr lt (i + 1) gt (incr comps))
             as (arr' & lt' & gt' & -> & Hlen' & Hperm' & ? & ? & Hu');
             try lia; [wrap_lia|].
           exists arr', lt', gt'. repeat split; try lia; try congruence;
             try apply Hu'.
           do 2 f_equal. wrap_lia.
    + exists arr, lt, gt. replace (gt - i + 1) with 0 by lia.
      rewrite Z.add_0_r, Hc. repeat split; try reflexivity; lia.
Qed.

Lemma tqss_loop_total (fuel : nat) (arr : list A) (lo lt i gt d comps : Z) :
  0 <= d -> wrap64 comps = comps ->
  0 <= lo <= lt -> lt < i -> i <= gt + 1 -> gt < Z.of_nat (length arr) ->
  gt < 2 ^ 31 - 1 ->
  gt - i + 1 <= Z.of_nat fuel ->
  exists arr' lt' gt' comps',
    tqss_loop key signed_char fuel arr lo lt i gt d comps
      = Done (arr', lt', gt', comps') /\
    wrap64 comps' = comps' /\
    length arr' = length arr /\ arr' ≡ₚ arr /\
    lt <= lt' <= gt' /\ i - 1 <= gt' <= gt /\
    untouched lo gt arr arr'.
Proof.
  intros Hd Hc. revert arr lt i gt comps Hc.
  induction fuel as [|fuel IH];
    intros arr lt i gt comps Hc Hlo Hlt Hi Hgt Hint Hfuel.
  - simpl. destruct (Z.leb_spec i gt); [lia|].
    exists arr, lt, gt, comps.
    repeat split; try reflexivity; try assumption; lia.
  - cbn [tqss_loop]. destruct (Z.leb_spec i gt) as [Hle|Hgt'].
    + destruct (vget_inside ArrOutOfRange arr i) as (ai & -> & _); [lia|].
      destruct (vget_inside ArrOutOfRange arr lo) as (pivot & -> & _); [lia|].
      cbn [bind]. rewrite suffixLess_spec by exact Hd. cbn [bind].
      destruct (suffix_lt signed_char (key ai) (key pivot) d).
      * rewrite !int_val_small by lia. cbn [bind].
        destruct (vswap_inside ArrOutOfRange arr lt i) as (arr1 & E1 & Hlen & Hperm);
          [lia | lia |].
        pose proof (vswap_untouched _ _ _ _ _ lo gt E1 ltac:(lia) ltac:(lia)) as Hu1.
        rewrite E1. cbn [bind].
        edestruct (IH arr1 (lt + 1) (i + 1) gt)
          as (arr' & lt' & gt' & c' & -> & Hc' & Hlen' & Hperm' & ? & ? & Hu');
          [apply wrap64_wrap | lia ..|].
        exists arr', lt', gt', c'. repeat split; try lia; try congruence.
        -- etransitivity; eassumption.
        -- destruct Hu1, Hu'. congruence.
        -- destruct Hu1, Hu'. congruence.
      * rewrite suffixLess_spec by exact Hd. cbn [bind].
        destruct (suffix_lt signed_char (key pivot) (key ai) d);
          rewrite !int_val_small by lia; cbn [bind].
        -- destruct (vswap_inside ArrOutOfRange arr i gt) as (arr1 & E1 & Hlen & Hperm);
             [lia | lia |].
           pose proof (vswap_untouched _ _ _ _ _ lo gt E1 ltac:(lia) ltac:(lia)) as Hu1.
           rewrite E1. cbn [bind].
           edestruct (IH arr1 lt i (gt - 1))
             as (arr' & lt' & gt' & c' & -> & Hc' & Hlen' & Hperm' & ? & ? & Hu');
             [apply wrap64_wrap | lia ..|].
           apply (untouched_wider lo (gt - 1) lo gt) in Hu'; [|lia..].
           exists arr', lt', gt', c'. repeat split; try lia; try congruence.
           ++ etransitivity; eassumption.
           ++ destruct Hu1, Hu'. congruence.
           ++ destruct Hu1, Hu'. congruence.
        -- edestruct (IH arr lt (i + 1) gt)
             as (arr' & lt' & gt' & c' & -> & Hc' & Hlen' & Hperm' & ? & ? & Hu');
             [apply wrap64_wrap | lia ..|].
           exists arr', lt', gt', c'. repeat split; try lia; try congruence;
             apply Hu'.
    + exists arr, lt, gt, comps.
      repeat split; try reflexivity; try assumption; lia.
Qed.

Lemma ternaryQuickSort_total (fuel : nat) (arr : list A) (lo hi comps : Z) :
  wrap64 comps = comps ->
  0 <= lo -> hi < Z.of_nat (length arr) -> hi < 2 ^ 31 - 1 ->
  hi - lo <= Z.of_nat fuel ->
  exists arr' k,
    ternaryQuickSort key fuel arr lo hi comps = Done (arr', wrap64 (comps + k)) /\
    length arr' = length arr /\ arr' ≡ₚ arr /\
    untouched lo hi arr arr' /\
    0 <= k /\ (hi <= lo -> k = 0) /\
    (lo < hi -> hi - lo <= k /\ 2 * k <= (hi - lo + 1) * (hi - lo)).
Proof.
  revert arr lo hi comps.
  induction fuel as [|fuel IH]; intros arr lo hi comps Hc Hlo Hhi Hint Hfuel.
  - simpl. destruct (Z.geb_spec lo hi); [|lia]. exists arr, 0.
    rewrite Z.add_0_r, Hc. repeat split; auto; lia.
  - cbn [ternaryQuickSort]. destruct (Z.geb_spec lo hi) as [|Hlt].
    { exists arr, 0. rewrite Z.add_0_r, Hc. repeat split; auto; lia. }
    rewrite int_val_small by lia. cbn [bind].
    destruct (tqs_loop_total (Z.to_nat (hi - lo)) arr lo lo (lo + 1) hi comps)
      as (arr1 & lt' & gt' & -> & Hlen1 & Hperm1 & ? & ? & Hu1); [side ..|].
    cbn [bind]. rewrite int_val_small by lia. cbn [bind].
    destruct (IH arr1 lo (lt' - 1) (wrap64 (comps + (hi - (lo + 1) + 1))))
      as (arr2 & k2 & -> & Hlen2 & Hperm2 & Hu2 & Hk2 & Hz2 & Hb2);
      [first [apply wrap64_wrap | side] ..|].
    cbn [bind]. rewrite int_val_small by lia. cbn [bind].
    destruct (IH arr2 (gt' + 1) hi
                (wrap64 (wrap64 (comps + (hi - (lo + 1) + 1)) + k2)))
      as (arr3 & k3 & -> & Hlen3 & Hperm3 & Hu3 & Hk3 & Hz3 & Hb3);
      [first [apply wrap64_wrap | side] ..|].
    apply (untouched_wider lo (lt' - 1) lo hi) in Hu2; [|lia..].
    apply (untouched_wider (gt' + 1) hi lo hi) in Hu3; [|lia..].
    exists arr3, ((hi - lo) + k2 + k3).
    split; [do 2 f_equal; wrap_lia|].
    split; [congruence|].
    split; [etransitivity; [eassumption|]; etransitivity; eassumption|].
    split; [destruct Hu1, Hu2, Hu3; split; congruence|].
    split; [lia|]. split; [lia|]. intros _. split; [lia|].
    assert (B2 : 2 * k2 <= (lt' - lo) * (lt' - lo)).
    { destruct (Z_lt_le_dec lo (lt' - 1)) as [Hl|Hl].
      - destruct (Hb2 Hl). nia.
      - rewrite (Hz2 Hl). nia. }
    assert (B3 : 2 * k3 <= (hi - gt') * (hi - gt')).
    { destruct (Z_lt_le_dec (gt' + 1) hi) as [Hl|Hl].
      - destruct (Hb3 Hl). nia.
      - rewrite (Hz3 Hl). nia. }
    assert (Bk2 : 2 * k2 <= (lt' - lo) * (lt' - lo - 1) \/ lt' - lo <= 1).
    { destruct (Z_lt_le_dec lo (lt' - 1)) as [Hl|Hl]; [|right; lia].
      left. destruct (Hb2 Hl). nia. }
    assert (Bk3 : 2 * k3 <= (hi - gt') * (hi - gt' - 1) \/ hi - gt' <= 1).
    { destruct (Z_lt_le_dec (gt' + 1) hi) as [Hl|Hl]; [|right; lia].
      left. destruct (Hb3 Hl). nia. }
    assert (Z2 : lt' - lo <= 1 -> k2 = 0) by (intros; apply Hz2; lia).
    assert (Z3 : hi - gt' <= 1 -> k3 = 0) by (intros; apply Hz3; lia).
    destruct Bk2 as [Bk2|Bk2]; [|rewrite (Z2 Bk2)];
      (destruct Bk3 as [Bk3|Bk3]; [|rewrite (Z3 Bk3)]); nia.
Qed.

Lemma ternaryQuickSortSuffix_total (fuel : nat) (arr : list A) (lo hi d comps : Z) :
  0 <= d -> wrap64 comps = comps ->
  0 <= lo -> hi < Z.of_nat (length arr) -> hi < 2 ^ 31 - 1 ->
  hi - lo <= Z.of_nat fuel ->
  exists arr' comps',
    ternaryQuickSortSuffix key signed_char fuel arr lo hi d comps
      = Done (arr', comps') /\
    wrap64 comps' = comps' /\ length arr' = length arr /\ arr' ≡ₚ arr /\
    untouched lo hi arr arr'.
Proof.
  intros Hd. revert arr lo hi comps.
  induction fuel as [|fuel IH]; intros arr lo hi comps Hc Hlo Hhi Hint Hfuel.
  - simpl. destruct (Z.geb_spec lo hi); [|lia]. exists arr, comps.
    repeat split; auto.
  - cbn [ternaryQuickSortSuffix]. destruct (Z.geb_spec lo hi) as [|Hlt].
    { exists arr, comps. repeat split; auto. }
    rewrite int_val_small by lia. cbn [bind].
    destruct (tqss_loop_total (Z.to_nat (hi - lo)) arr lo lo (lo + 1) hi d comps)
      as (arr1 & lt' & gt' & c1 & -> & Hc1 & Hlen1 & Hperm1 & ? & ? & Hu1);
      [side ..|].
    cbn [bind]. rewrite int_val_small by lia. cbn [bind].
    destruct (IH arr1 lo (lt' - 1) c1)
      as (arr2 & c2 & -> & Hc2 & Hlen2 & Hperm2 & Hu2); [side ..|].
    cbn [bind]. rewrite int_val_small by lia. cbn [bind].
    destruct (IH arr2 (gt' + 1) hi c2)
      as (arr3 & c3 & -> & Hc3 & Hlen3 & Hperm3 & Hu3); [side ..|].
    apply (untouched_wider lo (lt' - 1) lo hi) in Hu2; [|lia..].
    apply (untouched_wider (gt' + 1) hi lo hi) in Hu3; [|lia..].
    exists arr3, c3. repeat split; try congruence.
    + etransitivity; [eassumption|]. etransitivity; eassumption.
    + destruct Hu1, Hu2, Hu3. congruence.
    + destruct Hu1, Hu2, Hu3. congruence.
Qed.


(** In [ternaryQuickSort] itself the loop charges exactly one increment per
    scanned element. *)
Lemma tqs_loop_one_increment (arr : list A) (lo hi comps : Z) :
  wrap64 comps = comps -> 0 <= lo -> lo < hi < Z.of_nat (length arr) ->
  hi < 2 ^ 31 - 1 ->
  one_increment_per_scanned
    (tqs_loop key (Z.to_nat (hi - lo)) arr lo lo (lo + 1) hi comps)
    (lo + 1) hi comps.
Proof.
  intros Hc Hlo Hhi Hint.
  destruct (tqs_loop_total (Z.to_nat (hi - lo)) arr lo lo (lo + 1) hi comps)
    as (arr' & lt' & gt' & E & _); [side ..|].
  exists arr', lt', gt'. exact E.
Qed.
End Partition.



(** ** The order of strings *)

Lemma string_leb_refl s : (s <=? s)%string = true.
Proof. destruct (String.leb_total s s); assumption. Qed.

Lemma string_compare_trans_le s1 s2 s3 :
  (s1 ?= s2)%string <> Gt -> (s2 ?= s3)%string <> Gt -> (s1 ?= s3)%string <> Gt.
Proof.
  revert s2 s3. induction s1 as [|x s1 IH]; intros [|y s2] [|z s3]; simpl;
    try congruence.
  unfold Ascii.compare.
  destruct (N.compare_spec (N_of_ascii x) (N_of_ascii y)) as [Exy|Lxy|Gxy];
    destruct (N.compare_spec (N_of_ascii y) (N_of_ascii z)) as [Eyz|Lyz|Gyz];
    destruct (N.compare_spec (N_of_ascii x) (N_of_ascii z)) as [Exz|Lxz|Gxz];
    try congruence; try lia.
  apply IH.
Qed.

Lemma string_leb_trans s1 s2 s3 :
  (s1 <=? s2)%string = true -> (s2 <=? s3)%string = true ->
  (s1 <=? s3)%string = true.
Proof.
  unfold String.leb. intros H1 H2.
  pose proof (string_compare_trans_le s1 s2 s3) as H.
  destruct (s1 ?= s2)%string, (s2 ?= s3)%string, (s1 ?= s3)%string;
    try reflexivity; try discriminate; exfalso; apply H; congruence.
Qed.

Section KeyOrder.
Context {A : Type} (key : A -> string).

#[global] Instance key_le_total : Total (key_le key).
Proof. intros a b. apply String.leb_total. Qed.

#[global] Instance key_le_trans : Transitive (key_le key).
Proof. intros a b c. apply string_leb_trans. Qed.

Lemma key_le_decide a b (X Y : list A) :
  (if decide (key_le key a b) then X else Y)
  = if (key a <=? key b)%string then X else Y.
Proof.
  destruct (decide (key_le key a b)) as [H|H]; unfold key_le in H;
    destruct (key a <=? key b)%string; congruence.
Qed.
End KeyOrder.

(** ** mergeSortLCP *)

Lemma drop_cons_inv {X : Type} (l : list X) (n : nat) x t :
  drop n l = x :: t -> l !! n = Some x /\ drop (S n) l = t.
Proof.
  intros H. split.
  - rewrite <- (Nat.add_0_r n), <- lookup_drop, H. reflexivity.
  - replace (S n) with (n + 1)%nat by lia. rewrite <- drop_drop, H. reflexivity.
Qed.

Lemma filter_none {X : Type} (P : X -> Prop) `{!forall x, Decision (P x)}
    (l : list X) :
  (forall z, z ∈ l -> ~ P z) -> filter P l = [].
Proof.
  induction l as [|x l IH]; intros Hno; [reflexivity|].
  rewrite filter_cons_False by (apply Hno; left).
  apply IH. intros z Hz. apply Hno. right. exact Hz.
Qed.

Lemma copy_into_spec {X : Type} (f : fault) (src pre old post : list X) :
  length old = length src ->
  copy_into f src (pre ++ old ++ post) (Z.of_nat (length pre))
    = Done (pre ++ src ++ post).
Proof.
  revert pre old. induction src as [|x src IH]; intros pre old Hlen.
  - destruct old; [reflexivity | discriminate].
  - destruct old as [|y old]; [discriminate|]. simpl in Hlen.
    cbn [copy_into]. rewrite vset_inside
      by (rewrite !length_app; simpl; lia).
    cbn [bind]. rewrite Nat2Z.id.
    rewrite insert_app_r_alt by lia. rewrite Nat.sub_diag. simpl.
    replace (pre ++ x :: old ++ post) with ((pre ++ [x]) ++ old ++ post)
      by (rewrite <- app_assoc; reflexivity).
    replace (Z.of_nat (length pre) + 1) with (Z.of_nat (length (pre ++ [x])))
      by (rewrite length_app; simpl; lia).
    rewrite IH by lia. rewrite <- app_assoc. reflexivity.
Qed.

Section MergeSort.
Context {A : Type} (key : A -> string).

Lemma copy_loop_spec (n : nat) (arr temp : list A) (i : Z) (t r : list A) :
  0 <= i -> drop (Z.to_nat i) arr = t ++ r -> length t = n ->
  copy_loop n arr temp i = Done (temp ++ t).
Proof.
  revert temp i t. induction n as [|n IH]; intros temp i t Hi Hdrop Hlen.
  - destruct t; [|discriminate]. rewrite app_nil_r. reflexivity.
  - destruct t as [|x t]; [discriminate|]. simpl in Hdrop, Hlen.
    apply drop_cons_inv in Hdrop as [Hx Hdrop].
    cbn [copy_loop]. rewrite (vget_Done _ _ _ _ Hi Hx). cbn [bind].
    rewrite (IH _ _ t); [rewrite <- app_assoc; reflexivity | lia | | lia].
    replace (Z.to_nat (i + 1)) with (S (Z.to_nat i)) by lia. exact Hdrop.
Qed.

Lemma merge_loop_spec (fuel : nat) (arr temp : list A) (i j mid right comps : Z)
    (s1 r1 s2 r2 : list A) :
  wrap64 comps = comps -> 0 <= i -> 0 <= j ->
  drop (Z.to_nat i) arr = s1 ++ r1 -> Z.of_nat (length s1) = mid - i ->
  drop (Z.to_nat j) arr = s2 ++ r2 -> Z.of_nat (length s2) = right - j ->
  (length s1 + length s2 <= fuel)%nat ->
  exists out t1 t2,
    merge_loop key fuel arr temp i j mid right comps
      = Done (temp ++ out, mid - Z.of_nat (length t1), right - Z.of_nat (length t2),
              wrap64 (comps + Z.of_nat (length out))) /\
    drop (Z.to_nat (mid - Z.of_nat (length t1))) arr = t1 ++ r1 /\
    drop (Z.to_nat (right - Z.of_nat (length t2))) arr = t2 ++ r2 /\
    (t1 = [] \/ t2 = []) /\
    out ++ t1 ++ t2 = list_merge (key_le key) s1 s2 /\
    (length out + length t1 + length t2 = length s1 + length s2)%nat /\
    (length t1 <= length s1 /\ length t2 <= length s2)%nat /\
    (s1 = [] \/ s2 = [] -> out = []) /\
    (s1 <> [] -> s2 <> [] -> out <> [] /\ t1 ++ t2 <> []).
Proof.
  intros Hc. revert temp i j comps s1 s2 Hc.
  induction fuel as [|fuel IH];
    intros temp i j comps s1 s2 Hc Hi Hj Hd1 Hl1 Hd2 Hl2 Hfuel.
  - destruct s1, s2; simpl in Hfuel; try lia. simpl in *.
    destruct (Z.ltb_spec i mid); [lia|]. simpl.
    exists [], [], []. simpl. rewrite app_nil_r, !Z.sub_0_r, Z.add_0_r, Hc.
    replace mid with i by lia. replace right with j by lia.
    repeat split; auto; congruence.
  - cbn [merge_loop].
    destruct s1 as [|x s1].
    { simpl in Hl1. destruct (Z.ltb_spec i mid); [lia|]. simpl.
      exists [], [], s2. simpl. rewrite app_nil_r, Z.sub_0_r, Z.add_0_r, Hc.
      replace mid with i by lia.
      replace (right - Z.of_nat (length s2)) with j by lia.
      rewrite list_merge_nil_l.
      repeat split; auto; congruence. }
    destruct s2 as [|y s2].
    { simpl in Hl2. destruct (Z.ltb_spec j right); [lia|].
      rewrite andb_false_r.
      exists [], (x :: s1), []. rewrite app_nil_r, Z.sub_0_r, Z.add_0_r, Hc.
      replace right with j by lia.
      replace (mid - Z.of_nat (length (x :: s1))) with i by lia.
      rewrite list_merge_nil_r, app_nil_r.
      repeat split; auto; try congruence; try (simpl; lia). }
    simpl in Hl1, Hl2, Hfuel.
    destruct (Z.ltb_spec i mid); [|lia]. destruct (Z.ltb_spec j right); [|lia].
    simpl andb. cbv iota.
    pose proof Hd1 as Hd1'. pose proof Hd2 as Hd2'. simpl in Hd1', Hd2'.
    apply drop_cons_inv in Hd1' as [Hx Hd1'].
    apply drop_cons_inv in Hd2' as [Hy Hd2'].
    rewrite (vget_Done _ _ _ _ Hi Hx), (vget_Done _ _ _ _ Hj Hy). cbn [bind].
    rewrite list_merge_cons, key_le_decide.
    destruct (key x <=? key y)%string.
    + destruct (IH (temp ++ [x]) (i + 1) j (incr comps) s1 (y :: s2))
        as (out & t1 & t2 & -> & E1 & E2 & Hor & Hm & Hlen & Hle12 & Hnil & Hne);
        [wrap_lia | lia | lia | | simpl; lia | exact Hd2 | simpl; lia | simpl; lia |].
      { replace (Z.to_nat (i + 1)) with (S (Z.to_nat i)) by lia. exact Hd1'. }
      exists (x :: out), t1, t2. rewrite <- app_assoc. simpl in Hlen, Hle12 |- *.
      repeat split; auto; try congruence; try lia.
      * do 2 f_equal. wrap_lia.
      * intros [|]; discriminate.
      * destruct s1 as [|x' s1]; [|apply Hne; congruence].
        rewrite (Hnil (or_introl eq_refl)) in Hm. rewrite list_merge_nil_l in Hm.
        simpl in Hm. rewrite Hm. discriminate.
    + destruct (IH (temp ++ [y]) i (j + 1) (incr comps) (x :: s1) s2)
        as (out & t1 & t2 & -> & E1 & E2 & Hor & Hm & Hlen & Hle12 & Hnil & Hne);
        [wrap_lia | lia | lia | exact Hd1 | simpl; lia | | simpl; lia | simpl; lia |].
      { replace (Z.to_nat (j + 1)) with (S (Z.to_nat j)) by lia. exact Hd2'. }
      exists (y :: out), t1, t2. rewrite <- app_assoc. simpl in Hlen, Hle12 |- *.
      repeat split; auto; try congruence; try lia.
      * do 2 f_equal. wrap_lia.
      * intros [|]; discriminate.
      * destruct s2 as [|y' s2]; [|apply Hne; congruence].
        rewrite (Hnil (or_intror eq_refl)) in Hm. rewrite list_merge_nil_r in Hm.
        simpl in Hm. rewrite Hm. discriminate.
Qed.

Lemma merge_halves_spec (pre s1 s2 post : list A) (comps : Z) :
  wrap64 comps = comps ->
  Z.of_nat (length (pre ++ s1 ++ s2 ++ post)) < 2 ^ 64 ->
  exists k copied : nat,
    merge_halves key (pre ++ s1 ++ s2 ++ post)
      (Z.of_nat (length pre))
      (Z.of_nat (length pre) + Z.of_nat (length s1))
      (Z.of_nat (length pre) + Z.of_nat (length s1) + Z.of_nat (length s2))
      comps
    = Done (pre ++ list_merge (key_le key) s1 s2 ++ post,
            wrap64 (comps + Z.of_nat k)) /\
    (k + copied = length s1 + length s2)%nat /\
    (s1 = [] \/ s2 = [] -> k = O) /\
    (s1 <> [] -> s2 <> [] -> (1 <= k)%nat /\ (1 <= copied)%nat).
Proof.
  intros Hc Hlen. rewrite !length_app in Hlen.
  set (left := Z.of_nat (length pre)).
  set (mid := left + Z.of_nat (length s1)).
  set (right := mid + Z.of_nat (length s2)).
  unfold merge_halves.
  assert (Hsz : size_sub right left = Z.of_nat (length s1 + length s2)).
  { unfold size_sub. rewrite wrap64_small; lia. }
  rewrite Hsz, Nat2Z.id.
  destruct (merge_loop_spec (length s1 + length s2) (pre ++ s1 ++ s2 ++ post) []
              left mid mid right comps s1 (s2 ++ post) s2 post)
    as (out & t1 & t2 & -> & E1 & E2 & Hor & Hm & Hl & Hle12 & Hnil & Hne);
    [exact Hc | lia | lia | | lia | | lia | lia |].
  { unfold left. rewrite Nat2Z.id, drop_app_length. reflexivity. }
  { unfold mid, left. rewrite <- Nat2Z.inj_add, Nat2Z.id.
    rewrite (app_assoc pre s1), <- length_app, drop_app_length. reflexivity. }
  cbn [bind app].
  rewrite (copy_loop_spec _ _ _ _ t1 (s2 ++ post)); [|lia | exact E1 | lia].
  cbn [bind].
  rewrite (copy_loop_spec _ _ _ _ t2 post); [|lia | exact E2 | lia].
  cbn [bind]. rewrite <- app_assoc, Hm.
  replace (pre ++ s1 ++ s2 ++ post) with (pre ++ (s1 ++ s2) ++ post)
    by (rewrite <- app_assoc; reflexivity).
  unfold left. rewrite copy_into_spec.
  2:{ rewrite <- Hm, !length_app. lia. }
  cbn [bind].
  exists (length out), (length t1 + length t2)%nat.
  split; [reflexivity|]. split; [lia|]. split.
  - intros H. rewrite (Hnil H). reflexivity.
  - intros H1 H2. destruct (Hne H1 H2) as [Ho Ht].
    destruct out; [congruence|]. destruct t1, t2; simpl in *; try congruence; lia.
Qed.

(** A merge with [<=] never lets an element of the right half pass an
    element of the left half with the same key. *)
Lemma list_merge_stable (l1 l2 : list A) (k : string) :
  Sorted (key_le key) l1 ->
  filter (fun x => key x = k) (list_merge (key_le key) l1 l2)
  = filter (fun x => key x = k) l1 ++ filter (fun x => key x = k) l2.
Proof.
  intros Hs. apply (Sorted_StronglySorted _) in Hs.
  revert l2. induction Hs as [|x l1 Hs IH Hx]; intros l2.
  - rewrite list_merge_nil_l. reflexivity.
  - induction l2 as [|y l2 IH2].
    + rewrite list_merge_nil_r, app_nil_r. reflexivity.
    + rewrite list_merge_cons.
      destruct (decide (key_le key x y)) as [Hle|Hnle].
      * rewrite !(filter_cons _ x). destruct (decide (key x = k));
          rewrite IH; reflexivity.
      * rewrite (filter_cons _ y), IH2.
        destruct (decide (key y = k)) as [Ey|Ny].
        -- assert (filter (fun z => key z = k) (x :: l1) = []) as ->.
           { apply filter_none. intros z Hz Ez.
             apply Hnle. unfold key_le. rewrite Ey, <- Ez.
             apply elem_of_cons in Hz as [->|Hz].
             - apply string_leb_refl.
             - rewrite Forall_forall in Hx. apply Hx. exact Hz. }
           rewrite (filter_cons _ y), decide_True by exact Ey. reflexivity.
        -- rewrite (filter_cons _ y), decide_False by exact Ny. reflexivity.
Qed.

Lemma mergeSortLCP_spec (fuel : nat) (pre l post : list A) (comps : Z) :
  wrap64 comps = comps ->
  Z.of_nat (length (pre ++ l ++ post)) < 2 ^ 63 ->
  (length l <= S fuel)%nat ->
  exists out comps',
    mergeSortLCP key fuel (pre ++ l ++ post)
      (Z.of_nat (length pre)) (Z.of_nat (length pre) + Z.of_nat (length l)) comps
    = Done (pre ++ out ++ post, comps') /\
    wrap64 comps' = comps' /\
    Sorted (key_le key) out /\ out ≡ₚ l /\ stable key l out.
Proof.
  revert pre l post comps.
  induction fuel as [|fuel IH]; intros pre l post comps Hc Hlen Hfuel.
  - exists l, comps. rewrite !length_app in Hlen.
    cbn [mergeSortLCP]. unfold size_sub. rewrite wrap64_small by lia.
    destruct (Z.leb_spec (Z.of_nat (length pre) + Z.of_nat (length l)
                          - Z.of_nat (length pre)) 1); [|lia].
    repeat split; auto.
    destruct l as [|x [|y l]]; simpl in Hfuel; try lia; repeat constructor.
  - rewrite !length_app in Hlen.
    cbn [mergeSortLCP]. unfold size_sub at 1. rewrite wrap64_small by lia.
    destruct (Z.leb_spec (Z.of_nat (length pre) + Z.of_nat (length l)
                          - Z.of_nat (length pre)) 1) as [Hsmall|Hbig].
    { exists l, comps. repeat split; auto.
      destruct l as [|x [|y l]]; simpl in Hsmall; try lia; repeat constructor. }
    set (h := (length l / 2)%nat).
    assert (Hh : (1 <= h /\ h < length l)%nat).
    { unfold h. split.
      - apply Nat.div_le_lower_bound; lia.
      - apply Nat.div_lt; lia. }
    assert (Hmid : size_add (Z.of_nat (length pre))
                     (Z.of_nat (length pre) + Z.of_nat (length l)) / 2
                   = Z.of_nat (length pre) + Z.of_nat h).
    { unfold size_add. rewrite wrap64_small by lia.
      unfold h. rewrite Nat2Z.inj_div. simpl Z.of_nat.
      replace (Z.of_nat (length pre) + (Z.of_nat (length pre) + Z.of_nat (length l)))
        with (Z.of_nat (length l) + Z.of_nat (length pre) * 2) by lia.
      rewrite Z.div_add by lia. lia. }
    rewrite Hmid.
    set (l1 := take h l). set (l2 := drop h l).
    assert (El : l = l1 ++ l2) by (symmetry; apply take_drop).
    assert (Hl1 : length l1 = h) by (unfold l1; rewrite length_take; lia).
    assert (Hl2 : (length l2 = length l - h)%nat) by (unfold l2; apply length_drop).
    (* first half *)
    destruct (IH pre l1 (l2 ++ post) comps) as (out1 & c1 & E1 & Hc1 & Hs1 & Hp1 & Hst1);
      [exact Hc | rewrite !length_app; lia | lia |].
    rewrite Hl1 in E1.
    replace (pre ++ l ++ post) with (pre ++ l1 ++ l2 ++ post)
      by (rewrite El, <- app_assoc; reflexivity).
    rewrite E1. cbn [bind].
    pose proof (Permutation_length Hp1) as Hlo1.
    (* second half *)
    destruct (IH (pre ++ out1) l2 post c1) as (out2 & c2 & E2 & Hc2 & Hs2 & Hp2 & Hst2);
      [exact Hc1 | rewrite !length_app; lia | lia |].
    rewrite length_app, Hlo1, Hl1, Hl2, Nat2Z.inj_add, <- app_assoc in E2.
    replace (Z.of_nat (length pre) + Z.of_nat h + Z.of_nat (length l - h))
      with (Z.of_nat (length pre) + Z.of_nat (length l)) in E2 by lia.
    rewrite E2. cbn [bind].
    pose proof (Permutation_length Hp2) as Hlo2.
    (* merge *)
    destruct (merge_halves_spec pre out1 out2 post c2) as (k & copied & E3 & _);
      [exact Hc2 | rewrite !length_app; lia |].
    rewrite Hlo1, Hlo2, Hl1, Hl2 in E3.
    replace (Z.of_nat (length pre) + Z.of_nat h + Z.of_nat (length l - h))
      with (Z.of_nat (length pre) + Z.of_nat (length l)) in E3 by lia.
    rewrite <- (app_assoc pre out1), E3.
    eexists _, _. split; [reflexivity|].
    split; [apply wrap64_wrap|]. split; [|split].
    + apply (Sorted_list_merge _); assumption.
    + rewrite merge_Permutation, Hp1, Hp2, El. reflexivity.
    + intros k'. rewrite list_merge_stable by exact Hs1.
      rewrite El, filter_app, (Hst1 k'), (Hst2 k'). reflexivity.
Qed.

Lemma merge_steps_cons (x y : A) (s1 s2 : list A) :
  merge_steps key (x :: s1) (y :: s2)
  = if (key x <=? key y)%string
    then S (merge_steps key s1 (y :: s2))
    else S (merge_steps key (x :: s1) s2).
Proof. reflexivity. Qed.

Lemma merge_steps_nil_l (s2 : list A) : merge_steps key [] s2 = O.
Proof. destruct s2; reflexivity. Qed.

Lemma merge_steps_nil_r (s1 : list A) : merge_steps key s1 [] = O.
Proof. destruct s1; reflexivity. Qed.

Lemma merge_steps_bounds (s1 s2 : list A) :
  (s1 = [] \/ s2 = [] -> merge_steps key s1 s2 = O) /\
  (s1 <> [] -> s2 <> [] ->
   (1 <= merge_steps key s1 s2 <= length s1 + length s2 - 1)%nat).
Proof.
  split.
  - intros [-> | ->]; [apply merge_steps_nil_l | apply merge_steps_nil_r].
  - revert s2. induction s1 as [|x s1 IH1]; intros s2 H1 H2; [congruence|].
    induction s2 as [|y s2 IH2]; [congruence|].
    rewrite merge_steps_cons. destruct (key x <=? key y)%string.
    + destruct s1 as [|x' s1]; [simpl; lia|].
      specialize (IH1 (y :: s2) ltac:(discriminate) ltac:(discriminate)).
      simpl length in *. lia.
    + destruct s2 as [|y' s2]; [rewrite merge_steps_nil_r; simpl; lia|].
      specialize (IH2 ltac:(discriminate)). simpl length in *. lia.
Qed.

(** The comparing loop charges one increment per merge step. *)
Lemma merge_loop_steps (fuel : nat) (arr temp : list A) (i j mid right comps : Z)
    (s1 r1 s2 r2 temp' : list A) (i' j' comps' : Z) :
  wrap64 comps = comps -> 0 <= i -> 0 <= j ->
  drop (Z.to_nat i) arr = s1 ++ r1 -> Z.of_nat (length s1) = mid - i ->
  drop (Z.to_nat j) arr = s2 ++ r2 -> Z.of_nat (length s2) = right - j ->
  merge_loop key fuel arr temp i j mid right comps
    = Done (temp', i', j', comps') ->
  comps' = wrap64 (comps + Z.of_nat (merge_steps key s1 s2)).
Proof.
  intros Hc. revert temp i j comps s1 s2 Hc.
  induction fuel as [|fuel IH];
    intros temp i j comps s1 s2 Hc Hi Hj Hd1 Hl1 Hd2 Hl2 E.
  - cbn [merge_loop] in E.
    destruct s1 as [|x s1].
    { rewrite merge_steps_nil_l, Z.add_0_r, Hc.
      simpl in Hl1. destruct (Z.ltb_spec i mid); [lia|].
      simpl in E. congruence. }
    destruct s2 as [|y s2].
    { rewrite merge_steps_nil_r, Z.add_0_r, Hc.
      simpl in Hl2. destruct (Z.ltb_spec j right); [lia|].
      rewrite andb_false_r in E. congruence. }
    simpl in Hl1, Hl2.
    destruct (Z.ltb_spec i mid); [|lia]. destruct (Z.ltb_spec j right); [|lia].
    discriminate E.
  - cbn [merge_loop] in E.
    destruct s1 as [|x s1].
    { rewrite merge_steps_nil_l, Z.add_0_r, Hc.
      simpl in Hl1. destruct (Z.ltb_spec i mid); [lia|].
      simpl in E. congruence. }
    destruct s2 as [|y s2].
    { rewrite merge_steps_nil_r, Z.add_0_r, Hc.
      simpl in Hl2. destruct (Z.ltb_spec j right); [lia|].
      rewrite andb_false_r in E. congruence. }
    simpl in Hl1, Hl2.
    destruct (Z.ltb_spec i mid); [|lia]. destruct (Z.ltb_spec j right); [|lia].
    simpl andb in E. cbv iota in E.
    pose proof Hd1 as Hd1'. pose proof Hd2 as Hd2'. simpl in Hd1', Hd2'.
    apply drop_cons_inv in Hd1' as [Hx Hd1'].
    apply drop_cons_inv in Hd2' as [Hy Hd2'].
    rewrite (vget_Done _ _ _ _ Hi Hx), (vget_Done _ _ _ _ Hj Hy) in E.
    cbn [bind] in E. rewrite merge_steps_cons.
    destruct (key x <=? key y)%string.
    + apply (IH _ _ _ _ s1 (y :: s2)) in E;
        [|wrap_lia | lia | lia | | simpl; lia | exact Hd2 | simpl; lia].
      * rewrite E. wrap_lia.
      * replace (Z.to_nat (i + 1)) with (S (Z.to_nat i)) by lia. exact Hd1'.
    + apply (IH _ _ _ _ (x :: s1) s2) in E;
        [|wrap_lia | lia | lia | exact Hd1 | simpl; lia | | simpl; lia].
      * rewrite E. wrap_lia.
      * replace (Z.to_nat (j + 1)) with (S (Z.to_nat j)) by lia. exact Hd2'.
Qed.

(** The merge of two halves: the merged sequence, and one increment per
    merge step. *)
Lemma merge_halves_steps (pre s1 s2 post : list A) (comps : Z) :
  wrap64 comps = comps ->
  Z.of_nat (length (pre ++ s1 ++ s2 ++ post)) < 2 ^ 64 ->
  merge_halves key (pre ++ s1 ++ s2 ++ post)
    (Z.of_nat (length pre))
    (Z.of_nat (length pre) + Z.of_nat (length s1))
    (Z.of_nat (length pre) + Z.of_nat (length s1) + Z.of_nat (length s2))
    comps
  = Done (pre ++ list_merge (key_le key) s1 s2 ++ post,
          wrap64 (comps + Z.of_nat (merge_steps key s1 s2))).
Proof.
  intros Hc Hlen.
  destruct (merge_halves_spec pre s1 s2 post comps Hc Hlen) as (k & copied & E & _).
  rewrite E. pose proof E as E'. unfold merge_halves in E'.
  destruct (merge_loop _ _ _ _ _ _ _ _ _) as [[[[t i'] j'] c]|] eqn:EL;
    [|discriminate].
  apply (merge_loop_steps _ _ _ _ _ _ _ _ s1 (s2 ++ post) s2 post) in EL;
    [|exact Hc | lia | lia | | lia | | lia].
  - cbn [bind] in E'.
    destruct (copy_loop _ _ _ _) as [t1|]; [|discriminate]. cbn [bind] in E'.
    destruct (copy_loop _ _ _ _) as [t2|]; [|discriminate]. cbn [bind] in E'.
    destruct (copy_into _ _ _ _) as [a|]; [|discriminate]. cbn [bind] in E'.
    injection E' as _ <-. rewrite EL. reflexivity.
  - rewrite Nat2Z.id, drop_app_length. reflexivity.
  - rewrite <- Nat2Z.inj_add, Nat2Z.id.
    rewrite (app_assoc pre s1), <- length_app, drop_app_length. reflexivity.
Qed.

Lemma merge_sort_ref_length (fuel : nat) (l : list A) :
  length (merge_sort_ref key fuel l).1 = length l.
Proof.
  revert l. induction fuel as [|fuel IH]; intros l; [reflexivity|].
  cbn [merge_sort_ref]. destruct (length l <=? 1)%nat; [reflexivity|]. cbv zeta.
  pose proof (IH (take (length l / 2) l)) as H1.
  pose proof (IH (drop (length l / 2) l)) as H2.
  destruct (merge_sort_ref key fuel (take (length l / 2) l)) as [a ka].
  destruct (merge_sort_ref key fuel (drop (length l / 2) l)) as [b kb].
  cbn [fst] in *.
  rewrite (Permutation_length (merge_Permutation _ _ _)), length_app, H1, H2.
  rewrite <- length_app, take_drop. reflexivity.
Qed.

Lemma mergeSortLCP_refines (fuel : nat) (pre l post : list A) (comps : Z) :
  wrap64 comps = comps ->
  Z.of_nat (length (pre ++ l ++ post)) < 2 ^ 63 ->
  (length l <= S fuel)%nat ->
  mergeSortLCP key fuel (pre ++ l ++ post)
    (Z.of_nat (length pre)) (Z.of_nat (length pre) + Z.of_nat (length l)) comps
  = Done (pre ++ (merge_sort_ref key fuel l).1 ++ post,
          wrap64 (comps + Z.of_nat (merge_sort_ref key fuel l).2)).
Proof.
  revert pre l post comps.
  induction fuel as [|fuel IH]; intros pre l post comps Hc Hlen Hfuel.
  - rewrite !length_app in Hlen.
    cbn [mergeSortLCP merge_sort_ref fst snd]. unfold size_sub.
    rewrite wrap64_small by lia.
    destruct (Z.leb_spec (Z.of_nat (length pre) + Z.of_nat (length l)
                          - Z.of_nat (length pre)) 1); [|lia].
    rewrite Z.add_0_r, Hc. reflexivity.
  - rewrite !length_app in Hlen.
    cbn [mergeSortLCP merge_sort_ref]. unfold size_sub at 1.
    rewrite wrap64_small by lia.
    destruct (Z.leb_spec (Z.of_nat (length pre) + Z.of_nat (length l)
                          - Z.of_nat (length pre)) 1) as [Hsmall|Hbig].
    { destruct (Nat.leb_spec (length l) 1); [|lia].
      cbn [fst snd]. rewrite Z.add_0_r, Hc. reflexivity. }
    destruct (Nat.leb_spec (length l) 1); [lia|]. cbv zeta.
    set (h := (length l / 2)%nat).
    assert (Hh : (1 <= h /\ h < length l)%nat).
    { unfold h. split.
      - apply Nat.div_le_lower_bound; lia.
      - apply Nat.div_lt; lia. }
    assert (Hmid : size_add (Z.of_nat (length pre))
                     (Z.of_nat (length pre) + Z.of_nat (length l)) / 2
                   = Z.of_nat (length pre) + Z.of_nat h).
    { unfold size_add. rewrite wrap64_small by lia.
      unfold h. rewrite Nat2Z.inj_div. simpl Z.of_nat.
      replace (Z.of_nat (length pre) + (Z.of_nat (length pre) + Z.of_nat (length l)))
        with (Z.of_nat (length l) + Z.of_nat (length pre) * 2) by lia.
      rewrite Z.div_add by lia. lia. }
    rewrite Hmid.
    set (l1 := take h l). set (l2 := drop h l).
    assert (El : l = l1 ++ l2) by (symmetry; apply take_drop).
    assert (Hl1 : length l1 = h) by (unfold l1; rewrite length_take; lia).
    assert (Hl2 : (length l2 = length l - h)%nat) by (unfold l2; apply length_drop).
    pose proof (IH pre l1 (l2 ++ post) comps Hc
                  ltac:(rewrite !length_app; lia) ltac:(lia)) as E1.
    pose proof (merge_sort_ref_length fuel l1) as Hlo1.
    destruct (merge_sort_ref key fuel l1) as [out1 k1]. cbn [fst snd] in E1, Hlo1.
    rewrite Hl1 in E1, Hlo1.
    replace (pre ++ l ++ post) with (pre ++ l1 ++ l2 ++ post)
      by (rewrite El, <- app_assoc; reflexivity).
    rewrite E1. cbn [bind].
    pose proof (IH (pre ++ out1) l2 post (wrap64 (comps + Z.of_nat k1))
                  (wrap64_wrap _) ltac:(rewrite !length_app; lia) ltac:(lia))
      as E2.
    pose proof (merge_sort_ref_length fuel l2) as Hlo2.
    destruct (merge_sort_ref key fuel l2) as [out2 k2]. cbn [fst snd] in E2, Hlo2.
    rewrite length_app, Hlo1, Hl2, Nat2Z.inj_add, <- app_assoc in E2.
    replace (Z.of_nat (length pre) + Z.of_nat h + Z.of_nat (length l - h))
      with (Z.of_nat (length pre) + Z.of_nat (length l)) in E2 by lia.
    rewrite E2. cbn [bind].
    pose proof (merge_halves_steps pre out1 out2 post
                  (wrap64 (wrap64 (comps + Z.of_nat k1) + Z.of_nat k2))
                  (wrap64_wrap _) ltac:(rewrite !length_app; lia)) as E3.
    rewrite Hlo1, Hlo2, Hl2 in E3.
    replace (Z.of_nat (length pre) + Z.of_nat h + Z.of_nat (length l - h))
      with (Z.of_nat (length pre) + Z.of_nat (length l)) in E3 by lia.
    rewrite <- (app_assoc pre out1), E3.
    cbn [fst snd]. do 2 f_equal. wrap_lia.
Qed.

(** C7.  [mergeSortLCP] on a range computes what the merge sort of the
    specification computes on the elements of the range, and advances the
    counter by exactly its number of comparisons: nothing for a range of
    at most one element, and for a longer range what the two halves cost
    plus one increment for each merge step that compares the current heads
    of the sorted halves with [<=].  The merge steps end when a half is
    exhausted, so their number is zero when a half is empty and otherwise
    at least one and less than the number of elements merged: the
    elements that remain are copied without an increment.  The count
    depends on the strings only through the outcomes of [<=]. *)
Theorem mergeSortLCP_counts :
  (forall fuel (arr : list A) left right comps,
     size_sub right left <= 1 ->
     mergeSortLCP key fuel arr left right comps = Done (arr, comps)) /\
  (forall fuel (pre l post : list A) comps,
     wrap64 comps = comps ->
     Z.of_nat (length (pre ++ l ++ post)) < 2 ^ 63 ->
     (length l <= S fuel)%nat ->
     mergeSortLCP key fuel (pre ++ l ++ post)
       (Z.of_nat (length pre)) (Z.of_nat (length pre) + Z.of_nat (length l))
       comps
     = Done (pre ++ (merge_sort_ref key fuel l).1 ++ post,
             wrap64 (comps + Z.of_nat (merge_sort_ref key fuel l).2))) /\
  (forall s1 s2 : list A,
     (s1 = [] \/ s2 = [] -> merge_steps key s1 s2 = O) /\
     (s1 <> [] -> s2 <> [] ->
      (1 <= merge_steps key s1 s2 <= length s1 + length s2 - 1)%nat)).
Proof.
  split; [|split].
  - intros fuel arr left right comps Hsmall.
    destruct fuel; cbn [mergeSortLCP];
      (destruct (Z.leb_spec (size_sub right left) 1); [reflexivity | lia]).
  - apply mergeSortLCP_refines.
  - apply merge_steps_bounds.
Qed.
End MergeSort.

Lemma mergeSortLCP_counts_witness :
  mergeSortLCP id 5 ["b"; "a"]%string 1 2 0 = Done (["b"; "a"]%string, 0) /\
  mergeSortLCP id 3 (["z"%string] ++ ["abcx"; "abcd"; "abc"]%string ++ ["y"%string])
    (Z.of_nat (length ["z"%string]))
    (Z.of_nat (length ["z"%string])
     + Z.of_nat (length ["abcx"; "abcd"; "abc"]%string)) 0
  = Done (["z"%string]
            ++ (merge_sort_ref id 3 ["abcx"; "abcd"; "abc"]%string).1
            ++ ["y"%string],
          wrap64 (0 + Z.of_nat (merge_sort_ref id 3
                                  ["abcx"; "abcd"; "abc"]%string).2)).
Proof.
  destruct (mergeSortLCP_counts (A:=string) id) as (Hsmall & Href & _).
  split.
  - apply Hsmall. vm_compute. discriminate.
  - apply Href; [reflexivity | simpl; lia | simpl; lia].
Defined.

(** ** The radix pass *)

Lemma get_In s (n : nat) c :
  String.get n s = Some c -> In c (list_ascii_of_string s).
Proof.
  revert n; induction s as [|x s IH]; intros [|n]; simpl; try discriminate.
  - intros [= ->]. left. reflexivity.
  - intros H. right. eapply IH. exact H.
Qed.

Lemma charAt_below_R s d :
  ~ In "."%char (list_ascii_of_string s) -> -1 <= charAt s d < R.
Proof.
  intros Hno. pose proof (charAt_range s d) as Hr. split; [lia|].
  unfold charAt in *. destruct (d <? size s); [|unfold R; lia].
  destruct (String.get (Z.to_nat d) s) as [c|] eqn:E; [|unfold R; lia].
  apply charToIndex_below_R. intros ->. apply Hno. eapply get_In. exact E.
Qed.

Lemma charAt_inside s d : 0 <= d -> 0 <= charAt s d -> d < size s.
Proof.
  intros Hd. unfold charAt. destruct (Z.ltb_spec d (size s)); lia.
Qed.

Lemma holds_ext count f g :
  (forall k, (k < Z.to_nat (R + 2))%nat -> f k = g k) ->
  holds count f -> holds count g.
Proof.
  intros E [Hl Hf]. split; [exact Hl|]. intros k Hk. rewrite <- E; auto.
Qed.

Lemma holds_get count f (k : Z) :
  holds count f -> 0 <= k < R + 2 ->
  count_get count k = Done (Z.of_nat (f (Z.to_nat k))).
Proof.
  intros [Hl Hf] Hk. apply vget_Done; [lia|]. apply Hf. lia.
Qed.

Lemma holds_set count f (k : Z) (v : nat) :
  holds count f -> 0 <= k < R + 2 ->
  count_set count k (Z.of_nat v) = Done (<[Z.to_nat k := Z.of_nat v]> count) /\
  holds (<[Z.to_nat k := Z.of_nat v]> count)
    (fun j => if decide (j = Z.to_nat k) then v else f j).
Proof.
  intros [Hl Hf] Hk. split; [apply vset_inside; lia|].
  split; [rewrite length_insert; exact Hl|].
  intros j Hj. destruct (decide (j = Z.to_nat k)) as [->|Hne].
  - apply list_lookup_insert_eq. lia.
  - rewrite list_lookup_insert_ne by congruence. auto.
Qed.

Lemma holds_replicate : holds (replicate (Z.to_nat (R + 2)) 0) (fun _ => O).
Proof.
  split; [apply length_replicate|].
  intros k Hk. apply lookup_replicate_2. exact Hk.
Qed.

Lemma length_filter_cons {X : Type} (P : X -> Prop) `{!forall x, Decision (P x)}
    (x : X) (l : list X) :
  length (filter P (x :: l))
  = ((if decide (P x) then 1 else 0) + length (filter P l))%nat.
Proof. rewrite filter_cons. destruct (decide (P x)); reflexivity. Qed.

Section RadixPass.
Context {A : Type} (key : A -> string) (dflt : A).

Lemma count_loop_spec (n : nat) (arr : list A) (count : list Z) (i d comps : Z)
    (s r : list A) (f : nat -> nat) :
  wrap64 comps = comps -> 0 <= i ->
  drop (Z.to_nat i) arr = s ++ r -> length s = n ->
  holds count f ->
  (forall x, x ∈ s -> -1 <= charAt (key x) d < R) ->
  (forall k, Z.of_nat (f k) + Z.of_nat n < 2 ^ 64) ->
  exists count',
    count_loop key n arr count i d comps
      = Done (count', wrap64 (comps + Z.of_nat n)) /\
    holds count'
      (fun k => (f k + length (filter (fun x => S (bucket key d x) = k) s))%nat).
Proof.
  revert arr count i comps s f.
  induction n as [|n IH]; intros arr count i comps s f Hc Hi Hdrop Hlen Hh Hs Hf.
  - destruct s; [|discriminate]. exists count. simpl.
    rewrite Z.add_0_r, Hc. split; [reflexivity|].
    eapply holds_ext; [|exact Hh]. intros k _. simpl. lia.
  - destruct s as [|x s]; [discriminate|]. simpl in Hdrop, Hlen.
    apply drop_cons_inv in Hdrop as [Hx Hdrop].
    cbn [count_loop]. rewrite (vget_Done _ _ _ _ Hi Hx). cbn [bind].
    assert (Hcx : -1 <= charAt (key x) d < R) by (apply Hs; left).
    rewrite (holds_get _ _ _ Hh) by lia. cbn [bind].
    set (k0 := charAt (key x) d + 2) in *.
    assert (Hinc : incr (Z.of_nat (f (Z.to_nat k0))) = Z.of_nat (S (f (Z.to_nat k0)))).
    { unfold incr, size_add. rewrite wrap64_small; [lia|].
      specialize (Hf (Z.to_nat k0)). lia. }
    rewrite Hinc.
    destruct (holds_set count f k0 (S (f (Z.to_nat k0))) Hh) as [-> Hh1]; [lia|].
    cbn [bind].
    assert (P1 : wrap64 (incr comps) = incr comps) by apply wrap64_wrap.
    assert (P2 : 0 <= i + 1) by lia.
    assert (P3 : drop (Z.to_nat (i + 1)) arr = s ++ r).
    { replace (Z.to_nat (i + 1)) with (S (Z.to_nat i)) by lia. exact Hdrop. }
    assert (P4 : length s = n) by lia.
    assert (P5 : forall y, y ∈ s -> -1 <= charAt (key y) d < R).
    { intros y Hy. apply Hs. right. exact Hy. }
    assert (P6 : forall k,
               Z.of_nat (if decide (k = Z.to_nat k0) then S (f (Z.to_nat k0)) else f k)
               + Z.of_nat n < 2 ^ 64).
    { intros k. pose proof (Hf k). pose proof (Hf (Z.to_nat k0)).
      destruct (decide (k = Z.to_nat k0)); lia. }
    destruct (IH _ _ _ _ _ _ P1 P2 P3 P4 Hh1 P5 P6) as (count' & -> & Hh'); clear IH.
    exists count'. split; [do 2 f_equal; wrap_lia|].
    eapply holds_ext; [|exact Hh']. intros k _. cbn beta.
    rewrite length_filter_cons.
    assert (E : S (bucket key d x) = Z.to_nat k0) by (unfold bucket, k0; lia).
    rewrite E.
    destruct (decide (k = Z.to_nat k0)) as [->|Hne].
    + rewrite decide_True by reflexivity. lia.
    + rewrite decide_False by congruence. lia.
Qed.

Lemma below_S (d : Z) (b : nat) (l : list A) :
  length (filter (fun x => (bucket key d x < S b)%nat) l)
  = (length (filter (fun x => (bucket key d x < b)%nat) l)
     + length (filter (fun x => bucket key d x = b) l))%nat.
Proof.
  induction l as [|x l IH]; [reflexivity|].
  rewrite !length_filter_cons, IH.
  destruct (decide (bucket key d x < S b)%nat), (decide (bucket key d x < b)%nat),
    (decide (bucket key d x = b)); lia.
Qed.

Lemma below_le (d : Z) (b : nat) (l : list A) :
  (length (filter (fun x => (bucket key d x < b)%nat) l) <= length l)%nat.
Proof. apply length_filter. Qed.

Lemma prefix_loop_spec (n m : nat) (count : list Z) (d : Z) (l : list A) :
  (m + n <= Z.to_nat (R + 1))%nat -> Z.of_nat (length l) < 2 ^ 63 ->
  holds count
    (fun k => if decide (k <= m)%nat
              then length (filter (fun x => (bucket key d x < k)%nat) l)
              else length (filter (fun x => S (bucket key d x) = k) l)) ->
  exists count',
    prefix_loop n count (Z.of_nat m) = Done count' /\
    holds count'
      (fun k => if decide (k <= m + n)%nat
                then length (filter (fun x => (bucket key d x < k)%nat) l)
                else length (filter (fun x => S (bucket key d x) = k) l)).
Proof.
  intros Hmn Hlen. revert m count Hmn.
  induction n as [|n IH]; intros m count Hmn Hh.
  - exists count. split; [reflexivity|].
    eapply holds_ext; [|exact Hh]. intros k _. cbn beta.
    rewrite Nat.add_0_r. reflexivity.
  - change (Z.to_nat (R + 1)) with 75%nat in Hmn.
    cbn [prefix_loop].
    rewrite (holds_get _ _ _ Hh) by (unfold R; lia).
    rewrite (holds_get _ _ (Z.of_nat m) Hh) by (unfold R; lia). cbn [bind].
    replace (Z.to_nat (Z.of_nat m + 1)) with (S m) by lia.
    rewrite Nat2Z.id.
    rewrite decide_False by lia. rewrite decide_True by lia.
    assert (Esum : size_add
               (Z.of_nat (length (filter (fun x => S (bucket key d x) = S m) l)))
               (Z.of_nat (length (filter (fun x => (bucket key d x < m)%nat) l)))
             = Z.of_nat (length (filter (fun x => (bucket key d x < S m)%nat) l))).
    { rewrite below_S.
      rewrite (list_filter_iff (fun x => S (bucket key d x) = S m)
                 (fun x => bucket key d x = m)) by (intros; lia).
      pose proof (below_le d (S m) l) as Hb. rewrite below_S in Hb.
      unfold size_add. rewrite wrap64_small; lia. }
    rewrite Esum.
    destruct (holds_set count _ (Z.of_nat m + 1)
                (length (filter (fun x => (bucket key d x < S m)%nat) l)) Hh)
      as [-> Hh1]; [unfold R; lia|].
    cbn [bind].
    replace (Z.of_nat m + 1) with (Z.of_nat (S m)) in * by lia.
    rewrite Nat2Z.id in *.
    eapply holds_ext in Hh1.
    2:{ intros k _.
        instantiate (1 := fun k =>
          if decide (k <= S m)%nat
          then length (filter (fun x => (bucket key d x < k)%nat) l)
          else length (filter (fun x => S (bucket key d x) = k) l)).
        cbn beta. destruct (decide (k = S m)) as [->|Hne].
        - rewrite decide_True by lia. reflexivity.
        - destruct (decide (k <= m)%nat), (decide (k <= S m)%nat); try lia; reflexivity. }
    assert (Hmn' : (S m + n <= Z.to_nat (R + 1))%nat)
      by (change (Z.to_nat (R + 1)) with 75%nat; lia).
    destruct (IH (S m) _ Hmn' Hh1) as (count' & -> & Hh').
    exists count'. split; [reflexivity|].
    eapply holds_ext; [|exact Hh']. intros k _. cbn beta.
    replace (S m + n)%nat with (m + S n)%nat by lia. reflexivity.
Qed.

Lemma bucket_bound (d : Z) (x : A) :
  -1 <= charAt (key x) d < R -> (bucket key d x <= Z.to_nat R)%nat.
Proof. unfold bucket. lia. Qed.

Lemma place_loop_spec (n : nat) (front s post aux : list A) (count : list Z)
    (d : Z) (pos : nat -> nat) :
  let cnt := fun (s : list A) (b : nat) =>
               length (filter (fun x => bucket key d x = b) s) in
  length s = n ->
  holds count pos ->
  (forall x, x ∈ s -> -1 <= charAt (key x) d < R) ->
  (forall b, Z.of_nat (pos b) + Z.of_nat n < 2 ^ 64) ->
  (forall b, (b <= Z.to_nat R)%nat -> (pos b + cnt s b <= length aux)%nat) ->
  (forall b b', (b < b')%nat -> (b' <= Z.to_nat R)%nat ->
                (pos b + cnt s b <= pos b')%nat) ->
  exists aux' count',
    place_loop key dflt n (front ++ s ++ post) aux count
      (Z.of_nat (length front)) d
    = Done (front ++ replicate n dflt ++ post, aux', count') /\
    holds count' (fun b => (pos b + cnt s b)%nat) /\
    length aux' = length aux /\
    (forall b j, (b <= Z.to_nat R)%nat -> (j < cnt s b)%nat ->
       aux' !! (pos b + j)%nat = filter (fun x => bucket key d x = b) s !! j) /\
    (forall q, (forall b, (b <= Z.to_nat R)%nat ->
                  ~ (pos b <= q < pos b + cnt s b)%nat) ->
       aux' !! q = aux !! q).
Proof.
  intros cnt. revert front s aux count pos.
  induction n as [|n IH]; intros front s aux count pos Hlen Hh Hs Hpos Hin Hdis.
  - destruct s; [|discriminate]. exists aux, count. cbn [place_loop].
    split; [reflexivity|]. split.
    { eapply holds_ext; [|exact Hh]. intros b _. unfold cnt. simpl. lia. }
    split; [reflexivity|]. split.
    + intros b j _ Hj. unfold cnt in Hj. simpl in Hj. lia.
    + reflexivity.
  - destruct s as [|x s]; [discriminate|]. simpl in Hlen.
    assert (Hcx : -1 <= charAt (key x) d < R) by (apply Hs; left).
    set (b0 := bucket key d x).
    assert (Hb0 : (b0 <= Z.to_nat R)%nat) by (apply bucket_bound; exact Hcx).
    assert (Eb0 : Z.to_nat (charAt (key x) d + 1) = b0) by reflexivity.
    assert (Hcnt : forall b, cnt (x :: s) b
                     = ((if decide (b0 = b) then 1 else 0) + cnt s b)%nat).
    { intros b. unfold cnt. rewrite length_filter_cons. reflexivity. }
    cbn [place_loop].
    rewrite (vget_Done _ _ _ x) by
      (try lia; rewrite Nat2Z.id, lookup_app_r, Nat.sub_diag by lia; reflexivity).
    cbn [bind].
    rewrite (holds_get _ _ _ Hh) by (unfold R in *; lia). cbn [bind].
    rewrite Eb0.
    assert (Hinc : incr (Z.of_nat (pos b0)) = Z.of_nat (S (pos b0))).
    { unfold incr, size_add. rewrite wrap64_small; [lia|].
      specialize (Hpos b0). lia. }
    rewrite Hinc.
    destruct (holds_set count pos (charAt (key x) d + 1) (S (pos b0)) Hh)
      as [-> Hh1]; [unfold R in *; lia|].
    rewrite Eb0 in Hh1. cbn [bind].
    assert (Hp0 : (pos b0 < length aux)%nat).
    { specialize (Hin b0 Hb0). rewrite Hcnt, decide_True in Hin by reflexivity. lia. }
    rewrite vset_inside by lia. cbn [bind]. rewrite Nat2Z.id.
    rewrite vset_inside by (rewrite !length_app; simpl; lia). cbn [bind].
    rewrite Nat2Z.id.
    rewrite insert_app_r_alt, Nat.sub_diag by lia. cbn [insert list_insert app].
    replace (front ++ dflt :: s ++ post) with ((front ++ [dflt]) ++ s ++ post)
      by (rewrite <- app_assoc; reflexivity).
    replace (Z.of_nat (length front) + 1) with (Z.of_nat (length (front ++ [dflt])))
      by (rewrite length_app; simpl; lia).
    set (pos1 := fun j => if decide (j = b0) then S (pos b0) else pos j) in *.
    assert (Hsum : forall b, (pos1 b + cnt s b = pos b + cnt (x :: s) b)%nat).
    { intros b. rewrite Hcnt. unfold pos1.
      destruct (decide (b = b0)) as [->|]; [rewrite decide_True by reflexivity; lia|].
      rewrite decide_False by congruence. lia. }
    assert (Q1 : length s = n) by lia.
    assert (Q2 : forall y, y ∈ s -> -1 <= charAt (key y) d < R).
    { intros y Hy. apply Hs. right. exact Hy. }
    assert (Q3 : forall b, Z.of_nat (pos1 b) + Z.of_nat n < 2 ^ 64).
    { intros b. unfold pos1. pose proof (Hpos b). pose proof (Hpos b0).
      destruct (decide (b = b0)); lia. }
    assert (Q4 : forall b, (b <= Z.to_nat R)%nat ->
                   (pos1 b + cnt s b <= length (<[pos b0 := x]> aux))%nat).
    { intros b Hb. rewrite length_insert, Hsum. apply Hin. exact Hb. }
    assert (Q5 : forall b b', (b < b')%nat -> (b' <= Z.to_nat R)%nat ->
                   (pos1 b + cnt s b <= pos1 b')%nat).
    { intros b b' Hlt Hb'. rewrite Hsum.
      specialize (Hdis b b' Hlt Hb'). unfold pos1.
      destruct (decide (b' = b0)); [subst b'|]; lia. }
    rewrite ?Eb0.
    destruct (IH (front ++ [dflt]) s (<[pos b0 := x]> aux) _ pos1 Q1 Hh1 Q2 Q3 Q4 Q5)
      as (aux' & count' & -> & Hh' & Hlen' & Hi' & Hii').
    exists aux', count'.
    split. { rewrite <- app_assoc. reflexivity. }
    split. { eapply holds_ext; [|exact Hh']. intros b _. apply Hsum. }
    split. { rewrite Hlen', length_insert. reflexivity. }
    assert (Hfree : forall b, (b <= Z.to_nat R)%nat ->
                      ~ (pos1 b <= pos b0 < pos1 b + cnt s b)%nat).
    { intros b Hb. rewrite Hsum. unfold pos1.
      destruct (decide (b = b0)) as [->|Hne]; [lia|].
      pose proof (Hcnt b0) as Hc0. rewrite decide_True in Hc0 by reflexivity.
      destruct (Nat.lt_ge_cases b b0) as [Hlt|Hge].
      - specialize (Hdis b b0 Hlt Hb0). lia.
      - specialize (Hdis b0 b ltac:(lia) Hb). lia. }
    split.
    + intros b j Hb Hj. rewrite filter_cons. fold b0.
      destruct (decide (b0 = b)) as [<-|Hne].
      * rewrite Hcnt, decide_True in Hj by reflexivity.
        destruct j as [|j].
        -- rewrite Nat.add_0_r, (Hii' _ Hfree).
           apply list_lookup_insert_eq. exact Hp0.
        -- specialize (Hi' b0 j Hb0 ltac:(lia)). unfold pos1 in Hi'.
           rewrite decide_True in Hi' by reflexivity.
           replace (pos b0 + S j)%nat with (S (pos b0) + j)%nat by lia.
           exact Hi'.
      * rewrite Hcnt, decide_False in Hj by exact Hne.
        specialize (Hi' b j Hb ltac:(lia)). unfold pos1 in Hi'.
        rewrite decide_False in Hi' by congruence. exact Hi'.
    + intros q Hq. rewrite Hii'.
      * apply list_lookup_insert_ne. intros <-.
        apply (Hq b0 Hb0). rewrite Hcnt, decide_True by reflexivity. lia.
      * intros b Hb. specialize (Hq b Hb). rewrite <- Hsum in Hq. unfold pos1 in *.
        destruct (decide (b = b0)) as [->|]; lia.
Qed.

Lemma below_mono (d : Z) (a b : nat) (l : list A) :
  (a <= b)%nat ->
  (length (filter (fun x => (bucket key d x < a)%nat) l)
   <= length (filter (fun x => (bucket key d x < b)%nat) l))%nat.
Proof.
  intros Hab. induction l as [|x l IH]; [reflexivity|].
  rewrite !length_filter_cons.
  destruct (decide (bucket key d x < a)%nat), (decide (bucket key d x < b)%nat); lia.
Qed.

Lemma below_all (d : Z) (n : nat) (l : list A) :
  (forall x, x ∈ l -> (bucket key d x < n)%nat) ->
  filter (fun x => (bucket key d x < n)%nat) l = l.
Proof.
  induction l as [|x l IH]; intros H; [reflexivity|].
  rewrite filter_cons_True by (apply H; left).
  f_equal. apply IH. intros y Hy. apply H. right. exact Hy.
Qed.

Lemma bucketed_S (d : Z) (n : nat) (l : list A) :
  bucketed key d (S n) l
  = bucketed key d n l ++ filter (fun x => bucket key d x = n) l.
Proof.
  unfold bucketed. rewrite seq_S, map_app, concat_app. simpl.
  rewrite app_nil_r. reflexivity.
Qed.

Lemma length_bucketed (d : Z) (n : nat) (l : list A) :
  length (bucketed key d n l)
  = length (filter (fun x => (bucket key d x < n)%nat) l).
Proof.
  induction n as [|n IH].
  - unfold bucketed. simpl. symmetry. apply length_zero_iff_nil.
    apply filter_none. intros x _. lia.
  - rewrite bucketed_S, length_app, IH, below_S. reflexivity.
Qed.

(** A scratch vector whose slice from the start of every bucket holds that
    bucket is [l] bucket after bucket. *)
Lemma slices_bucketed (d : Z) (l aux : list A) :
  (forall x, x ∈ l -> (bucket key d x <= Z.to_nat R)%nat) ->
  length aux = length l ->
  (forall b j, (b <= Z.to_nat R)%nat ->
     (j < length (filter (fun x => bucket key d x = b) l))%nat ->
     aux !! (length (filter (fun x => (bucket key d x < b)%nat) l) + j)%nat
     = filter (fun x => bucket key d x = b) l !! j) ->
  aux = bucketed key d (S (Z.to_nat R)) l.
Proof.
  intros Hb Hlen Hsl.
  assert (Hm : forall m, (m <= S (Z.to_nat R))%nat ->
            take (length (filter (fun x => (bucket key d x < m)%nat) l)) aux
            = bucketed key d m l).
  { induction m as [|m IH]; intros Hm.
    - rewrite (filter_none (fun x => (bucket key d x < 0)%nat)) by (intros; lia).
      reflexivity.
    - rewrite bucketed_S, <- IH by lia. rewrite below_S, <- take_take_drop.
      f_equal. apply list_eq. intros j.
      destruct (Nat.lt_ge_cases j
                  (length (filter (fun x => bucket key d x = m) l))) as [Hj|Hj].
      + rewrite lookup_take_lt, lookup_drop by exact Hj. apply Hsl; [lia | exact Hj].
      + rewrite lookup_take_ge by exact Hj. symmetry.
        apply lookup_ge_None_2. exact Hj. }
  rewrite <- (Hm (S (Z.to_nat R))) by lia.
  rewrite below_all by (intros x Hx; specialize (Hb x Hx); lia).
  rewrite take_ge by lia. reflexivity.
Qed.

(** The statements of both radix procedures from the declaration of
    [count] to the write-back loop: the range ends up bucket after bucket,
    elements of a bucket in their former order; [count[b]] is the end of
    bucket [b] within the range; one increment per element. *)
Lemma radix_pass_spec (pre l post : list A) (d comps : Z) :
  wrap64 comps = comps ->
  Z.of_nat (length (pre ++ l ++ post)) < 2 ^ 63 ->
  (forall x, x ∈ l -> -1 <= charAt (key x) d < R) ->
  exists count,
    radix_pass key dflt (pre ++ l ++ post)
      (Z.of_nat (length pre)) (Z.of_nat (length pre) + Z.of_nat (length l)) d comps
    = Done (pre ++ bucketed key d (S (Z.to_nat R)) l ++ post, count,
            wrap64 (comps + Z.of_nat (length l))) /\
    holds count
      (fun b => length (filter (fun x => (bucket key d x < S b)%nat) l)).
Proof.
  intros Hc Hlen Hs. rewrite !length_app in Hlen.
  unfold radix_pass.
  replace (Z.of_nat (length pre) + Z.of_nat (length l) - Z.of_nat (length pre))
    with (Z.of_nat (length l)) by lia.
  assert (Hsz : size_sub (Z.of_nat (length pre) + Z.of_nat (length l))
                  (Z.of_nat (length pre)) = Z.of_nat (length l)).
  { unfold size_sub. rewrite wrap64_small; lia. }
  rewrite Hsz, Nat2Z.id.
  (* counting *)
  destruct (count_loop_spec (length l) (pre ++ l ++ post)
              (replicate (Z.to_nat (R + 2)) 0)
              (Z.of_nat (length pre)) d comps l post (fun _ => O))
    as (count1 & -> & Hh1);
    [exact Hc | lia | rewrite Nat2Z.id; apply drop_app_length | reflexivity
    | apply holds_replicate | exact Hs | intros; simpl; lia |].
  cbn [bind].
  (* prefix sums *)
  destruct (prefix_loop_spec (Z.to_nat (R + 1)) 0 count1 d l) as (count2 & E2 & Hh2);
    [lia | lia | |].
  { eapply holds_ext; [|exact Hh1]. intros k _. cbn beta.
    destruct (decide (k <= 0)%nat) as [Hk|Hk]; [|reflexivity].
    assert (k = O) by lia. subst k.
    rewrite !filter_none by (intros; lia). reflexivity. }
  change (Z.of_nat 0) with 0 in E2. rewrite E2. cbn [bind].
  (* placement *)
  destruct (place_loop_spec (length l) pre l post (replicate (length l) dflt)
              count2 d
              (fun b => length (filter (fun x => (bucket key d x < b)%nat) l)))
    as (aux & count3 & -> & Hh3 & Hla & Hsl & _);
    [reflexivity | | exact Hs | | | |].
  { eapply holds_ext; [|exact Hh2]. intros k Hk. cbn beta.
    rewrite decide_True; [reflexivity|].
    change (Z.to_nat (R + 2)) with 76%nat in Hk.
    change (Z.to_nat (R + 1)) with 75%nat. lia. }
  { intros b. pose proof (below_le d b l). lia. }
  { intros b _. rewrite length_replicate, <- below_S. apply below_le. }
  { intros b b' Hlt _. rewrite <- below_S. apply below_mono. lia. }
  cbn [bind]. rewrite length_replicate in Hla.
  rewrite copy_into_spec by (rewrite length_replicate; lia).
  cbn [bind].
  rewrite (slices_bucketed d l aux); [| | exact Hla | exact Hsl].
  2:{ intros x Hx. apply bucket_bound, Hs, Hx. }
  eexists. split; [reflexivity|].
  eapply holds_ext; [|exact Hh3]. intros b _. cbn beta.
  rewrite below_S. reflexivity.
Qed.
End RadixPass.

(** ** Stability *)

Section Stable.
Context {A : Type} (key : A -> string).

Lemma stable_refl (l : list A) : stable key l l.
Proof. intros k. reflexivity. Qed.

Lemma stable_trans (l1 l2 l3 : list A) :
  stable key l1 l2 -> stable key l2 l3 -> stable key l1 l3.
Proof. intros H12 H23 k. rewrite H23. apply H12. Qed.

Lemma stable_app (l1 l2 o1 o2 : list A) :
  stable key l1 o1 -> stable key l2 o2 -> stable key (l1 ++ l2) (o1 ++ o2).
Proof. intros H1 H2 k. rewrite !filter_app, H1, H2. reflexivity. Qed.

Lemma filter_cons_inv (P : A -> Prop) `{!forall x, Decision (P x)}
    (l : list A) x t :
  filter P l = x :: t ->
  exists l1 l2, l = l1 ++ x :: l2 /\ filter P l1 = [] /\ filter P l2 = t.
Proof.
  induction l as [|y l IH]; [discriminate|].
  rewrite filter_cons. destruct (decide (P y)) as [Hy|Hy].
  - intros [= -> <-]. exists [], l. auto.
  - intros Hf. destruct (IH Hf) as (l1 & l2 & -> & H1 & H2).
    exists (y :: l1), l2. repeat split; [|exact H2].
    rewrite filter_cons_False by exact Hy. exact H1.
Qed.

(** Keeping the order within every class of equal keys keeps the
    multiset. *)
Lemma stable_Permutation (l l' : list A) : stable key l l' -> l' ≡ₚ l.
Proof.
  revert l'. induction l as [|x l IH]; intros l' Hst.
  - destruct l' as [|y l']; [reflexivity|].
    specialize (Hst (key y)). rewrite filter_cons_True in Hst by reflexivity.
    discriminate.
  - pose proof (Hst (key x)) as Hx.
    rewrite (filter_cons_True _ x) in Hx by reflexivity.
    apply filter_cons_inv in Hx as (l1 & l2 & -> & H1 & H2).
    rewrite <- Permutation_middle. constructor. apply IH.
    intros k. specialize (Hst k). rewrite filter_app in *.
    destruct (decide (key x = k)) as [<-|Hne].
    + rewrite H1, H2. reflexivity.
    + rewrite !(filter_cons_False _ x) in Hst by exact Hne. exact Hst.
Qed.

Lemma stable_length (l l' : list A) : stable key l l' -> length l' = length l.
Proof. intros Hst. apply Permutation_length, stable_Permutation, Hst. Qed.

Lemma filter_key_bucket (d : Z) (k : string) (b : nat) (l : list A) :
  filter (fun x => key x = k) (filter (fun x => bucket key d x = b) l)
  = if decide (Z.to_nat (charAt k d + 1) = b)
    then filter (fun x => key x = k) l else [].
Proof.
  induction l as [|x l IH]; [destruct (decide _); reflexivity|].
  rewrite (filter_cons (fun x => bucket key d x = b)).
  destruct (decide (bucket key d x = b)) as [Hb|Hb].
  - rewrite !(filter_cons (fun x => key x = k)), IH.
    destruct (decide (key x = k)) as [Ek|Nk].
    + unfold bucket in Hb. rewrite Ek in Hb. rewrite !decide_True by exact Hb.
      reflexivity.
    + destruct (decide _); reflexivity.
  - rewrite IH. destruct (decide (Z.to_nat (charAt k d + 1) = b)) as [Eb|]; [|reflexivity].
    rewrite filter_cons_False; [reflexivity|].
    intros Ek. apply Hb. unfold bucket. rewrite Ek. exact Eb.
Qed.

Lemma filter_key_bucketed (d : Z) (k : string) (n : nat) (l : list A) :
  filter (fun x => key x = k) (bucketed key d n l)
  = if decide (Z.to_nat (charAt k d + 1) < n)%nat
    then filter (fun x => key x = k) l else [].
Proof.
  induction n as [|n IH].
  - rewrite decide_False by lia. reflexivity.
  - rewrite bucketed_S, filter_app, IH, filter_key_bucket.
    destruct (decide (Z.to_nat (charAt k d + 1) < n)%nat),
      (decide (Z.to_nat (charAt k d + 1) = n)),
      (decide (Z.to_nat (charAt k d + 1) < S n)%nat);
      try lia; rewrite ?app_nil_r; reflexivity.
Qed.

(** The pass is stable. *)
Lemma stable_bucketed (d : Z) (l : list A) :
  (forall x, x ∈ l -> -1 <= charAt (key x) d < R) ->
  stable key l (bucketed key d (S (Z.to_nat R)) l).
Proof.
  intros Hs k. rewrite filter_key_bucketed.
  destruct (decide (Z.to_nat (charAt k d + 1) < S (Z.to_nat R))%nat) as [|Hge];
    [reflexivity|].
  symmetry. apply filter_none. intros x Hx Ek.
  specialize (Hs x Hx). rewrite Ek in Hs. lia.
Qed.
End Stable.

(** ** msdRadixSortPure *)

Section RadixSort.
Context {A : Type} (key : A -> string) (dflt : A).

Lemma bucket_loop_spec
    (self : list A -> Z -> Z -> Z -> Z -> outcome (list A * Z))
    (d : Z) (l pre post : list A) (count : list Z) :
  holds count (fun b => length (filter (fun x => (bucket key d x < S b)%nat) l)) ->
  (forall b pre' post' comps',
     (1 <= b <= Z.to_nat R)%nat -> wrap64 comps' = comps' ->
     Z.of_nat (length (pre' ++ filter (fun x => bucket key d x = b) l ++ post'))
       < 2 ^ 63 ->
     exists out c',
       self (pre' ++ filter (fun x => bucket key d x = b) l ++ post')
         (Z.of_nat (length pre'))
         (Z.of_nat (length pre')
          + Z.of_nat (length (filter (fun x => bucket key d x = b) l)))
         (size_add d 1) comps'
       = Done (pre' ++ out ++ post', c') /\
       wrap64 c' = c' /\
       stable key (filter (fun x => bucket key d x = b) l) out) ->
  forall (n r : nat) (D : list A) (comps : Z),
    (r + n = Z.to_nat R)%nat -> wrap64 comps = comps ->
    stable key (bucketed key d (S r) l) D ->
    Z.of_nat (length (pre ++ D
      ++ concat (map (fun b => filter (fun x => bucket key d x = b) l) (seq (S r) n))
      ++ post)) < 2 ^ 63 ->
    exists out c',
      bucket_loop self n
        (pre ++ D
         ++ concat (map (fun b => filter (fun x => bucket key d x = b) l) (seq (S r) n))
         ++ post)
        count (Z.of_nat (length pre)) (Z.of_nat r) d comps
      = Done (pre ++ out ++ post, c') /\
      wrap64 c' = c' /\
      stable key (bucketed key d (S (Z.to_nat R)) l) out.
Proof.
  intros Hh Hself n. change (Z.to_nat R) with 74%nat in *.
  induction n as [|n IH]; intros r D comps Hrn Hc HD Hlen.
  - simpl. rewrite Nat.add_0_r in Hrn. subst r.
    exists D, comps. auto.
  - cbn [bucket_loop].
    rewrite (holds_get _ _ _ Hh) by (unfold R; lia).
    rewrite (holds_get _ _ (Z.of_nat r + 1) Hh) by (unfold R; lia). cbn [bind].
    rewrite Nat2Z.id. replace (Z.to_nat (Z.of_nat r + 1)) with (S r) by lia.
    pose proof (stable_length _ _ _ HD) as HlD. rewrite length_bucketed in HlD.
    rewrite <- HlD. rewrite (below_S key d (S r)), <- HlD.
    cbn [seq map concat] in Hlen |- *.
    set (Bk := filter (fun x => bucket key d x = S r) l) in *.
    set (rest := concat (map (fun b => filter (fun x => bucket key d x = b) l)
                          (seq (S (S r)) n))) in *.
    rewrite !length_app in Hlen.
    assert (E1 : size_add (Z.of_nat (length pre)) (Z.of_nat (length D))
                 = Z.of_nat (length (pre ++ D))).
    { unfold size_add. rewrite wrap64_small; rewrite ?length_app; lia. }
    assert (E2 : size_add (Z.of_nat (length pre))
                   (Z.of_nat (length D + length Bk))
                 = Z.of_nat (length (pre ++ D)) + Z.of_nat (length Bk)).
    { unfold size_add. rewrite wrap64_small; rewrite ?length_app; lia. }
    rewrite E1, E2.
    replace (pre ++ D ++ (Bk ++ rest) ++ post)
      with ((pre ++ D) ++ Bk ++ (rest ++ post))
      by (rewrite <- !app_assoc; reflexivity).
    destruct (Hself (S r) (pre ++ D) (rest ++ post) comps)
      as (outb & cb & E & Hcb & Hsb); [lia | exact Hc | |].
    { rewrite !length_app. fold Bk. lia. }
    fold Bk in E, Hsb. rewrite E. cbn [bind].
    pose proof (stable_length _ _ _ Hsb) as Hlb.
    replace ((pre ++ D) ++ outb ++ rest ++ post)
      with (pre ++ (D ++ outb) ++ rest ++ post)
      by (rewrite <- !app_assoc; reflexivity).
    replace (Z.of_nat r + 1) with (Z.of_nat (S r)) by lia.
    apply IH; [lia | exact Hcb | |].
    + rewrite bucketed_S. apply stable_app; assumption.
    + rewrite !length_app. fold rest. lia.
Qed.

Lemma max_size_ge (arr : list A) (x : A) :
  x ∈ arr -> (String.length (key x) <= max_size key arr)%nat.
Proof.
  induction arr as [|y arr IH]; intros Hx; [inversion Hx|].
  simpl. apply elem_of_cons in Hx as [->|Hx]; [lia|].
  specialize (IH Hx). lia.
Qed.

Lemma max_size_le (arr : list A) (n : nat) :
  (forall x, x ∈ arr -> (String.length (key x) <= n)%nat) ->
  (max_size key arr <= n)%nat.
Proof.
  induction arr as [|y arr IH]; intros Hn; simpl; [lia|].
  pose proof (Hn y ltac:(left)).
  assert (max_size key arr <= n)%nat by (apply IH; intros x Hx; apply Hn; right; exact Hx).
  lia.
Qed.

Lemma msdRadixSortPure_spec (fuel : nat) :
  forall (pre l post : list A) (d comps : Z),
    wrap64 comps = comps -> 0 <= d -> d + Z.of_nat fuel < 2 ^ 63 ->
    Z.of_nat (length (pre ++ l ++ post)) < 2 ^ 63 ->
    no_full_stop key l ->
    (forall x, x ∈ l -> d <= size (key x) < d + Z.of_nat fuel) ->
    exists out comps',
      msdRadixSortPure key dflt fuel (pre ++ l ++ post)
        (Z.of_nat (length pre)) (Z.of_nat (length pre) + Z.of_nat (length l))
        d comps
      = Done (pre ++ out ++ post, comps') /\
      wrap64 comps' = comps' /\ stable key l out.
Proof.
  induction fuel as [|fuel IH]; intros pre l post d comps Hc Hd Hdf Hlen Hno Hsz.
  - assert (length l <= 1)%nat as Hl.
    { destruct l as [|x l]; [simpl; lia|]. specialize (Hsz x ltac:(left)). lia. }
    rewrite !length_app in Hlen.
    cbn [msdRadixSortPure]. unfold size_add. rewrite wrap64_small by lia.
    destruct (Z.leb_spec (Z.of_nat (length pre) + Z.of_nat (length l))
                (Z.of_nat (length pre) + 1)); [|lia].
    exists l, comps. split; [reflexivity|]. split; [exact Hc | apply stable_refl].
  - pose proof Hlen as Hlen'. rewrite !length_app in Hlen'.
    cbn [msdRadixSortPure]. unfold size_add at 1. rewrite wrap64_small by lia.
    destruct (Z.leb_spec (Z.of_nat (length pre) + Z.of_nat (length l))
                (Z.of_nat (length pre) + 1)).
    { exists l, comps. split; [reflexivity|]. split; [exact Hc | apply stable_refl]. }
    assert (Hs : forall x, x ∈ l -> -1 <= charAt (key x) d < R).
    { intros x Hx. apply charAt_below_R, Hno, Hx. }
    destruct (radix_pass_spec key dflt pre l post d comps Hc Hlen Hs)
      as (count & -> & Hh).
    cbn [bind].
    assert (Hb1 : bucketed key d (S (Z.to_nat R)) l
                  = bucketed key d 1 l
                    ++ concat (map (fun b => filter (fun x => bucket key d x = b) l)
                                 (seq 1 (Z.to_nat R)))).
    { unfold bucketed. change (S (Z.to_nat R)) with (1 + Z.to_nat R)%nat.
      rewrite seq_app, map_app, concat_app. reflexivity. }
    rewrite Hb1, <- app_assoc.
    destruct (bucket_loop_spec (msdRadixSortPure key dflt fuel) d l pre post count Hh)
      with (n := Z.to_nat R) (r := O) (D := bucketed key d 1 l) (comps :=
              wrap64 (comps + Z.of_nat (length l)))
      as (out & c' & E & Hc' & Hst).
    + intros b pre' post' comps' Hb Hcb Hlb.
      assert (Ed : size_add d 1 = d + 1) by (unfold size_add; rewrite wrap64_small; lia).
      rewrite Ed. apply IH; [exact Hcb | lia | lia | exact Hlb | |].
      * intros x Hx. apply Hno. apply list_elem_of_filter in Hx as [_ Hx]. exact Hx.
      * intros x Hx. apply list_elem_of_filter in Hx as [Hbx Hx].
        specialize (Hsz x Hx).
        assert (0 <= charAt (key x) d) by (unfold bucket in Hbx; lia).
        pose proof (charAt_inside (key x) d Hd ltac:(assumption)). lia.
    + reflexivity.
    + apply wrap64_wrap.
    + apply stable_refl.
    + rewrite (app_assoc (bucketed key d 1 l)), <- Hb1.
      rewrite !length_app,
        (stable_length key l (bucketed key d (S (Z.to_nat R)) l))
        by (apply stable_bucketed; exact Hs).
      rewrite !length_app in Hlen. exact Hlen.
    + change (Z.of_nat 0) with 0 in E. rewrite E.
      exists out, c'. split; [reflexivity|]. split; [exact Hc'|].
      eapply stable_trans; [apply stable_bucketed; exact Hs | exact Hst].
Qed.
End RadixSort.

(** ** Stability of [run] *)

Section RunStable.
Context {A : Type} (key : A -> string) (dflt : A) (signed_char : bool).
Context (std_sort : (A -> A -> Z -> bool * Z) -> list A -> Z -> list A * Z).

(** C5.  [StdMergeLCP] is stable on every sequence, and so is
    [MsdRadixPure] on every sequence whose strings do not contain the full
    stop: each run ends, and any two elements with equal strings are in
    the order they had.  (Sizes are those a [std::vector] and a
    [std::string] can have.) *)
Theorem run_stable (arr : list A) (t : StringSortTester) (start stop : Z) :
  Z.of_nat (length arr) < 2 ^ 63 ->
  stable_run key arr
    (run key dflt signed_char std_sort StdMergeLCP arr t start stop) /\
  ((forall x, x ∈ arr -> size (key x) < 2 ^ 62) ->
   no_full_stop key arr ->
   stable_run key arr
     (run key dflt signed_char std_sort MsdRadixPure arr t start stop)).
Proof.
  intros Hlen. split.
  - destruct (mergeSortLCP_spec key (length arr) [] arr [] 0)
      as (out & c & E & _ & _ & _ & Hst);
      [reflexivity | simpl; rewrite app_nil_r; exact Hlen | lia |].
    cbn [app length] in E. rewrite !app_nil_r in E.
    change (Z.of_nat 0) with 0 in E. rewrite Z.add_0_l in E.
    unfold stable_run, run, run_switch. simpl tester_comps. rewrite E. cbn [bind].
    eexists _, _, _. split; [reflexivity | exact Hst].
  - intros Hsz Hno.
    assert (Hmax : Z.of_nat (max_size key arr) < 2 ^ 62).
    { assert (max_size key arr <= Z.to_nat (2 ^ 62 - 1))%nat; [|lia].
      apply max_size_le. intros x Hx. specialize (Hsz x Hx). unfold size in Hsz. lia. }
    destruct (msdRadixSortPure_spec key dflt (S (max_size key arr)) [] arr [] 0 0)
      as (out & c & E & _ & Hst);
      [reflexivity | lia | lia | simpl; rewrite app_nil_r; exact Hlen | exact Hno | |].
    { intros x Hx. pose proof (max_size_ge key arr x Hx). unfold size. lia. }
    cbn [app length] in E. rewrite !app_nil_r in E.
    change (Z.of_nat 0) with 0 in E. rewrite Z.add_0_l in E.
    unfold stable_run, run, run_switch. simpl tester_comps. rewrite E. cbn [bind].
    eexists _, _, _. split; [reflexivity | exact Hst].
Qed.
End RunStable.

Lemma run_stable_witness :
  stable_run fst [("b", 1); ("a", 1); ("b", 2); ("a", 2)]%string%nat
    (run fst (EmptyString, O) true insertion_sort StdMergeLCP
       [("b", 1); ("a", 1); ("b", 2); ("a", 2)]%string%nat
       {| tester_comps := 0 |} 0 0) /\
  stable_run fst [("b", 1); ("a", 1); ("b", 2); ("a", 2)]%string%nat
    (run fst (EmptyString, O) true insertion_sort MsdRadixPure
       [("b", 1); ("a", 1); ("b", 2); ("a", 2)]%string%nat
       {| tester_comps := 0 |} 0 0).
Proof.
  destruct (run_stable (A:=string * nat) fst (EmptyString, O) true insertion_sort
              [("b", 1); ("a", 1); ("b", 2); ("a", 2)]%string%nat
              {| tester_comps := 0 |} 0 0) as [Hm Hr]; [simpl; lia|].
  split; [exact Hm|]. apply Hr.
  - intros x Hx. repeat (apply elem_of_cons in Hx as [->|Hx]; [vm_compute; reflexivity|]).
    inversion Hx.
  - intros x Hx. repeat (apply elem_of_cons in Hx as [->|Hx];
                         [vm_compute; intuition discriminate|]).
    inversion Hx.
Defined.

(** [MsdRadix] is not stable: the fallback below the cutoff swaps the two
    elements with string "c" past each other. *)
Lemma msdRadix_cutoff_unstable :
  ~ stable_run fst [("b", 1); ("c", 1); ("c", 2); ("a", 1)]%string%nat
      (run fst (EmptyString, O) true insertion_sort MsdRadix
         [("b", 1); ("c", 1); ("c", 2); ("a", 1)]%string%nat
         {| tester_comps := 0 |} 0 0).
Proof.
  intros (r & arr' & t & E & Hst).
  vm_compute in E. injection E as <- <- <-.
  specialize (Hst "c"%string). vm_compute in Hst. discriminate Hst.
Qed.

(** [StdMergeLCP] does sort: its run ends with the strings of the sequence
    in non-decreasing order. *)
Lemma run_merge_sorted sc std (arr : list string) t start stop :
  Z.of_nat (length arr) < 2 ^ 63 ->
  exists r arr' t',
    run_strings sc std StdMergeLCP arr t start stop = Done (r, arr', t') /\
    nondecreasing arr' /\ arr' ≡ₚ arr.
Proof.
  intros Hlen.
  destruct (mergeSortLCP_spec id (length arr) [] arr [] 0)
    as (out & c & E & _ & Hs & Hp & _);
    [reflexivity | simpl; rewrite app_nil_r; exact Hlen | lia |].
  cbn [app length] in E. rewrite !app_nil_r in E.
  change (Z.of_nat 0) with 0 in E. rewrite Z.add_0_l in E.
  unfold run_strings, run, run_switch. simpl tester_comps. rewrite E. cbn [bind].
  eexists _, _, _. split; [reflexivity|]. split; [exact Hs | exact Hp].
Qed.

(** [TernaryQuick] ends and keeps the multiset of the sequence, sorted or
    not. *)
Lemma run_ternary_permutes sc std (arr : list string) t start stop :
  Z.of_nat (length arr) < 2 ^ 31 ->
  exists r arr' t',
    run_strings sc std TernaryQuick arr t start stop = Done (r, arr', t') /\
    arr' ≡ₚ arr.
Proof.
  intros Hlen. unfold run_strings, run, run_switch. simpl tester_comps.
  assert (Hhi : to_int (size_sub (Z.of_nat (length arr)) 1)
                = Z.of_nat (length arr) - 1).
  { destruct arr as [|x arr]; [reflexivity|].
    unfold size_sub. rewrite wrap64_small by (simpl length in *; lia).
    apply to_int_small. simpl length in *. lia. }
  rewrite Hhi.
  destruct (ternaryQuickSort_total id (length arr) arr 0
              (Z.of_nat (length arr) - 1) 0)
    as (arr' & c & -> & _ & Hp & _); [reflexivity | lia | lia | lia | lia |].
  cbn [bind]. eexists _, _, _. split; [reflexivity | exact Hp].
Qed.

(** * Further properties of the code *)

(** ** The table *)

(** X1.  Looking a character up and reading the table at the index found
    are inverse to each other: [charToIndex c] is [i] exactly when the
    table holds [c] at [i] (so no character occurs twice), and it is -1
    exactly when [c] is nowhere in the table. *)
Theorem charToIndex_round_trip :
  (forall c i, 0 <= i ->
     (charToIndex c = i <-> String.get (Z.to_nat i) alpha = Some c)) /\
  (forall c, charToIndex c = -1 <-> ~ In c (list_ascii_of_string alpha)).
Proof.
  split.
  - intros c i Hi. split.
    + unfold charToIndex. destruct (find c alpha 0) as [p|] eqn:E; [|lia].
      apply find_Some in E as [Hp Hg]. change (size alpha) with 75 in Hp.
      rewrite to_int_small by lia. intros <-. rewrite Z.sub_0_r in Hg. exact Hg.
    + intros Hget.
      assert (Hn : (Z.to_nat i < 75)%nat).
      { destruct (Nat.lt_ge_cases (Z.to_nat i) 75) as [|Hge]; [assumption|].
        rewrite get_past_end in Hget by exact Hge. discriminate. }
      replace i with (Z.of_nat (Z.to_nat i)) by lia.
      revert Hget Hn. generalize (Z.to_nat i) as n. intros n Hget Hn.
      do 75 (destruct n as [|n]; [injection Hget as <-; vm_compute; reflexivity|]).
      lia.
  - intros c. rewrite <- (find_None c alpha 0). unfold charToIndex.
    destruct (find c alpha 0) as [p|] eqn:E; [|tauto].
    apply find_Some in E as [Hp _]. change (size alpha) with 75 in Hp.
    rewrite to_int_small by lia. split; [lia | discriminate].
Qed.

Lemma charToIndex_round_trip_witness :
  charToIndex "0" = 52 /\ String.get 52 alpha = Some "0"%char.
Proof.
  destruct charToIndex_round_trip as [Hrt _].
  split.
  - apply (Hrt "0"%char 52); [lia | reflexivity].
  - apply (Hrt "0"%char 52); [lia | reflexivity].
Defined.

(** X2.  [charAt] is the sentinel -1 exactly at a position at or past the
    end of the string or at a character that is not in the table; any
    other value is the table index of the character at that position, and
    is at most 74. *)
Theorem charAt_sentinel (s : string) (d : Z) :
  0 <= d ->
  (charAt s d = -1 <->
     size s <= d \/
     exists c, String.get (Z.to_nat d) s = Some c /\
               ~ In c (list_ascii_of_string alpha)) /\
  (0 <= charAt s d ->
     d < size s /\ charAt s d <= 74 /\
     exists c, String.get (Z.to_nat d) s = Some c /\
               String.get (Z.to_nat (charAt s d)) alpha = Some c).
Proof.
  intros Hd. destruct charToIndex_round_trip as [Hrt Hout].
  unfold charAt. destruct (Z.ltb_spec d (size s)) as [Hlt|Hge].
  - destruct (get_inside s (Z.to_nat d)) as [c Hc]; [unfold size in Hlt; lia|].
    rewrite Hc. split.
    + rewrite Hout. split.
      * intros Hn. right. exists c. auto.
      * intros [?|(c' & [= <-] & Hn)]; [lia | exact Hn].
    + intros Hpos. split; [exact Hlt|].
      split; [apply charToIndex_range|].
      exists c. split; [reflexivity|]. apply Hrt; [exact Hpos | reflexivity].
  - split; [|lia]. split; [left; exact Hge | reflexivity].
Qed.

Lemma charAt_sentinel_witness :
  (charAt "AB " 2 = -1 <->
     size "AB " <= 2 \/
     exists c, String.get (Z.to_nat 2) "AB " = Some c /\
               ~ In c (list_ascii_of_string alpha)) /\
  (0 <= charAt "AB " 2 ->
     2 < size "AB " /\ charAt "AB " 2 <= 74 /\
     exists c, String.get (Z.to_nat 2) "AB " = Some c /\
               String.get (Z.to_nat (charAt "AB " 2)) alpha = Some c).
Proof. apply (charAt_sentinel "AB "%string 2). lia. Defined.

(** ** suffixLess and operator< *)

Lemma char_lt_unsigned sc x y :
  sc = false \/ ((N_of_ascii x < 128)%N /\ (N_of_ascii y < 128)%N) ->
  char_lt sc x y
  = match Ascii.compare x y with Lt => true | _ => false end.
Proof.
  intros Hsc. unfold char_lt, char_val, Ascii.compare.
  assert (Ex : (if sc && (128 <=? Z.of_N (N_of_ascii x))
                then Z.of_N (N_of_ascii x) - 256 else Z.of_N (N_of_ascii x))
               = Z.of_N (N_of_ascii x)).
  { destruct Hsc as [->|[Hx _]]; [reflexivity|].
    destruct (Z.leb_spec 128 (Z.of_N (N_of_ascii x))); [lia|].
    rewrite andb_false_r. reflexivity. }
  assert (Ey : (if sc && (128 <=? Z.of_N (N_of_ascii y))
                then Z.of_N (N_of_ascii y) - 256 else Z.of_N (N_of_ascii y))
               = Z.of_N (N_of_ascii y)).
  { destruct Hsc as [->|[_ Hy]]; [reflexivity|].
    destruct (Z.leb_spec 128 (Z.of_N (N_of_ascii y))); [lia|].
    rewrite andb_false_r. reflexivity. }
  cbv zeta. rewrite Ex, Ey.
  destruct (N.compare_spec (N_of_ascii x) (N_of_ascii y));
    destruct (Z.ltb_spec (Z.of_N (N_of_ascii x)) (Z.of_N (N_of_ascii y)));
    try reflexivity; lia.
Qed.

Lemma lex_lt_ltb sc a b :
  sc = false \/ (seven_bit a /\ seven_bit b) ->
  lex_lt (char_lt sc) a b = (a <? b)%string.
Proof.
  revert b. induction a as [|x a IH]; intros [|y b] Hsc; try reflexivity.
  assert (Hxy : sc = false \/ ((N_of_ascii x < 128)%N /\ (N_of_ascii y < 128)%N)).
  { destruct Hsc as [->|[Ha Hb]]; [left; reflexivity|].
    right. split; [apply Ha | apply Hb]; left; reflexivity. }
  assert (Hyx : sc = false \/ ((N_of_ascii y < 128)%N /\ (N_of_ascii x < 128)%N))
    by tauto.
  assert (Hab : sc = false \/ (seven_bit a /\ seven_bit b)).
  { destruct Hsc as [->|[Ha Hb]]; [left; reflexivity|].
    right. split; intros c Hc; [apply Ha | apply Hb]; right; exact Hc. }
  cbn [lex_lt]. rewrite (char_lt_unsigned sc x y Hxy), (char_lt_unsigned sc y x Hyx).
  rewrite (IH b Hab). unfold String.ltb. cbn [String.compare].
  rewrite (Ascii.compare_antisym x y).
  destruct (Ascii.compare y x); reflexivity.
Qed.

Lemma string_drop_In (n : nat) s c :
  In c (list_ascii_of_string (string_drop n s)) -> In c (list_ascii_of_string s).
Proof.
  revert s. induction n as [|n IH]; intros [|x s] H; try exact H.
  right. apply IH. exact H.
Qed.

(** X3.  At an offset inside both strings, [suffixLess] returns what
    [operator<] returns on the two suffixes, provided plain [char] is
    unsigned or all characters are below 128 (as those of the table
    are). *)
Theorem suffixLess_is_string_less (sc : bool) (a b : string) (d comps : Z) :
  0 <= d <= size a -> d <= size b ->
  sc = false \/ (seven_bit a /\ seven_bit b) ->
  exists comps',
    suffixLess sc a b d comps
    = Done ((string_drop (Z.to_nat d) a <? string_drop (Z.to_nat d) b)%string,
            comps').
Proof.
  intros Ha Hb Hsc. rewrite suffixLess_spec by lia.
  eexists. f_equal. f_equal. unfold suffix_lt.
  destruct (Z.leb_spec d (size a)); [|lia].
  destruct (Z.leb_spec d (size b)); [|lia]. cbn [andb].
  apply lex_lt_ltb. destruct Hsc as [->|[Ha7 Hb7]]; [left; reflexivity|].
  right. split; intros c Hc; [apply Ha7 | apply Hb7];
    eapply string_drop_In; exact Hc.
Qed.

Lemma suffixLess_is_string_less_witness :
  exists comps',
    suffixLess true "abd" "abc" 1 0
    = Done ((string_drop (Z.to_nat 1) "abd" <? string_drop (Z.to_nat 1) "abc")%string,
            comps').
Proof.
  apply suffixLess_is_string_less.
  - vm_compute. split; discriminate.
  - vm_compute. discriminate.
  - right. split; intros c Hc; vm_compute in Hc;
      repeat (destruct Hc as [<-|Hc]; [vm_compute; reflexivity|]); destruct Hc.
Defined.

(** ** lcp *)

Lemma common_prefix_spec (a b : string) :
  let r := common_prefix a b in
  (r <= String.length a)%nat /\ (r <= String.length b)%nat /\
  (forall i, (i < r)%nat -> String.get i a = String.get i b) /\
  (r = String.length a \/ r = String.length b \/
   String.get r a <> String.get r b).
Proof.
  revert b. induction a as [|x a IH]; intros [|y b]; cbn [common_prefix].
  - simpl. repeat split; auto; intros; lia.
  - simpl. repeat split; auto; try lia; intros; lia.
  - simpl. repeat split; auto; try lia; intros; lia.
  - destruct (Ascii.eqb_spec x y) as [->|Hne].
    + destruct (IH b) as (H1 & H2 & H3 & H4). cbv zeta. simpl.
      repeat split; try lia.
      * intros [|i] Hi; [reflexivity|]. simpl. apply H3. lia.
      * destruct H4 as [->|[->|H4]]; auto.
    + cbv zeta. split; [lia|]. split; [lia|]. split; [intros; lia|].
      right. right. simpl. congruence.
Qed.

Lemma lcp_loop_spec (fuel : nat) (a b : string) (i : Z) :
  0 <= i -> size a < 2 ^ 31 -> size b < 2 ^ 31 ->
  size a - i <= Z.of_nat fuel ->
  lcp_loop fuel a b i
  = Done (i + Z.of_nat (common_prefix (string_drop (Z.to_nat i) a)
                          (string_drop (Z.to_nat i) b))).
Proof.
  intros Hi Ha Hb. revert i Hi.
  assert (Ea : to_int (size a) = size a) by (apply to_int_small; unfold size in *; lia).
  assert (Eb : to_int (size b) = size b) by (apply to_int_small; unfold size in *; lia).
  induction fuel as [|fuel IH]; intros i Hi Hfuel; cbn [lcp_loop]; rewrite Ea, Eb.
  - destruct (Z.ltb_spec i (size a)); [lia|]. cbn [andb].
    rewrite (string_drop_past a) by (unfold size in *; lia). simpl.
    f_equal. lia.
  - destruct (Z.ltb_spec i (size a)) as [Hia|Hia].
    + destruct (Z.ltb_spec i (size b)) as [Hib|Hib]; cbn [andb].
      * destruct (get_inside a (Z.to_nat i)) as [x Hx]; [unfold size in *; lia|].
        destruct (get_inside b (Z.to_nat i)) as [y Hy]; [unfold size in *; lia|].
        unfold sget. destruct (Z.leb_spec 0 i); [|lia]. rewrite Hx, Hy. cbn [bind].
        rewrite (string_drop_get _ _ _ Hx), (string_drop_get _ _ _ Hy).
        cbn [common_prefix]. destruct (Ascii.eqb x y).
        -- rewrite IH by lia.
           replace (Z.to_nat (i + 1)) with (S (Z.to_nat i)) by lia.
           f_equal. lia.
        -- f_equal. simpl. lia.
      * rewrite (string_drop_past b) by (unfold size in *; lia).
        destruct (string_drop (Z.to_nat i) a); simpl; f_equal; lia.
    + cbn [andb]. rewrite (string_drop_past a) by (unfold size in *; lia).
      simpl. f_equal. lia.
Qed.

(** X4.  For strings shorter than 2^31, [lcp] returns the length [r] of
    the longest common prefix: [r] is at most either length, the two
    strings agree at every position before [r], and at [r] one of them
    ends or they differ.  [suffixLess] from offset 0 charges [r + 1]
    increments. *)
Theorem lcp_longest_common_prefix (sc : bool) (a b : string) (comps : Z) :
  size a < 2 ^ 31 -> size b < 2 ^ 31 ->
  exists r : nat,
    lcp a b = Done (Z.of_nat r) /\
    (r <= String.length a)%nat /\ (r <= String.length b)%nat /\
    (forall i, (i < r)%nat -> String.get i a = String.get i b) /\
    (r = String.length a \/ r = String.length b \/
     String.get r a <> String.get r b) /\
    exists less,
      suffixLess sc a b 0 comps = Done (less, wrap64 (comps + Z.of_nat r + 1)).
Proof.
  intros Ha Hb. exists (common_prefix a b).
  unfold lcp. rewrite lcp_loop_spec by (unfold size in *; lia).
  split; [reflexivity|].
  destruct (common_prefix_spec a b) as (H1 & H2 & H3 & H4).
  repeat split; try assumption.
  rewrite suffixLess_spec by lia. eexists. reflexivity.
Qed.

Lemma lcp_longest_common_prefix_witness :
  exists r : nat,
    lcp "apple" "apply" = Done (Z.of_nat r) /\
    (r <= String.length "apple")%nat /\ (r <= String.length "apply")%nat /\
    (forall i, (i < r)%nat -> String.get i "apple" = String.get i "apply") /\
    (r = String.length "apple" \/ r = String.length "apply" \/
     String.get r "apple" <> String.get r "apply") /\
    exists less,
      suffixLess true "apple" "apply" 0 0 = Done (less, wrap64 (0 + Z.of_nat r + 1)).
Proof.
  apply lcp_longest_common_prefix; vm_compute; reflexivity.
Defined.

(** ** The comparison sorts on a range *)

Section RangeSorts.
Context {A : Type} (key : A -> string).

(** X5.  [mergeSortLCP] on a range [left, right) of a sequence ends, leaves
    every element outside the range where it was, and leaves the range a
    permutation of what it held, in non-decreasing order of the strings. *)
Theorem mergeSortLCP_sorts_range (fuel : nat) (pre l post : list A) (comps : Z) :
  wrap64 comps = comps ->
  Z.of_nat (length (pre ++ l ++ post)) < 2 ^ 63 ->
  (length l <= S fuel)%nat ->
  exists out comps',
    mergeSortLCP key fuel (pre ++ l ++ post)
      (Z.of_nat (length pre)) (Z.of_nat (length pre) + Z.of_nat (length l)) comps
    = Done (pre ++ out ++ post, comps') /\
    Sorted (key_le key) out /\ out ≡ₚ l.
Proof.
  intros Hc Hlen Hfuel.
  destruct (mergeSortLCP_spec key fuel pre l post comps Hc Hlen Hfuel)
    as (out & c' & E & _ & Hs & Hp & _).
  exists out, c'. auto.
Qed.

(** The number of comparisons of a merge sort of [n] elements. *)
Lemma mergeSortLCP_count (fuel : nat) (pre l post : list A) (comps : Z) :
  wrap64 comps = comps ->
  Z.of_nat (length (pre ++ l ++ post)) < 2 ^ 63 ->
  (length l <= S fuel)%nat ->
  exists out (k : nat),
    mergeSortLCP key fuel (pre ++ l ++ post)
      (Z.of_nat (length pre)) (Z.of_nat (length pre) + Z.of_nat (length l)) comps
    = Done (pre ++ out ++ post, wrap64 (comps + Z.of_nat k)) /\
    length out = length l /\
    (k <= length l * Nat.log2_up (length l))%nat /\
    (length l / 2 <= k)%nat.
Proof.
  revert pre l post comps.
  induction fuel as [|fuel IH]; intros pre l post comps Hc Hlen Hfuel.
  - exists l, O. rewrite !length_app in Hlen.
    cbn [mergeSortLCP]. unfold size_sub. rewrite wrap64_small by lia.
    destruct (Z.leb_spec (Z.of_nat (length pre) + Z.of_nat (length l)
                          - Z.of_nat (length pre)) 1); [|lia].
    rewrite Z.add_0_r, Hc. repeat split; try lia.
    destruct l as [|x [|y l]]; simpl in *; try lia; reflexivity.
  - rewrite !length_app in Hlen.
    cbn [mergeSortLCP]. unfold size_sub at 1. rewrite wrap64_small by lia.
    destruct (Z.leb_spec (Z.of_nat (length pre) + Z.of_nat (length l)
                          - Z.of_nat (length pre)) 1) as [Hsmall|Hbig].
    { exists l, O. rewrite Z.add_0_r, Hc. repeat split; try lia.
      destruct l as [|x [|y l]]; simpl in *; try lia; reflexivity. }
    set (n := length l) in *.
    set (h := (n / 2)%nat).
    assert (Hh : (1 <= h /\ h < n)%nat).
    { unfold h. split.
      - apply Nat.div_le_lower_bound; lia.
      - apply Nat.div_lt; lia. }
    assert (Hh2 : (2 * h <= n /\ n <= 2 * h + 1)%nat).
    { unfold h. pose proof (Nat.div_mod_eq n 2).
      pose proof (Nat.mod_upper_bound n 2). lia. }
    assert (Hmid : size_add (Z.of_nat (length pre))
                     (Z.of_nat (length pre) + Z.of_nat n) / 2
                   = Z.of_nat (length pre) + Z.of_nat h).
    { unfold size_add. rewrite wrap64_small by lia.
      unfold h. rewrite Nat2Z.inj_div. simpl Z.of_nat.
      replace (Z.of_nat (length pre) + (Z.of_nat (length pre) + Z.of_nat n))
        with (Z.of_nat n + Z.of_nat (length pre) * 2) by lia.
      rewrite Z.div_add by lia. lia. }
    rewrite Hmid.
    set (l1 := take h l). set (l2 := drop h l).
    assert (El : l = l1 ++ l2) by (symmetry; apply take_drop).
    assert (Hl1 : length l1 = h) by (unfold l1; rewrite length_take; lia).
    assert (Hl2 : (length l2 = n - h)%nat) by (unfold l2; apply length_drop).
    destruct (IH pre l1 (l2 ++ post) comps) as (out1 & k1 & E1 & Hlo1 & Hk1 & Hw1);
      [exact Hc | rewrite !length_app; lia | lia |].
    rewrite Hl1 in E1, Hlo1, Hk1, Hw1.
    replace (pre ++ l ++ post) with (pre ++ l1 ++ l2 ++ post)
      by (rewrite El, <- app_assoc; reflexivity).
    rewrite E1. cbn [bind].
    destruct (IH (pre ++ out1) l2 post (wrap64 (comps + Z.of_nat k1)))
      as (out2 & k2 & E2 & Hlo2 & Hk2 & Hw2);
      [apply wrap64_wrap | rewrite !length_app; lia | lia |].
    rewrite length_app, Hlo1, Hl2, Nat2Z.inj_add, <- app_assoc in E2.
    rewrite Hl2 in Hlo2, Hk2, Hw2.
    replace (Z.of_nat (length pre) + Z.of_nat h + Z.of_nat (n - h))
      with (Z.of_nat (length pre) + Z.of_nat n) in E2 by lia.
    rewrite E2. cbn [bind].
    destruct (merge_halves_spec key pre out1 out2 post
                (wrap64 (wrap64 (comps + Z.of_nat k1) + Z.of_nat k2)))
      as (km & copied & E3 & Hsum & _ & Hone);
      [apply wrap64_wrap | rewrite !length_app; lia |].
    rewrite Hlo1, Hlo2 in E3, Hsum.
    replace (Z.of_nat (length pre) + Z.of_nat h + Z.of_nat (n - h))
      with (Z.of_nat (length pre) + Z.of_nat n) in E3 by lia.
    rewrite <- (app_assoc pre out1), E3.
    destruct Hone as [Hkm Hcp];
      [destruct out1; [simpl in Hlo1; lia | discriminate]
      |destruct out2; [simpl in Hlo2; lia | discriminate] |].
    exists (list_merge (key_le key) out1 out2), (k1 + k2 + km)%nat.
    split; [do 2 f_equal; wrap_lia|].
    split.
    { rewrite (Permutation_length (merge_Permutation _ _ _)), length_app. lia. }
    assert (HL : (1 <= Nat.log2_up n)%nat).
    { apply Nat.log2_up_lt_pow2; simpl; lia. }
    assert (Hpow : (n <= 2 ^ Nat.log2_up n)%nat).
    { apply Nat.log2_up_spec. lia. }
    assert (Hp2 : (2 ^ Nat.log2_up n = 2 * 2 ^ (Nat.log2_up n - 1))%nat).
    { replace (Nat.log2_up n) with (S (Nat.log2_up n - 1)) at 1 by lia.
      apply Nat.pow_succ_r'. }
    assert (L1 : (Nat.log2_up h <= Nat.log2_up n - 1)%nat).
    { apply Nat.log2_up_le_pow2; lia. }
    assert (L2 : (Nat.log2_up (n - h) <= Nat.log2_up n - 1)%nat).
    { apply Nat.log2_up_le_pow2; lia. }
    split.
    + assert (k1 <= h * (Nat.log2_up n - 1))%nat
        by (etransitivity; [exact Hk1 | apply Nat.mul_le_mono_l; exact L1]).
      assert (k2 <= (n - h) * (Nat.log2_up n - 1))%nat
        by (etransitivity; [exact Hk2 | apply Nat.mul_le_mono_l; exact L2]).
      nia.
    + fold h. pose proof (Nat.div_mod_eq h 2). pose proof (Nat.div_mod_eq (n - h) 2).
      pose proof (Nat.mod_upper_bound h 2). pose proof (Nat.mod_upper_bound (n - h) 2).
      lia.
Qed.

(** X6.  A merge sort of a range of [n] elements advances the counter by a
    number of comparisons between [n / 2] and [n * ceil(log2 n)] (zero for
    [n <= 1]), whatever the strings are. *)
Theorem mergeSortLCP_comparisons (fuel : nat) (pre l post : list A) (comps : Z) :
  wrap64 comps = comps ->
  Z.of_nat (length (pre ++ l ++ post)) < 2 ^ 63 ->
  (length l <= S fuel)%nat ->
  exists arr' (k : nat),
    mergeSortLCP key fuel (pre ++ l ++ post)
      (Z.of_nat (length pre)) (Z.of_nat (length pre) + Z.of_nat (length l)) comps
    = Done (arr', wrap64 (comps + Z.of_nat k)) /\
    (length l / 2 <= k <= length l * Nat.log2_up (length l))%nat.
Proof.
  intros Hc Hlen Hfuel.
  destruct (mergeSortLCP_count fuel pre l post comps Hc Hlen Hfuel)
    as (out & k & E & _ & Hup & Hlow).
  exists (pre ++ out ++ post), k. split; [exact E | lia].
Qed.

(** X7.  [ternaryQuickSort] on positions [lo..hi] inside the sequence,
    with [hi] below the largest [int] so that no cursor leaves the range of
    [int], ends without leaving the sequence, leaves a permutation of it
    that agrees with it outside [lo..hi], and advances the counter by at
    least [hi - lo] (what its first partitioning pass charges) and at most
    [n (n - 1) / 2] for the [n = hi - lo + 1] elements of the range. *)
Theorem ternaryQuickSort_range (fuel : nat) (arr : list A) (lo hi comps : Z) :
  wrap64 comps = comps ->
  0 <= lo -> lo < hi -> hi < Z.of_nat (length arr) -> hi < 2 ^ 31 - 1 ->
  hi - lo <= Z.of_nat fuel ->
  exists arr' k,
    ternaryQuickSort key fuel arr lo hi comps = Done (arr', wrap64 (comps + k)) /\
    arr' ≡ₚ arr /\ untouched lo hi arr arr' /\
    hi - lo <= k /\ 2 * k <= (hi - lo + 1) * (hi - lo).
Proof.
  intros Hc Hlo Hlt Hhi Hint Hfuel.
  destruct (ternaryQuickSort_total key fuel arr lo hi comps Hc Hlo Hhi Hint Hfuel)
    as (arr' & k & E & _ & Hp & Hu & _ & _ & Hb).
  exists arr', k. destruct (Hb Hlt). auto.
Qed.
End RangeSorts.

Lemma mergeSortLCP_sorts_range_witness :
  exists out comps',
    mergeSortLCP id 3 (["z"] ++ ["c"; "a"; "b"] ++ ["y"])
      (Z.of_nat (length ["z"%string]))
      (Z.of_nat (length ["z"%string])
       + Z.of_nat (length ["c"; "a"; "b"]%string)) 0
    = Done (["z"] ++ out ++ ["y"], comps') /\
    Sorted (key_le id) out /\ out ≡ₚ ["c"; "a"; "b"]%string.
Proof.
  apply (mergeSortLCP_sorts_range (A:=string) id 3 ["z"%string]
           ["c"; "a"; "b"]%string ["y"%string] 0);
    [reflexivity | simpl; lia | simpl; lia].
Defined.

Lemma mergeSortLCP_comparisons_witness :
  exists arr' (k : nat),
    mergeSortLCP id 3 ([] ++ ["c"; "a"; "b"] ++ [])
      (Z.of_nat (length (@nil string)))
      (Z.of_nat (length (@nil string))
       + Z.of_nat (length ["c"; "a"; "b"]%string)) 0
    = Done (arr', wrap64 (0 + Z.of_nat k)) /\
    (length ["c"; "a"; "b"]%string / 2 <= k
     <= length ["c"; "a"; "b"]%string
        * Nat.log2_up (length ["c"; "a"; "b"]%string))%nat.
Proof.
  apply (mergeSortLCP_comparisons (A:=string) id 3 [] ["c"; "a"; "b"]%string [] 0);
    [reflexivity | simpl; lia | simpl; lia].
Defined.

Lemma ternaryQuickSort_range_witness :
  exists arr' k,
    ternaryQuickSort id 2 ["z"; "b"; "a"; "c"]%string 1 3 0
    = Done (arr', wrap64 (0 + k)) /\
    arr' ≡ₚ ["z"; "b"; "a"; "c"]%string /\
    untouched 1 3 ["z"; "b"; "a"; "c"]%string arr' /\
    3 - 1 <= k /\ 2 * k <= (3 - 1 + 1) * (3 - 1).
Proof.
  apply (ternaryQuickSort_range (A:=string) id 2 ["z"; "b"; "a"; "c"]%string 1 3 0);
    [reflexivity | lia | lia | simpl; lia | lia | simpl; lia].
Defined.

(** ** The radix pass as a counting sort *)

Lemma StronglySorted_all {X : Type} (Rel : relation X) (l : list X) :
  (forall x y, x ∈ l -> y ∈ l -> Rel x y) -> StronglySorted Rel l.
Proof.
  induction l as [|x l IH]; intros Hall; constructor.
  - apply IH. intros y z Hy Hz. apply Hall; right; assumption.
  - apply Forall_forall. intros y Hy. apply Hall; [left | right; exact Hy].
Qed.

Lemma StronglySorted_on {X : Type} (R1 R2 : relation X) (l : list X) :
  (forall x y, x ∈ l -> y ∈ l -> R1 x y -> R2 x y) ->
  StronglySorted R1 l -> StronglySorted R2 l.
Proof.
  intros Himp Hs. induction Hs as [|x l Hs IH Hx]; constructor.
  - apply IH. intros y z Hy Hz. apply Himp; right; assumption.
  - rewrite Forall_forall in *. intros y Hy.
    apply Himp; [left | right; exact Hy | apply Hx; exact Hy].
Qed.

Section CountingSort.
Context {A : Type} (key : A -> string) (dflt : A).

Lemma elem_of_bucketed (d : Z) (n : nat) (l : list A) (x : A) :
  x ∈ bucketed key d n l <-> x ∈ l /\ (bucket key d x < n)%nat.
Proof.
  induction n as [|n IH].
  - unfold bucketed. simpl. split; [intros Hx; inversion Hx | lia].
  - rewrite bucketed_S, elem_of_app, IH, list_elem_of_filter.
    split; [intros [[? ?]|[? ?]]; split; auto; lia|].
    intros [Hx Hb]. destruct (decide (bucket key d x = n)); [right | left]; split;
      auto; lia.
Qed.

Lemma bucketed_sorted (d : Z) (n : nat) (l : list A) :
  StronglySorted (fun x y => (bucket key d x <= bucket key d y)%nat)
    (bucketed key d n l).
Proof.
  induction n as [|n IH]; [constructor|].
  rewrite bucketed_S. apply StronglySorted_app_2; [|exact IH|].
  - intros x y Hx Hy. apply elem_of_bucketed in Hx as [_ Hx].
    apply list_elem_of_filter in Hy as [Hy _]. lia.
  - apply StronglySorted_all. intros x y Hx Hy.
    apply list_elem_of_filter in Hx as [Hx _].
    apply list_elem_of_filter in Hy as [Hy _]. lia.
Qed.

(** X8.  One pass of the radix procedures over a range whose characters at
    depth [d] are not the full stop is a stable counting sort: the pass
    ends, charges one increment per element of the range, leaves the rest
    of the sequence alone, and leaves the range a permutation of itself in
    non-decreasing order of bucket, elements of equal strings in their
    former order; afterwards [count[b]] is the number of elements in
    buckets up to [b], the end of bucket [b] within the range. *)
Theorem radix_pass_counting_sort (pre l post : list A) (d comps : Z) :
  wrap64 comps = comps ->
  Z.of_nat (length (pre ++ l ++ post)) < 2 ^ 63 ->
  (forall x, x ∈ l -> charAt (key x) d < R) ->
  exists out count,
    radix_pass key dflt (pre ++ l ++ post)
      (Z.of_nat (length pre)) (Z.of_nat (length pre) + Z.of_nat (length l)) d comps
    = Done (pre ++ out ++ post, count, wrap64 (comps + Z.of_nat (length l))) /\
    out ≡ₚ l /\ stable key l out /\
    StronglySorted (fun x y => (bucket key d x <= bucket key d y)%nat) out /\
    forall b, (b <= Z.to_nat R)%nat ->
      count !! b
      = Some (Z.of_nat (length (filter (fun x => (bucket key d x <= b)%nat) l))).
Proof.
  intros Hc Hlen Hs.
  assert (Hs' : forall x, x ∈ l -> -1 <= charAt (key x) d < R).
  { intros x Hx. pose proof (charAt_range (key x) d). specialize (Hs x Hx). lia. }
  destruct (radix_pass_spec key dflt pre l post d comps Hc Hlen Hs')
    as (count & E & Hl & Hh).
  exists (bucketed key d (S (Z.to_nat R)) l), count.
  split; [exact E|].
  pose proof (stable_bucketed key d l Hs') as Hst.
  split; [apply (stable_Permutation key), Hst|].
  split; [exact Hst|]. split; [apply bucketed_sorted|].
  intros b Hb. rewrite Hh by (change (Z.to_nat (R + 2)) with 76%nat;
                             change (Z.to_nat R) with 74%nat in Hb; lia).
  do 3 f_equal. apply list_filter_iff. intros x. lia.
Qed.
End CountingSort.

Lemma radix_pass_counting_sort_witness :
  exists out count,
    radix_pass id EmptyString ([] ++ ["b"; "a"; "b!"] ++ [])
      (Z.of_nat (length (@nil string)))
      (Z.of_nat (length (@nil string)) + Z.of_nat (length ["b"; "a"; "b!"])) 0 0
    = Done ([] ++ out ++ [], count,
            wrap64 (0 + Z.of_nat (length ["b"; "a"; "b!"]))) /\
    out ≡ₚ ["b"; "a"; "b!"] /\ stable id ["b"; "a"; "b!"] out /\
    StronglySorted (fun x y => (bucket id 0 x <= bucket id 0 y)%nat) out /\
    forall b, (b <= Z.to_nat R)%nat ->
      count !! b
      = Some (Z.of_nat (length (filter (fun x => (bucket id 0 x <= b)%nat)
                                  ["b"; "a"; "b!"]))).
Proof.
  apply (radix_pass_counting_sort (A:=string) id EmptyString []
           ["b"; "a"; "b!"] [] 0 0); [reflexivity | simpl; lia |].
  intros x Hx.
  repeat (apply elem_of_cons in Hx as [->|Hx]; [vm_compute; reflexivity|]).
  inversion Hx.
Defined.

(** ** The order of the radix sort *)

Lemma charAt_drop (s : string) (d : Z) :
  0 <= d ->
  charAt s d
  = match string_drop (Z.to_nat d) s with
    | String c _ => charToIndex c
    | EmptyString => -1
    end.
Proof.
  intros Hd. unfold charAt. destruct (Z.ltb_spec d (size s)) as [Hlt|Hge].
  - destruct (get_inside s (Z.to_nat d)) as [c Hc]; [unfold size in Hlt; lia|].
    rewrite Hc, (string_drop_get _ _ _ Hc). reflexivity.
  - rewrite string_drop_past by (unfold size in Hge; lia). reflexivity.
Qed.

Lemma string_drop_S (s : string) (n : nat) :
  string_drop (S n) s
  = match string_drop n s with
    | String _ t => t
    | EmptyString => EmptyString
    end.
Proof.
  destruct (Nat.lt_ge_cases n (String.length s)) as [Hlt|Hge].
  - destruct (get_inside s n Hlt) as [c Hc].
    rewrite (string_drop_get _ _ _ Hc). reflexivity.
  - rewrite !string_drop_past by lia. reflexivity.
Qed.

Section RankOrder.
Context {A : Type} (key : A -> string).

Lemma rank_le_sentinel (d : Z) (x y : A) :
  0 <= d -> charAt (key x) d = -1 -> rank_le key d x y.
Proof.
  intros Hd. rewrite charAt_drop by exact Hd. unfold rank_le.
  destruct (string_drop (Z.to_nat d) (key x)) as [|c a]; [reflexivity|].
  intros E. cbn [rank_lex]. rewrite E. reflexivity.
Qed.

Lemma rank_le_lt (d : Z) (x y : A) :
  0 <= d -> charAt (key x) d < charAt (key y) d -> rank_le key d x y.
Proof.
  intros Hd. rewrite !charAt_drop by exact Hd. unfold rank_le.
  destruct (string_drop (Z.to_nat d) (key x)) as [|c a]; [reflexivity|].
  cbn [rank_lex]. pose proof (charToIndex_range c).
  destruct (Z.eqb_spec (charToIndex c) (-1)); [reflexivity|].
  destruct (string_drop (Z.to_nat d) (key y)) as [|c' b]; [lia|].
  intros Hlt. destruct (Z.ltb_spec (charToIndex c) (charToIndex c')); [reflexivity | lia].
Qed.

Lemma rank_le_step (d : Z) (x y : A) :
  0 <= d -> charAt (key x) d = charAt (key y) d -> 0 <= charAt (key x) d ->
  rank_le key (d + 1) x y -> rank_le key d x y.
Proof.
  intros Hd. rewrite !charAt_drop by exact Hd. unfold rank_le.
  replace (Z.to_nat (d + 1)) with (S (Z.to_nat d)) by lia.
  rewrite !string_drop_S.
  destruct (string_drop (Z.to_nat d) (key x)) as [|c a]; [reflexivity|].
  destruct (string_drop (Z.to_nat d) (key y)) as [|c' b]; [lia|].
  intros E Hpos Hrec. cbn [rank_lex]. rewrite E in *.
  destruct (Z.eqb_spec (charToIndex c') (-1)); [reflexivity|].
  rewrite Z.ltb_irrefl. exact Hrec.
Qed.
End RankOrder.

(** ** The loop over the buckets, for any property of the recursive call *)

Section BucketLoop.
Context {A : Type} (key : A -> string).

Lemma bucket_loop_inv
    (self : list A -> Z -> Z -> Z -> Z -> outcome (list A * Z))
    (Q : list A -> list A -> Prop) (Inv : nat -> list A -> Prop)
    (d : Z) (l pre post : list A) (count : list Z) (N : Z) :
  N < 2 ^ 63 ->
  holds count (fun b => length (filter (fun x => (bucket key d x < S b)%nat) l)) ->
  (forall bk out, Q bk out -> length out = length bk) ->
  (forall b pre' post' comps',
     (1 <= b <= Z.to_nat R)%nat -> wrap64 comps' = comps' ->
     Z.of_nat (length (pre' ++ filter (fun x => bucket key d x = b) l ++ post'))
       <= N ->
     exists out c',
       self (pre' ++ filter (fun x => bucket key d x = b) l ++ post')
         (Z.of_nat (length pre'))
         (Z.of_nat (length pre')
          + Z.of_nat (length (filter (fun x => bucket key d x = b) l)))
         (size_add d 1) comps'
       = Done (pre' ++ out ++ post', c') /\
       wrap64 c' = c' /\
       Q (filter (fun x => bucket key d x = b) l) out) ->
  (forall r D out,
     (r < Z.to_nat R)%nat -> Inv r D ->
     Q (filter (fun x => bucket key d x = S r) l) out ->
     Inv (S r) (D ++ out)) ->
  forall (n r : nat) (D : list A) (comps : Z),
    (r + n = Z.to_nat R)%nat -> wrap64 comps = comps ->
    length D = length (filter (fun x => (bucket key d x < S r)%nat) l) ->
    Inv r D ->
    Z.of_nat (length (pre ++ D
      ++ concat (map (fun b => filter (fun x => bucket key d x = b) l) (seq (S r) n))
      ++ post)) <= N ->
    exists out c',
      bucket_loop self n
        (pre ++ D
         ++ concat (map (fun b => filter (fun x => bucket key d x = b) l) (seq (S r) n))
         ++ post)
        count (Z.of_nat (length pre)) (Z.of_nat r) d comps
      = Done (pre ++ out ++ post, c') /\
      wrap64 c' = c' /\ Inv (Z.to_nat R) out.
Proof.
  intros HN Hh HQ Hself Hstep n. change (Z.to_nat R) with 74%nat in *.
  induction n as [|n IH]; intros r D comps Hrn Hc HlD HD Hlen.
  - simpl. rewrite Nat.add_0_r in Hrn. subst r.
    exists D, comps. auto.
  - cbn [bucket_loop].
    rewrite (holds_get _ _ _ Hh) by (unfold R; lia).
    rewrite (holds_get _ _ (Z.of_nat r + 1) Hh) by (unfold R; lia). cbn [bind].
    rewrite Nat2Z.id. replace (Z.to_nat (Z.of_nat r + 1)) with (S r) by lia.
    rewrite <- HlD. rewrite (below_S key d (S r)), <- HlD.
    cbn [seq map concat] in Hlen |- *.
    set (Bk := filter (fun x => bucket key d x = S r) l) in *.
    set (rest := concat (map (fun b => filter (fun x => bucket key d x = b) l)
                          (seq (S (S r)) n))) in *.
    rewrite !length_app in Hlen.
    assert (E1 : size_add (Z.of_nat (length pre)) (Z.of_nat (length D))
                 = Z.of_nat (length (pre ++ D))).
    { unfold size_add. rewrite wrap64_small; rewrite ?length_app; lia. }
    assert (E2 : size_add (Z.of_nat (length pre))
                   (Z.of_nat (length D + length Bk))
                 = Z.of_nat (length (pre ++ D)) + Z.of_nat (length Bk)).
    { unfold size_add. rewrite wrap64_small; rewrite ?length_app; lia. }
    rewrite E1, E2.
    replace (pre ++ D ++ (Bk ++ rest) ++ post)
      with ((pre ++ D) ++ Bk ++ (rest ++ post))
      by (rewrite <- !app_assoc; reflexivity).
    destruct (Hself (S r) (pre ++ D) (rest ++ post) comps)
      as (outb & cb & E & Hcb & Hsb); [lia | exact Hc | |].
    { rewrite !length_app. fold Bk. lia. }
    fold Bk in E, Hsb. rewrite E. cbn [bind].
    pose proof (HQ _ _ Hsb) as Hlb.
    replace ((pre ++ D) ++ outb ++ rest ++ post)
      with (pre ++ (D ++ outb) ++ rest ++ post)
      by (rewrite <- !app_assoc; reflexivity).
    replace (Z.of_nat r + 1) with (Z.of_nat (S r)) by lia.
    apply IH; [lia | exact Hcb | | |].
    + rewrite length_app, Hlb, HlD, (below_S key d (S r)). reflexivity.
    + apply Hstep; [lia | exact HD | exact Hsb].
    + rewrite !length_app. fold rest. lia.
Qed.

Lemma bucketed_split (d : Z) (l : list A) :
  bucketed key d (S (Z.to_nat R)) l
  = bucketed key d 1 l
    ++ concat (map (fun b => filter (fun x => bucket key d x = b) l)
                 (seq 1 (Z.to_nat R))).
Proof.
  unfold bucketed. change (S (Z.to_nat R)) with (1 + Z.to_nat R)%nat.
  rewrite seq_app, map_app, concat_app. reflexivity.
Qed.
End BucketLoop.

(** ** What the radix procedures achieve *)

Section RadixResults.
Context {A : Type} (key : A -> string) (dflt : A) (signed_char : bool).

Lemma bucket_zero (d : Z) (x : A) :
  bucket key d x = O -> charAt (key x) d = -1.
Proof. unfold bucket. pose proof (charAt_range (key x) d). lia. Qed.

Lemma bucket_succ (d : Z) (x : A) (r : nat) :
  bucket key d x = S r -> charAt (key x) d = Z.of_nat r.
Proof. unfold bucket. lia. Qed.

Lemma msdRadixSortPure_sorted (fuel : nat) :
  forall (pre l post : list A) (d comps : Z),
    wrap64 comps = comps -> 0 <= d -> d + Z.of_nat fuel < 2 ^ 63 ->
    Z.of_nat (length (pre ++ l ++ post)) < 2 ^ 63 ->
    no_full_stop key l ->
    (forall x, x ∈ l -> d <= size (key x) < d + Z.of_nat fuel) ->
    exists out comps',
      msdRadixSortPure key dflt fuel (pre ++ l ++ post)
        (Z.of_nat (length pre)) (Z.of_nat (length pre) + Z.of_nat (length l))
        d comps
      = Done (pre ++ out ++ post, comps') /\
      wrap64 comps' = comps' /\ stable key l out /\
      StronglySorted (rank_le key d) out.
Proof.
  induction fuel as [|fuel IH]; intros pre l post d comps Hc Hd Hdf Hlen Hno Hsz.
  - assert (length l <= 1)%nat as Hl.
    { destruct l as [|x l]; [simpl; lia|]. specialize (Hsz x ltac:(left)). lia. }
    rewrite !length_app in Hlen.
    cbn [msdRadixSortPure]. unfold size_add. rewrite wrap64_small by lia.
    destruct (Z.leb_spec (Z.of_nat (length pre) + Z.of_nat (length l))
                (Z.of_nat (length pre) + 1)); [|lia].
    exists l, comps. split; [reflexivity|]. split; [exact Hc|].
    split; [apply stable_refl|].
    destruct l as [|x [|y l]]; simpl in Hl; try lia; repeat constructor.
  - pose proof Hlen as Hlen'. rewrite !length_app in Hlen'.
    cbn [msdRadixSortPure]. unfold size_add at 1. rewrite wrap64_small by lia.
    destruct (Z.leb_spec (Z.of_nat (length pre) + Z.of_nat (length l))
                (Z.of_nat (length pre) + 1)) as [Hsmall|Hbig].
    { exists l, comps. split; [reflexivity|]. split; [exact Hc|].
      split; [apply stable_refl|].
      destruct l as [|x [|y l]]; simpl in Hsmall; try lia; repeat constructor. }
    assert (Hs : forall x, x ∈ l -> -1 <= charAt (key x) d < R).
    { intros x Hx. apply charAt_below_R, Hno, Hx. }
    destruct (radix_pass_spec key dflt pre l post d comps Hc Hlen Hs)
      as (count & -> & Hh).
    cbn [bind]. rewrite bucketed_split, <- app_assoc.
    destruct (bucket_loop_inv key (msdRadixSortPure key dflt fuel)
                (fun bk out => stable key bk out /\
                               StronglySorted (rank_le key (d + 1)) out)
                (fun r D => stable key (bucketed key d (S r) l) D /\
                            StronglySorted (rank_le key d) D /\
                            forall x, x ∈ D -> (bucket key d x <= r)%nat)
                d l pre post count (2 ^ 63 - 1) ltac:(lia) Hh)
      with (n := Z.to_nat R) (r := O) (D := bucketed key d 1 l)
           (comps := wrap64 (comps + Z.of_nat (length l)))
      as (out & c' & E & Hc' & Hst & Hso & _).
    + intros bk out [Hst _]. apply (stable_length key), Hst.
    + intros b pre' post' comps' Hb Hcb Hlb.
      assert (Ed : size_add d 1 = d + 1) by (unfold size_add; rewrite wrap64_small; lia).
      rewrite Ed.
      destruct (IH pre' (filter (fun x => bucket key d x = b) l) post' (d + 1) comps')
        as (out & c' & E & Hc' & Hst & Hso); [exact Hcb | lia | lia | lia | | |].
      * intros x Hx. apply Hno. apply list_elem_of_filter in Hx as [_ Hx]. exact Hx.
      * intros x Hx. apply list_elem_of_filter in Hx as [Hbx Hx].
        specialize (Hsz x Hx).
        assert (0 <= charAt (key x) d) by (unfold bucket in Hbx; lia).
        pose proof (charAt_inside (key x) d Hd ltac:(assumption)). lia.
      * exists out, c'. auto.
    + intros r D out Hr (HsD & HoD & HbD) (Hsto & Hoo).
      assert (Hin : forall y, y ∈ out -> bucket key d y = S r).
      { intros y Hy. rewrite (stable_Permutation key _ _ Hsto) in Hy.
        apply list_elem_of_filter in Hy as [Hy _]. exact Hy. }
      split; [rewrite bucketed_S; apply stable_app; assumption|]. split.
      * apply StronglySorted_app_2; [|exact HoD|].
        -- intros x y Hx Hy. apply rank_le_lt; [exact Hd|].
           specialize (HbD x Hx). specialize (Hin y Hy).
           unfold bucket in *. pose proof (charAt_range (key x) d). lia.
        -- eapply StronglySorted_on; [|exact Hoo].
           intros x y Hx Hy Hxy.
           pose proof (bucket_succ d x r (Hin x Hx)).
           pose proof (bucket_succ d y r (Hin y Hy)).
           apply rank_le_step; [exact Hd | lia | lia | exact Hxy].
      * intros x Hx. apply elem_of_app in Hx as [Hx|Hx].
        -- specialize (HbD x Hx). lia.
        -- rewrite (Hin x Hx). lia.
    + reflexivity.
    + apply wrap64_wrap.
    + apply length_bucketed.
    + split; [apply stable_refl|]. split.
      * apply StronglySorted_all. intros x y Hx _.
        apply elem_of_bucketed in Hx as [_ Hx].
        apply rank_le_sentinel; [exact Hd|]. apply bucket_zero. lia.
      * intros x Hx. apply elem_of_bucketed in Hx as [_ Hx]. lia.
    + rewrite (app_assoc (bucketed key d 1 l)), <- bucketed_split.
      rewrite !length_app,
        (stable_length key l (bucketed key d (S (Z.to_nat R)) l))
        by (apply stable_bucketed; exact Hs).
      rewrite !length_app in Hlen. lia.
    + change (Z.of_nat 0) with 0 in E. rewrite E.
      exists out, c'. split; [reflexivity|]. split; [exact Hc'|].
      split; [|exact Hso].
      eapply stable_trans; [apply stable_bucketed; exact Hs | exact Hst].
Qed.

Lemma msdRadixSort_permutes (fuel : nat) :
  forall (pre l post : list A) (d comps : Z),
    wrap64 comps = comps -> 0 <= d -> d + Z.of_nat fuel < 2 ^ 63 ->
    Z.of_nat (length (pre ++ l ++ post)) <= 2 ^ 31 - 1 ->
    no_full_stop key l ->
    (forall x, x ∈ l -> d <= size (key x) < d + Z.of_nat fuel) ->
    exists out comps',
      msdRadixSort key dflt signed_char fuel (pre ++ l ++ post)
        (Z.of_nat (length pre)) (Z.of_nat (length pre) + Z.of_nat (length l))
        d comps
      = Done (pre ++ out ++ post, comps') /\
      wrap64 comps' = comps' /\ out ≡ₚ l.
Proof.
  assert (Hfall : forall fuel (pre l post : list A) d comps,
            wrap64 comps = comps -> 0 <= d ->
            Z.of_nat (length (pre ++ l ++ post)) <= 2 ^ 31 - 1 ->
            (length l <= Z.to_nat cutoff)%nat ->
            exists out comps',
              msdRadixSort key dflt signed_char fuel (pre ++ l ++ post)
                (Z.of_nat (length pre))
                (Z.of_nat (length pre) + Z.of_nat (length l)) d comps
              = Done (pre ++ out ++ post, comps') /\
              wrap64 comps' = comps' /\ out ≡ₚ l).
  { intros fuel0 pre l post d comps Hc Hd Hlen Hl.
    change (Z.to_nat cutoff) with 15%nat in Hl.
    pose proof Hlen as Hlen'. rewrite !length_app in Hlen'.
    assert (E1 : size_add (Z.of_nat (length pre)) 1 = Z.of_nat (length pre) + 1)
      by (apply wrap64_small; lia).
    assert (E2 : size_sub (Z.of_nat (length pre) + Z.of_nat (length l))
                   (Z.of_nat (length pre)) = Z.of_nat (length l))
      by (unfold size_sub; rewrite wrap64_small; lia).
    destruct (Z.of_nat (length pre) + Z.of_nat (length l)
              <=? Z.of_nat (length pre) + 1) eqn:Eb.
    { exists l, comps.
      destruct fuel0; cbn [msdRadixSort]; rewrite E1, Eb; auto. }
    apply Z.leb_gt in Eb as Hbig.
    assert (E3 : size_sub (Z.of_nat (length pre) + Z.of_nat (length l)) 1
                 = Z.of_nat (length pre + length l) - 1)
      by (unfold size_sub; rewrite wrap64_small; lia).
    destruct (ternaryQuickSortSuffix_total key signed_char (Z.to_nat cutoff)
                (pre ++ l ++ post) (Z.of_nat (length pre))
                (Z.of_nat (length pre + length l) - 1) d comps)
      as (arr' & c' & E & Hc' & _ & Hp & Hu);
      [exact Hd | exact Hc | lia | rewrite !length_app; lia | lia
      | change (Z.to_nat cutoff) with 15%nat; lia |].
    destruct (untouched_middle pre l post arr' Hu Hp) as (out & -> & Hpo).
    exists out, c'.
    assert (Ecut : (Z.of_nat (length l) <=? cutoff) = true)
      by (apply Z.leb_le; unfold cutoff; lia).
    destruct fuel0; cbn [msdRadixSort]; rewrite E1, Eb, E2, Ecut, E3,
      !to_int_small by lia; auto. }
  induction fuel as [|fuel IH]; intros pre l post d comps Hc Hd Hdf Hlen Hno Hsz.
  - apply Hfall; try assumption.
    destruct l as [|x l]; [simpl; lia|]. specialize (Hsz x ltac:(left)). lia.
  - destruct (Nat.le_gt_cases (length l) (Z.to_nat cutoff)) as [Hl|Hl];
      [apply Hfall; assumption|].
    change (Z.to_nat cutoff) with 15%nat in Hl.
    pose proof Hlen as Hlen'. rewrite !length_app in Hlen'.
    assert (Hlen63 : Z.of_nat (length (pre ++ l ++ post)) < 2 ^ 63) by lia.
    cbn [msdRadixSort]. unfold size_add at 1, size_sub at 1.
    rewrite !wrap64_small by lia.
    destruct (Z.leb_spec (Z.of_nat (length pre) + Z.of_nat (length l))
                (Z.of_nat (length pre) + 1)); [lia|].
    destruct (Z.leb_spec (Z.of_nat (length pre) + Z.of_nat (length l)
                          - Z.of_nat (length pre)) cutoff);
      [unfold cutoff in *; lia|].
    assert (Hs : forall x, x ∈ l -> -1 <= charAt (key x) d < R).
    { intros x Hx. apply charAt_below_R, Hno, Hx. }
    destruct (radix_pass_spec key dflt pre l post d comps Hc Hlen63 Hs)
      as (count & -> & Hh).
    cbn [bind]. rewrite bucketed_split, <- app_assoc.
    assert (Hpb : bucketed key d (S (Z.to_nat R)) l ≡ₚ l).
    { apply (stable_Permutation key), stable_bucketed, Hs. }
    destruct (bucket_loop_inv key (msdRadixSort key dflt signed_char fuel)
                (fun bk out => out ≡ₚ bk)
                (fun r D => D ≡ₚ bucketed key d (S r) l)
                d l pre post count (2 ^ 31 - 1) ltac:(lia) Hh)
      with (n := Z.to_nat R) (r := O) (D := bucketed key d 1 l)
           (comps := wrap64 (comps + Z.of_nat (length l)))
      as (out & c' & E & Hc' & Hpo).
    + intros bk out Hp. apply Permutation_length, Hp.
    + intros b pre' post' comps' Hb Hcb Hlb.
      assert (Ed : size_add d 1 = d + 1) by (unfold size_add; rewrite wrap64_small; lia).
      rewrite Ed.
      apply IH; [exact Hcb | lia | lia | exact Hlb | |].
      * intros x Hx. apply Hno. apply list_elem_of_filter in Hx as [_ Hx]. exact Hx.
      * intros x Hx. apply list_elem_of_filter in Hx as [Hbx Hx].
        specialize (Hsz x Hx).
        assert (0 <= charAt (key x) d) by (unfold bucket in Hbx; lia).
        pose proof (charAt_inside (key x) d Hd ltac:(assumption)). lia.
    + intros r D out Hr HD Ho. rewrite bucketed_S, HD, Ho. reflexivity.
    + reflexivity.
    + apply wrap64_wrap.
    + apply length_bucketed.
    + reflexivity.
    + rewrite (app_assoc (bucketed key d 1 l)), <- bucketed_split.
      rewrite !length_app, (Permutation_length Hpb). lia.
    + change (Z.of_nat 0) with 0 in E. rewrite E.
      exists out, c'. split; [reflexivity|]. split; [exact Hc'|].
      rewrite Hpo. exact Hpb.
Qed.
End RadixResults.

Section RadixRuns.
Context {A : Type} (key : A -> string) (dflt : A) (signed_char : bool).
Context (std_sort : (A -> A -> Z -> bool * Z) -> list A -> Z -> list A * Z).

(** X9.  On a sequence whose strings do not contain the full stop,
    [MsdRadixPure] ends and returns a permutation of the sequence that is
    sorted in the order of the table: for any two elements, the earlier one
    is not after the later one when their strings are compared rank by
    rank, a string ending at its first character outside the table. *)
Theorem run_radix_pure_sorted (arr : list A) (t : StringSortTester)
    (start stop : Z) :
  Z.of_nat (length arr) < 2 ^ 63 ->
  (forall x, x ∈ arr -> size (key x) < 2 ^ 62) ->
  no_full_stop key arr ->
  exists r arr' t',
    run key dflt signed_char std_sort MsdRadixPure arr t start stop
      = Done (r, arr', t') /\
    arr' ≡ₚ arr /\
    StronglySorted (fun x y => rank_lex (key x) (key y) = true) arr'.
Proof.
  intros Hlen Hsz Hno.
  assert (Hmax : Z.of_nat (max_size key arr) < 2 ^ 62).
  { assert (max_size key arr <= Z.to_nat (2 ^ 62 - 1))%nat; [|lia].
    apply max_size_le. intros x Hx. specialize (Hsz x Hx). unfold size in Hsz. lia. }
  destruct (msdRadixSortPure_sorted key dflt (S (max_size key arr)) [] arr [] 0 0)
    as (out & c & E & _ & Hst & Hso);
    [reflexivity | lia | lia | simpl; rewrite app_nil_r; exact Hlen | exact Hno | |].
  { intros x Hx. pose proof (max_size_ge key arr x Hx). unfold size. lia. }
  cbn [app length] in E. rewrite !app_nil_r in E.
  change (Z.of_nat 0) with 0 in E. rewrite Z.add_0_l in E.
  unfold run, run_switch. simpl tester_comps. rewrite E. cbn [bind].
  eexists _, _, _. split; [reflexivity|].
  split; [apply (stable_Permutation key), Hst|].
  eapply StronglySorted_on; [|exact Hso]. intros x y _ _ Hxy. exact Hxy.
Qed.

(** X10.  On a sequence of fewer than 2^31 strings that do not contain
    the full stop (so that every position, and every cursor of the
    fallback one past it, fits an [int]), [MsdRadix] ends without leaving
    the sequence, the counting array or the scratch vector, and returns a
    permutation of the sequence. *)
Theorem run_radix_cutoff_permutes (arr : list A) (t : StringSortTester)
    (start stop : Z) :
  Z.of_nat (length arr) < 2 ^ 31 ->
  (forall x, x ∈ arr -> size (key x) < 2 ^ 62) ->
  no_full_stop key arr ->
  exists r arr' t',
    run key dflt signed_char std_sort MsdRadix arr t start stop
      = Done (r, arr', t') /\
    arr' ≡ₚ arr.
Proof.
  intros Hlen Hsz Hno.
  assert (Hmax : Z.of_nat (max_size key arr) < 2 ^ 62).
  { assert (max_size key arr <= Z.to_nat (2 ^ 62 - 1))%nat; [|lia].
    apply max_size_le. intros x Hx. specialize (Hsz x Hx). unfold size in Hsz. lia. }
  destruct (msdRadixSort_permutes key dflt signed_char (S (max_size key arr))
              [] arr [] 0 0)
    as (out & c & E & _ & Hp);
    [reflexivity | lia | lia | simpl; rewrite app_nil_r; lia | exact Hno | |].
  { intros x Hx. pose proof (max_size_ge key arr x Hx). unfold size. lia. }
  cbn [app length] in E. rewrite !app_nil_r in E.
  change (Z.of_nat 0) with 0 in E. rewrite Z.add_0_l in E.
  unfold run, run_switch. simpl tester_comps. rewrite E. cbn [bind].
  eexists _, _, _. split; [reflexivity | exact Hp].
Qed.

Lemma count_loop_full_stop (n : nat) (arr : list A) (count : list Z)
    (i d comps : Z) (s r : list A) :
  0 <= i -> drop (Z.to_nat i) arr = s ++ r -> length s = n ->
  length count = Z.to_nat (R + 2) ->
  (exists x, x ∈ s /\ charAt (key x) d = R) ->
  count_loop key n arr count i d comps = Fault CountOutOfRange.
Proof.
  revert count i comps s.
  induction n as [|n IH]; intros count i comps s Hi Hdrop Hlen Hcount (x & Hx & Hfs).
  - destruct s; [inversion Hx | discriminate].
  - destruct s as [|y s]; [discriminate|]. simpl in Hdrop, Hlen.
    apply drop_cons_inv in Hdrop as [Hy Hdrop].
    cbn [count_loop]. rewrite (vget_Done _ _ _ _ Hi Hy). cbn [bind].
    change (Z.to_nat (R + 2)) with 76%nat in Hcount.
    pose proof (charAt_range (key y) d) as Hr.
    destruct (Z.eq_dec (charAt (key y) d) R) as [E|Hne].
    + rewrite E. unfold vget. change (0 <=? R + 2) with true. cbv iota.
      rewrite lookup_ge_None_2 by (change (Z.to_nat (R + 2)) with 76%nat; lia).
      reflexivity.
    + unfold R in Hne.
      destruct (vget_inside CountOutOfRange count (charAt (key y) d + 2))
        as (c & -> & _); [lia|].
      cbn [bind]. rewrite vset_inside by lia. cbn [bind].
      apply (IH _ _ _ s); [lia | | lia | rewrite length_insert; exact Hcount |].
      * replace (Z.to_nat (i + 1)) with (S (Z.to_nat i)) by lia. exact Hdrop.
      * exists x. split; [|exact Hfs].
        apply elem_of_cons in Hx as [->|Hx]; [|exact Hx].
        unfold R in Hfs. contradiction.
Qed.

(** X11.  Whenever a range that reaches the counting pass at depth [d]
    holds a string with a full stop at position [d], the procedure stops
    on an access outside the counting array: [msdRadixSortPure] on any
    such range of two or more elements, [msdRadixSort] on any such range
    of more than 15. *)
Theorem radix_full_stop_faults (fuel : nat) (pre l post : list A) (d comps : Z)
    (x : A) :
  0 <= d -> Z.of_nat (length (pre ++ l ++ post)) < 2 ^ 63 ->
  x ∈ l -> String.get (Z.to_nat d) (key x) = Some "."%char ->
  ((2 <= length l)%nat ->
   msdRadixSortPure key dflt (S fuel) (pre ++ l ++ post)
     (Z.of_nat (length pre)) (Z.of_nat (length pre) + Z.of_nat (length l)) d comps
   = Fault CountOutOfRange) /\
  ((Z.to_nat cutoff < length l)%nat ->
   msdRadixSort key dflt signed_char (S fuel) (pre ++ l ++ post)
     (Z.of_nat (length pre)) (Z.of_nat (length pre) + Z.of_nat (length l)) d comps
   = Fault CountOutOfRange).
Proof.
  intros Hd Hlen Hx Hget. rewrite !length_app in Hlen.
  assert (Hfs : charAt (key x) d = R).
  { unfold charAt. rewrite Hget.
    destruct (Z.ltb_spec d (size (key x))) as [|Hge]; [reflexivity|].
    rewrite get_past_end in Hget by (unfold size in Hge; lia). discriminate. }
  assert (Hpass : radix_pass key dflt (pre ++ l ++ post) (Z.of_nat (length pre))
                    (Z.of_nat (length pre) + Z.of_nat (length l)) d comps
                  = Fault CountOutOfRange).
  { unfold radix_pass.
    rewrite (count_loop_full_stop _ _ _ _ _ _ l post); [reflexivity | lia | | lia | | ].
    - rewrite Nat2Z.id. apply drop_app_length.
    - apply length_replicate.
    - exists x. auto. }
  assert (E1 : size_add (Z.of_nat (length pre)) 1 = Z.of_nat (length pre) + 1)
    by (apply wrap64_small; lia).
  assert (E2 : size_sub (Z.of_nat (length pre) + Z.of_nat (length l))
                 (Z.of_nat (length pre)) = Z.of_nat (length l))
    by (unfold size_sub; rewrite wrap64_small; lia).
  split; intros Hl.
  - cbn [msdRadixSortPure]. rewrite E1.
    destruct (Z.leb_spec (Z.of_nat (length pre) + Z.of_nat (length l))
                (Z.of_nat (length pre) + 1)); [lia|].
    rewrite Hpass. reflexivity.
  - change (Z.to_nat cutoff) with 15%nat in Hl.
    cbn [msdRadixSort]. rewrite E1, E2.
    destruct (Z.leb_spec (Z.of_nat (length pre) + Z.of_nat (length l))
                (Z.of_nat (length pre) + 1)); [lia|].
    destruct (Z.leb_spec (Z.of_nat (length l)) cutoff); [unfold cutoff in *; lia|].
    rewrite Hpass. reflexivity.
Qed.
End RadixRuns.

Lemma run_radix_pure_sorted_witness :
  exists r arr' t',
    run id EmptyString true insertion_sort MsdRadixPure ["b0"; "a"; "bA"; "b"]
      {| tester_comps := 0 |} 0 0
      = Done (r, arr', t') /\
    arr' ≡ₚ ["b0"; "a"; "bA"; "b"] /\
    StronglySorted (fun x y => rank_lex (id x) (id y) = true) arr'.
Proof.
  apply (run_radix_pure_sorted (A:=string) id EmptyString true insertion_sort).
  - simpl. lia.
  - intros x Hx. repeat (apply elem_of_cons in Hx as [->|Hx]; [vm_compute; reflexivity|]).
    inversion Hx.
  - intros x Hx. repeat (apply elem_of_cons in Hx as [->|Hx];
                         [vm_compute; intuition discriminate|]).
    inversion Hx.
Defined.

Lemma run_radix_cutoff_permutes_witness :
  exists r arr' t',
    run id EmptyString true insertion_sort MsdRadix ["b0"; "a"; "bA"; "b"]
      {| tester_comps := 0 |} 0 0
      = Done (r, arr', t') /\
    arr' ≡ₚ ["b0"; "a"; "bA"; "b"].
Proof.
  apply (run_radix_cutoff_permutes (A:=string) id EmptyString true insertion_sort).
  - simpl. lia.
  - intros x Hx. repeat (apply elem_of_cons in Hx as [->|Hx]; [vm_compute; reflexivity|]).
    inversion Hx.
  - intros x Hx. repeat (apply elem_of_cons in Hx as [->|Hx];
                         [vm_compute; intuition discriminate|]).
    inversion Hx.
Defined.

Lemma radix_full_stop_faults_witness :
  msdRadixSortPure id EmptyString 1 (["z"] ++ ["ab"; "a."] ++ [])
    (Z.of_nat (length ["z"])) (Z.of_nat (length ["z"]) + Z.of_nat (length ["ab"; "a."]))
    1 0
  = Fault CountOutOfRange.
Proof.
  apply (radix_full_stop_faults (A:=string) id EmptyString true 0
           ["z"] ["ab"; "a."] [] 1 0 "a.");
    [lia | simpl; lia | right; left | reflexivity | simpl; lia].
Defined.

(** ** The fallback quicksort on a range *)

Section SuffixQuick.
Context {A : Type} (key : A -> string) (signed_char : bool).

(** X12.  [ternaryQuickSortSuffix] on positions [lo..hi] inside the
    sequence, with [hi] below the largest [int] so that no cursor leaves
    the range of [int], ends at every offset [d] without leaving the
    sequence or a string, and leaves a permutation of the sequence that
    agrees with it outside [lo..hi]. *)
Theorem ternaryQuickSortSuffix_range (fuel : nat) (arr : list A)
    (lo hi d comps : Z) :
  0 <= d -> wrap64 comps = comps ->
  0 <= lo -> hi < Z.of_nat (length arr) -> hi < 2 ^ 31 - 1 ->
  hi - lo <= Z.of_nat fuel ->
  exists arr' comps',
    ternaryQuickSortSuffix key signed_char fuel arr lo hi d comps
      = Done (arr', comps') /\
    arr' ≡ₚ arr /\ untouched lo hi arr arr'.
Proof.
  intros Hd Hc Hlo Hhi Hint Hfuel.
  destruct (ternaryQuickSortSuffix_total key signed_char fuel arr lo hi d comps
              Hd Hc Hlo Hhi Hint Hfuel)
    as (arr' & c & E & _ & _ & Hp & Hu).
  exists arr', c. auto.
Qed.
End SuffixQuick.

Lemma ternaryQuickSortSuffix_range_witness :
  exists arr' comps',
    ternaryQuickSortSuffix id true 2 ["z"; "xb"; "xa"; "xc"]%string 1 3 1 0
      = Done (arr', comps') /\
    arr' ≡ₚ ["z"; "xb"; "xa"; "xc"]%string /\
    untouched 1 3 ["z"; "xb"; "xa"; "xc"]%string arr'.
Proof.
  apply (ternaryQuickSortSuffix_range (A:=string) id true 2
           ["z"; "xb"; "xa"; "xc"]%string 1 3 1 0);
    [lia | reflexivity | lia | simpl; lia | lia | simpl; lia].
Defined.

(** ** averageRun *)

Lemma quot_between (n x lo hi : Z) :
  0 < n -> n * lo <= x <= n * hi -> lo <= x ÷ n <= hi.
Proof. intros Hn Hx. Z.to_euclidean_division_equations. nia. Qed.

Lemma to_llong_small (z : Z) : 0 <= z < 2 ^ 63 -> to_llong (wrap64 z) = z.
Proof. intros Hz. unfold to_llong. wrap_lia. Qed.

Section AverageRunFacts.
Context {St : Type} (f : St -> outcome (SortResult * St)).
Context (Inv : St -> Prop) (P : SortResult -> Prop).
Hypothesis f_returns :
  forall s, Inv s -> exists r s', f s = Done (r, s') /\ Inv s' /\ P r.

Lemma results_loop_spec (n : nat) (s : St) (results : list SortResult) :
  Inv s -> Forall P results ->
  exists results' s',
    results_loop f n s results = Done (results', s') /\ Inv s' /\
    Forall P results' /\ length results' = (length results + n)%nat.
Proof.
  revert s results. induction n as [|n IH]; intros s results Hs Hres.
  - exists results, s. simpl. repeat split; auto.
  - destruct (f_returns s Hs) as (r & s1 & E & Hs1 & Hr).
    cbn [results_loop]. rewrite E. cbn [bind].
    destruct (IH s1 (results ++ [r]) Hs1) as (results' & s' & E' & Hs' & Hall & Hlen).
    { apply Forall_app. split; [exact Hres | repeat constructor; exact Hr]. }
    exists results', s'. rewrite length_app in Hlen. simpl in Hlen.
    repeat split; auto. lia.
Qed.
End AverageRunFacts.

Lemma totals_loop_spec (tlo thi lo hi : Z) (results : list SortResult)
    (tt tc : Z) :
  Forall (fun r => tlo <= time r <= thi /\ lo <= comps r <= hi) results ->
  0 <= lo -> 0 <= tc ->
  tc + Z.of_nat (length results) * hi < 2 ^ 63 ->
  - 2 ^ 63 <= tt < 2 ^ 63 ->
  - 2 ^ 63 <= tt + Z.of_nat (length results) * tlo ->
  tt + Z.of_nat (length results) * thi < 2 ^ 63 ->
  exists tt' tc',
    totals_loop results tt tc = Avg (tt', tc') /\
    tt + Z.of_nat (length results) * tlo <= tt'
      <= tt + Z.of_nat (length results) * thi /\
    tc + Z.of_nat (length results) * lo <= tc'
      <= tc + Z.of_nat (length results) * hi.
Proof.
  intros Hall Hlo. revert tt tc.
  induction Hall as [|r results [Ht Hcr] Hall IH]; intros tt tc Htc Hhi Htt Hl Hh.
  - exists tt, tc. simpl. repeat split; lia.
  - cbn [length] in *. rewrite Nat2Z.inj_succ in *.
    set (n := Z.of_nat (length results)) in *.
    assert (Hn : 0 <= n) by (unfold n; lia).
    assert (Hb : - 2 ^ 63 <= tt + time r < 2 ^ 63) by nia.
    cbn [totals_loop]. unfold is_llong.
    destruct (Z.leb_spec (- 2 ^ 63) (tt + time r)); [|lia].
    destruct (Z.ltb_spec (tt + time r) (2 ^ 63)); [|lia]. cbn [andb].
    assert (Hsum : 0 <= tc + comps r < 2 ^ 63) by nia.
    rewrite (wrap64_small tc) by lia. rewrite to_llong_small by exact Hsum.
    destruct (IH (tt + time r) (tc + comps r)) as (tt' & tc' & E & Hb1 & Hb2);
      [lia | nia | lia | nia | nia |].
    exists tt', tc'. split; [exact E|]. split; nia.
Qed.

Section AverageRunResults.
Context {St : Type} (f : St -> outcome (SortResult * St)).

Lemma averageRun_spec (Inv : St -> Prop) (runs tlo thi lo hi : Z) (s : St) :
  0 < runs -> 0 <= lo -> runs * hi < 2 ^ 63 ->
  - 2 ^ 63 <= runs * tlo -> runs * thi < 2 ^ 63 ->
  (forall s, Inv s ->
     exists r s', f s = Done (r, s') /\ Inv s' /\
       (tlo <= time r <= thi /\ lo <= comps r <= hi)) ->
  Inv s ->
  exists r s',
    averageRun f runs s = Avg (r, s') /\ Inv s' /\
    tlo <= time r <= thi /\ lo <= comps r <= hi.
Proof.
  intros Hruns Hlo Hhi Htl Hth Hf Hs.
  destruct (results_loop_spec f Inv _ Hf (Z.to_nat runs) s [] Hs)
    as (results & s' & E & Hs' & Hall & Hlen); [constructor|].
  simpl in Hlen.
  assert (Hn : Z.of_nat (length results) = runs) by lia.
  destruct (totals_loop_spec tlo thi lo hi results 0 0 Hall Hlo)
    as (tt & tc & Et & Hbt & Hbc); [rewrite ?Hn; lia ..|].
  rewrite Hn in Hbt, Hbc.
  unfold averageRun. rewrite E, Et. unfold llong_div.
  destruct (Z.eqb_spec runs 0); [lia|].
  destruct (Z.eqb_spec runs (-1)); [lia|]. rewrite !andb_false_r.
  pose proof (quot_between runs tt tlo thi Hruns ltac:(lia)) as Hq1.
  pose proof (quot_between runs tc lo hi Hruns ltac:(lia)) as Hq2.
  rewrite (wrap64_small (tc ÷ runs)) by nia.
  eexists _, s'. split; [reflexivity|]. simpl. auto.
Qed.

(** X13.  When every one of the [runs] calls of [f] returns, with a
    comparison count between [lo] and [hi] and a time between [tlo] and
    [thi], and the sums fit a [long long], [averageRun] returns a result
    whose count and time lie between the same bounds; in particular the
    average of equal counts is that count. *)
Theorem averageRun_between (Inv : St -> Prop) (runs tlo thi lo hi : Z) (s : St) :
  0 < runs -> 0 <= lo -> runs * hi < 2 ^ 63 ->
  - 2 ^ 63 <= runs * tlo -> runs * thi < 2 ^ 63 ->
  (forall s, Inv s ->
     exists r s', f s = Done (r, s') /\ Inv s' /\
       (tlo <= time r <= thi /\ lo <= comps r <= hi)) ->
  Inv s ->
  exists r s',
    averageRun f runs s = Avg (r, s') /\ Inv s' /\
    tlo <= time r <= thi /\ lo <= comps r <= hi.
Proof. apply averageRun_spec. Qed.

(** X14.  Without a positive number of runs [averageRun] never calls
    [f]: for [runs = 0] it divides by zero, for a negative [runs] it
    returns the result with time 0 and count 0. *)
Theorem averageRun_without_runs (runs : Z) (s : St) :
  runs <= 0 ->
  averageRun f runs s
  = if runs =? 0 then DivisionByZero
    else Avg ({| time := 0; comps := 0 |}, s).
Proof.
  intros Hruns. unfold averageRun.
  replace (Z.to_nat runs) with 0%nat by lia. cbn [results_loop totals_loop].
  unfold llong_div. destruct (Z.eqb_spec runs 0) as [|Hne]; [reflexivity|].
  change (0 =? - 2 ^ 63) with false. cbn [andb].
  rewrite Z.quot_0_l by exact Hne. reflexivity.
Qed.
End AverageRunResults.

Lemma averageRun_between_witness :
  exists r s',
    averageRun
      (fun b : bool =>
         Done ({| time := if b then 3 else 4; comps := if b then 7 else 9 |},
               negb b)) 5 true
      = Avg (r, s') /\ True /\
    3 <= time r <= 4 /\ 7 <= comps r <= 9.
Proof.
  apply (averageRun_between
           (fun b : bool =>
              Done ({| time := if b then 3 else 4; comps := if b then 7 else 9 |},
                    negb b))
           (fun _ => True) 5 3 4 7 9 true); try lia.
  intros [] _; eexists _, _; (split; [reflexivity|]); simpl; lia.
Defined.

Lemma averageRun_without_runs_witness :
  averageRun (fun s : unit => Done ({| time := 1; comps := 1 |}, s)) (-2) tt
  = Avg ({| time := 0; comps := 0 |}, tt).
Proof.
  apply (averageRun_without_runs
           (fun s : unit => Done ({| time := 1; comps := 1 |}, s)) (-2) tt).
  lia.
Defined.

(** ** The measurement of [main] *)

Section Measurement.
Context {A : Type} (key : A -> string) (dflt : A) (signed_char : bool).
Context (std_sort : (A -> A -> Z -> bool * Z) -> list A -> Z -> list A * Z).

(** X15.  If one run of an algorithm on a sample returns, with [c]
    comparisons, then the average [main] takes over [runs] runs on copies
    of the sample reports exactly [c] comparisons, whatever the counter of
    the tester held before and whatever the clock reads, as long as the
    clock never runs backwards, two consecutive readings are at most [D]
    nanoseconds apart, and [runs * c] and [runs * D] fit a [long long]. *)
Theorem averageRun_measured_run (clock : nat -> Z) (algo : Algo)
    (sample : list A) (runs D : Z) (t0 : StringSortTester) (start0 stop0 : Z)
    (r0 : SortResult) (arr' : list A) (t' : StringSortTester)
    (s : StringSortTester * nat) :
  run key dflt signed_char std_sort algo sample t0 start0 stop0
    = Done (r0, arr', t') ->
  0 <= comps r0 -> 0 < runs -> runs * comps r0 < 2 ^ 63 ->
  (forall k, 0 <= clock (S k) - clock k <= D) -> runs * D < 2 ^ 63 ->
  exists r s',
    averageRun (measured_run key dflt signed_char std_sort clock algo sample)
      runs s = Avg (r, s') /\
    comps r = comps r0 /\ 0 <= time r <= D ÷ 1000000.
Proof.
  intros Hrun Hc Hruns Hfit Hclock HD.
  assert (Hsw : run_switch key dflt signed_char std_sort algo sample 0
                = Done (arr', comps r0)).
  { unfold run in Hrun. simpl tester_comps in Hrun.
    destruct (run_switch key dflt signed_char std_sort algo sample 0)
      as [[a c]|e]; [|discriminate].
    cbn [bind] in Hrun. injection Hrun as <- <- _. reflexivity. }
  assert (HD0 : 0 <= D) by (specialize (Hclock 0%nat); lia).
  assert (Hq : 0 <= D ÷ 1000000 <= D)
    by (Z.to_euclidean_division_equations; lia).
  destruct (averageRun_spec
              (measured_run key dflt signed_char std_sort clock algo sample)
              (fun _ => True) runs 0 (D ÷ 1000000) (comps r0) (comps r0) s)
    as (r & s' & E & _ & Ht & Hcr); try lia; try nia.
  - intros [t k] _. unfold measured_run, run. simpl tester_comps.
    rewrite Hsw. cbn [bind]. eexists _, _. split; [reflexivity|].
    split; [exact I|]. simpl. specialize (Hclock k).
    split; [|lia]. Z.to_euclidean_division_equations; lia.
  - exists r, s'. repeat split; try assumption; lia.
Qed.
End Measurement.

Lemma averageRun_measured_run_witness :
  exists r s',
    averageRun
      (measured_run id EmptyString true insertion_sort
         (fun k => Z.of_nat k * 1500000) StdMergeLCP ["b"; "c"; "a"]%string)
      5 ({| tester_comps := 9 |}, 0%nat) = Avg (r, s') /\
    comps r = comps {| time := 0; comps := 3 |} /\ 0 <= time r <= 1500000 ÷ 1000000.
Proof.
  apply (averageRun_measured_run (A:=string) id EmptyString true insertion_sort
           (fun k => Z.of_nat k * 1500000) StdMergeLCP ["b"; "c"; "a"]%string
           5 1500000 {| tester_comps := 0 |} 0 0
           {| time := 0; comps := 3 |} ["a"; "b"; "c"]%string
           {| tester_comps := 3 |});
    [reflexivity | simpl; lia | lia | simpl; lia | intros k; lia | lia].
Defined.

(** ** The sample generator *)

Lemma vswap_lookup {X : Type} f (v v' : list X) (i j : Z) (p : nat) :
  vswap f v i j = Done v' ->
  v' !! p = if decide (p = Z.to_nat j) then v !! Z.to_nat i
            else if decide (p = Z.to_nat i) then v !! Z.to_nat j
            else v !! p.
Proof.
  unfold vswap. intros E.
  destruct (vget f v i) as [x|] eqn:Ex; [|discriminate].
  destruct (vget f v j) as [y|] eqn:Ey; [|discriminate]. cbn [bind] in E.
  apply vget_inv in Ex as [Hib Hx]. apply vget_inv in Ey as [Hjb Hy].
  rewrite vset_inside in E by lia. cbn [bind] in E.
  rewrite vset_inside in E by (rewrite length_insert; lia).
  injection E as <-.
  destruct (decide (p = Z.to_nat j)) as [->|Hpj].
  - rewrite list_lookup_insert_eq by (rewrite length_insert; lia).
    symmetry. apply Hx.
  - rewrite list_lookup_insert_ne by congruence.
    destruct (decide (p = Z.to_nat i)) as [->|Hpi].
    + rewrite list_lookup_insert_eq by lia. symmetry. apply Hy.
    + rewrite list_lookup_insert_ne by congruence. reflexivity.
Qed.

Ltac split_mod a :=
  let q := fresh "q" in
  let r := fresh "r" in
  pose proof (Nat.div_mod_eq a 10);
  pose proof (Nat.mod_upper_bound a 10 ltac:(lia));
  set (r := Nat.modulo a 10) in *; set (q := Nat.div a 10) in *;
  clearbody r q.

Ltac nat_mod_lia :=
  repeat match goal with
         | H : context [Nat.modulo ?a 10] |- _ => split_mod a
         | |- context [Nat.modulo ?a 10] => split_mod a
         end;
  lia.

Lemma swap_index_cases (n p : nat) :
  ((p mod 10 = 0 /\ p + 1 < n) /\ swap_index n p = p + 1)%nat \/
  ((p mod 10 = 1 /\ p < n) /\ swap_index n p = p - 1)%nat \/
  ((~ (p mod 10 = 0 /\ p + 1 < n) /\ ~ (p mod 10 = 1 /\ p < n)) /\
   swap_index n p = p)%nat.
Proof.
  unfold swap_index.
  destruct (Nat.eqb_spec (p mod 10) 0); destruct (Nat.ltb_spec (p + 1) n);
    destruct (Nat.eqb_spec (p mod 10) 1); destruct (Nat.ltb_spec p n);
    cbn [andb]; intuition lia.
Qed.

Lemma swap_index_involutive (n p : nat) : swap_index n (swap_index n p) = p.
Proof.
  destruct (swap_index_cases n p) as [[H1 E]|[[H1 E]|[H1 E]]];
    destruct (swap_index_cases n (swap_index n p)) as [[H2 E']|[[H2 E']|[H2 E']]];
    rewrite E', ?E; rewrite E in H2; clear E E'; nat_mod_lia.
Qed.

Lemma swap_loop_spec {X : Type} (fuel : nat) (v : list X) (m : nat) :
  Z.of_nat (length v) < 2 ^ 63 ->
  (10 * m <= length v + 9)%nat -> (length v <= 10 * (m + fuel))%nat ->
  exists v',
    swap_loop fuel v (Z.of_nat (10 * m)) = Done v' /\
    length v' = length v /\ v' ≡ₚ v /\
    forall p, v' !! p = v !! (if (p <? 10 * m)%nat then p
                              else swap_index (length v) p).
Proof.
  revert v m. induction fuel as [|fuel IH]; intros v m Hlen Hm Hfuel.
  - exists v. cbn [swap_loop]. unfold size_add.
    rewrite (wrap64_small (Z.of_nat (10 * m) + 1)) by lia.
    destruct (Z.ltb_spec (Z.of_nat (10 * m) + 1) (Z.of_nat (length v))); [lia|].
    repeat split; auto. intros p. f_equal. unfold swap_index.
    repeat match goal with
           | |- context [(?a =? ?b)%nat] => destruct (Nat.eqb_spec a b)
           | |- context [(?a <? ?b)%nat] => destruct (Nat.ltb_spec a b)
           end; cbn [andb]; try reflexivity; nat_mod_lia.
  - cbn [swap_loop]. unfold size_add.
    rewrite (wrap64_small (Z.of_nat (10 * m) + 1)) by lia.
    destruct (Z.ltb_spec (Z.of_nat (10 * m) + 1) (Z.of_nat (length v))) as [Hin|Hout].
    + destruct (vswap_inside ArrOutOfRange v (Z.of_nat (10 * m))
                  (Z.of_nat (10 * m) + 1))
        as (v1 & E1 & Hlen1 & Hp1); [lia | lia |].
      rewrite E1. cbn [bind].
      rewrite (wrap64_small (Z.of_nat (10 * m) + 10)) by lia.
      replace (Z.of_nat (10 * m) + 10) with (Z.of_nat (10 * S m)) by lia.
      destruct (IH v1 (S m)) as (v' & E' & Hlen' & Hp' & Hlk); [lia ..|].
      exists v'. split; [exact E'|]. split; [congruence|].
      split; [etransitivity; eassumption|].
      intros p. rewrite Hlk, Hlen1.
      rewrite (vswap_lookup _ _ _ _ _ _ E1).
      replace (Z.to_nat (Z.of_nat (10 * m) + 1)) with (10 * m + 1)%nat by lia.
      rewrite Nat2Z.id.
      destruct (swap_index_cases (length v) p) as [[H1 ->]|[[H1 ->]|[H1 ->]]];
        destruct (Nat.ltb_spec p (10 * S m));
        destruct (Nat.ltb_spec p (10 * m)); cbv iota;
        repeat match goal with
               | |- context [decide (?a = ?b)] => destruct (decide (a = b))
               end;
        try reflexivity; try (f_equal; nat_mod_lia); exfalso; nat_mod_lia.
    + exists v. repeat split; auto. intros p. f_equal. unfold swap_index.
      repeat match goal with
             | |- context [(?a =? ?b)%nat] => destruct (Nat.eqb_spec a b)
             | |- context [(?a <? ?b)%nat] => destruct (Nat.ltb_spec a b)
             end; cbn [andb]; try reflexivity; nat_mod_lia.
Qed.

(** X16.  The loop that disturbs the sorted sample of the generator ends
    without leaving the sample and returns a permutation of it in which
    exactly the pairs at positions [10 m] and [10 m + 1] inside the sample
    have changed places; running it a second time restores the sample. *)
Theorem almost_sorted_swaps {X : Type} (v : list X) :
  Z.of_nat (length v) < 2 ^ 63 ->
  exists v',
    almost_sorted v = Done v' /\ v' ≡ₚ v /\
    (forall p, v' !! p = v !! swap_index (length v) p) /\
    almost_sorted v' = Done v.
Proof.
  intros Hlen. unfold almost_sorted.
  destruct (swap_loop_spec (length v) v 0 Hlen) as (v' & E & Hlen' & Hp & Hlk);
    [lia | lia |].
  change (Z.of_nat (10 * 0)) with 0 in E.
  assert (Hlk' : forall p, v' !! p = v !! swap_index (length v) p)
    by (intros p; rewrite Hlk; reflexivity).
  exists v'. repeat split; auto.
  destruct (swap_loop_spec (length v') v' 0) as (v'' & E' & Hlen'' & _ & Hlk'');
    [lia ..|].
  change (Z.of_nat (10 * 0)) with 0 in E'. rewrite E'. f_equal.
  apply list_eq. intros p. rewrite Hlk''. cbn [Nat.ltb Nat.leb Nat.mul].
  rewrite Hlk', Hlen'. f_equal. apply swap_index_involutive.
Qed.

Lemma almost_sorted_swaps_witness :
  exists v',
    almost_sorted ["a"; "b"; "c"]%string = Done v' /\
    v' ≡ₚ ["a"; "b"; "c"]%string /\
    (forall p, v' !! p
               = ["a"; "b"; "c"]%string
                   !! swap_index (length ["a"; "b"; "c"]%string) p) /\
    almost_sorted v' = Done ["a"; "b"; "c"]%string.
Proof.
  apply (almost_sorted_swaps ["a"; "b"; "c"]%string). simpl. lia.
Defined.

Lemma alphabet_get (k : Z) :
  0 <= k <= to_int (size alphabet) - 1 ->
  exists c, sget alphabet k = Done c /\ in_table c.
Proof.
  change (to_int (size alphabet) - 1) with 74. intros Hk.
  destruct (get_inside alphabet (Z.to_nat k)) as [c Hc].
  { change (String.length alphabet) with 75%nat. lia. }
  exists c. unfold sget. destruct (Z.leb_spec 0 k); [|lia]. rewrite Hc.
  split; [reflexivity|].
  pose proof (charToIndex_range c) as Hr. unfold in_table, R.
  split; [|lia]. unfold charToIndex in *.
  destruct (find c alpha 0) as [pos|] eqn:E.
  - apply find_Some in E as [Hp _]. change (size alpha) with 75 in Hp.
    rewrite to_int_small; lia.
  - apply find_None in E. exfalso. apply E. exact (get_In _ _ _ Hc).
Qed.

Lemma length_string_of_list_ascii (l : list ascii) :
  String.length (string_of_list_ascii l) = length l.
Proof. induction l as [|c l IH]; simpl; congruence. Qed.

Section GeneratorFacts.
Context {G : Type} (distLen distChar : G -> Z * G).
Hypothesis distLen_range : forall g, 10 <= fst (distLen g) <= 200.
Hypothesis distChar_range :
  forall g, 0 <= fst (distChar g) <= to_int (size alphabet) - 1.

Lemma fill_loop_spec (n : nat) (s : list ascii) (j : Z) (g : G) :
  0 <= j -> j + Z.of_nat n = Z.of_nat (length s) ->
  Forall in_table (take (Z.to_nat j) s) ->
  exists s' g',
    fill_loop distChar n s j g = Done (s', g') /\
    length s' = length s /\ Forall in_table s'.
Proof.
  revert s j g. induction n as [|n IH]; intros s j g Hj Hlen Hall.
  - exists s, g. rewrite take_ge in Hall by lia. auto.
  - cbn [fill_loop]. pose proof (distChar_range g) as Hk.
    destruct (distChar g) as [k g1]. cbn [fst] in Hk.
    destruct (alphabet_get k Hk) as (c & -> & Hc). cbn [bind].
    rewrite vset_inside by lia. cbn [bind].
    destruct (IH (<[Z.to_nat j := c]> s) (j + 1) g1) as (s' & g' & E & Hl & Ht);
      [lia | rewrite length_insert; lia | |].
    + replace (Z.to_nat (j + 1)) with (S (Z.to_nat j)) by lia.
      rewrite (take_S_r _ _ c) by (apply list_lookup_insert_eq; lia).
      rewrite take_insert_ge by lia.
      apply Forall_app.
      split; [exact Hall | constructor; [exact Hc | constructor]].
    + exists s', g'. rewrite length_insert in Hl. auto.
Qed.

Lemma sample_loop_spec (n : nat) (res : list string) (g : G) :
  exists out g',
    sample_loop distLen distChar n res g = Done (res ++ out, g') /\
    length out = n /\
    Forall (fun s => 10 <= size s <= 200 /\
                     forall c, In c (list_ascii_of_string s) -> in_table c) out.
Proof.
  revert res g. induction n as [|n IH]; intros res g.
  - exists [], g. rewrite app_nil_r. repeat split. constructor.
  - cbn [sample_loop]. pose proof (distLen_range g) as Hl.
    destruct (distLen g) as [len g1]. cbn [fst] in Hl. cbv zeta.
    rewrite wrap64_small by lia.
    destruct (fill_loop_spec (Z.to_nat len)
                (replicate (Z.to_nat len) " "%char) 0 g1)
      as (s & g2 & -> & Hlen & Hs);
      [lia | rewrite length_replicate; lia | constructor |].
    cbn [bind]. rewrite length_replicate in Hlen.
    destruct (IH (res ++ [string_of_list_ascii s]) g2) as (out & g' & E & Hn & Hall).
    exists (string_of_list_ascii s :: out), g'.
    rewrite E, <- app_assoc. split; [reflexivity|]. split; [simpl; lia|].
    constructor; [|exact Hall]. unfold size.
    rewrite length_string_of_list_ascii, list_ascii_of_string_of_list_ascii.
    split; [lia|]. intros c Hc. rewrite Forall_forall in Hs. apply Hs.
    apply list_elem_of_In. exact Hc.
Qed.

(** X17.  With distributions that keep to their ranges (lengths 10..200,
    character indices up to the last index of the alphabet),
    [generateRawSample] ends without leaving the alphabet or a string and
    returns [size] strings of 10 to 200 characters, every one a character
    of the table of [charToIndex], of rank 0 to [R]. *)
Theorem generateRawSample_table (size0 : Z) (g : G) :
  exists res g',
    generateRawSample distLen distChar size0 g = Done (res, g') /\
    length res = Z.to_nat size0 /\
    Forall (fun s => 10 <= size s <= 200 /\
                     forall c, In c (list_ascii_of_string s) -> in_table c) res.
Proof.
  unfold generateRawSample.
  destruct (sample_loop_spec (Z.to_nat size0) [] g) as (out & g' & E & Hn & Hall).
  exists out, g'. auto.
Qed.
End GeneratorFacts.

Lemma generateRawSample_table_witness :
  exists res g',
    generateRawSample
      (fun b : bool => (if b then 10 else 11, b))
      (fun b : bool => (if b then 74 else 0, negb b)) 2 true
    = Done (res, g') /\
    length res = Z.to_nat 2 /\
    Forall (fun s => 10 <= size s <= 200 /\
                     forall c, In c (list_ascii_of_string s) -> in_table c) res.
Proof.
  apply (generateRawSample_table
           (fun b : bool => (if b then 10 else 11, b))
           (fun b : bool => (if b then 74 else 0, negb b))).
  - intros []; simpl; lia.
  - intros []; vm_compute; split; discriminate.
Defined.

(** ** Two invocations of [run] *)


Section Determinism.
Context {A : Type} (key : A -> string) (signed_char : bool).
Context (std_sort : (A -> A -> Z -> bool * Z) -> list A -> Z -> list A * Z).
(** What a moved-from and a default-constructed string hold in the one
    invocation and in the other. *)
Context (dflt1 dflt2 : A).







End Determinism.

